(** * QNET: the expression simplification engine, embedded in Rocq

    A shallow embedding of
    - [src/qnet/algebra/core/algebraic_properties.py]
      (the simplification passes run by [create]),
    - [src/qnet/algebra/core/abstract_quantum_algebra.py]
      (the generic arithmetic of quantum expressions), and
    - [src/qnet/algebra/core/operator_algebra.py]
      (the operator algebra),
    followed by the properties the specification states about them.

    Python values are modelled by their observable behaviour: a call either
    returns a value or raises an exception ([Outcome]); recursion that Python
    bounds by its recursion limit is bounded here by a [fuel] argument. *)

From Stdlib Require Import List ZArith Bool Ascii String Lia Arith PeanoNat.
From Stdlib Require Import Relations Wellfounded Permutation.
Import ListNotations.

Set Implicit Arguments.
Set Warnings "-register-all".
Local Open Scope string_scope.
Local Open Scope list_scope.
Local Open Scope nat_scope.

(* ================================================================== *)
(** * Part I: definitions *)
(* ================================================================== *)

(** ** Python control flow *)

Inductive Exception : Type :=
| AssertionError
| AttributeError
| IndexError
| NotImplementedError
| RecursionError
| TypeError
| ValueError.

(** The result of a Python call. *)
Inductive Outcome (A : Type) : Type :=
| Return (a : A)
| Raise (e : Exception).

Arguments Return {A} a.
Arguments Raise {A} e.

Definition bind {A B : Type} (m : Outcome A) (k : A -> Outcome B) : Outcome B :=
  match m with
  | Return a => k a
  | Raise e => Raise e
  end.

Notation "x <- m ;; k" := (bind m (fun x => k))
  (at level 61, m at next level, right associativity).

(** What a replacement callable of a rule does: it returns the replacement
    or raises [CannotSimplify]. *)
Inductive Replacement (A : Type) : Type :=
| Replaced (v : A)
| CannotSimplify.

Arguments Replaced {A} v.
Arguments CannotSimplify {A}.

(** Python list idioms used by the binary reducer. *)
Definition py_last {A : Type} (a : list A) : option A :=
  match rev a with
  | [] => None
  | x :: _ => Some x
  end.

(** ** The collaborators of [algebraic_properties.py]

    The passes are generic in the expression universe.  Everything they
    import from modules outside [src/] is a field of this class. *)

Class Runtime : Type := {
  (** anything that can occur as an operand: expressions and scalars *)
  Expr : Type;
  (** a keyword dictionary *)
  Kwargs : Type;
  (** the literal [{}] *)
  no_kwargs : Kwargs;
  (** [a == b] *)
  py_eq : Expr -> Expr -> bool;
  (** patterns and the result of [match_pattern], whose truth value tells
      whether the match succeeded *)
  Pattern : Type;
  MatchDict : Type;
  match_pattern : Pattern -> list Expr * Kwargs -> MatchDict;
  success : MatchDict -> bool;
  (** [isinstance(op, SCALAR_TYPES)] *)
  is_scalar : Expr -> bool;
  (** [ScalarTimesOperator.create(op, IdentityOperator)] *)
  scalar_times_identity : Expr -> Expr;
  (** the singleton [ZeroOperator] *)
  ZeroOperator_ : Expr;
  (** [a.space.isdisjoint(b.space)], a scalar having [TrivialSpace] *)
  space_isdisjoint : Expr -> Expr -> bool;
  (** [-1 * x] *)
  neg_one_times : Expr -> Expr
}.

(** The names of the simplification passes a class can list in
    [_simplifications]. *)
Module Pass.
Inductive t : Type :=
| assoc
| orderby
| filter_neutral
| match_replace
| match_replace_binary
| scalars_to_op
| disjunct_hs_zero
| commutator_order.

Definition eqb (p q : t) : bool :=
  match p, q with
  | assoc, assoc | orderby, orderby | filter_neutral, filter_neutral
  | match_replace, match_replace
  | match_replace_binary, match_replace_binary
  | scalars_to_op, scalars_to_op | disjunct_hs_zero, disjunct_hs_zero
  | commutator_order, commutator_order => true
  | _, _ => false
  end.
End Pass.

(** A rule: [(pattern, replacement-callable)]; the callable receives the
    match dictionary as its keyword arguments. *)
Definition Rule `{Runtime} : Type :=
  (Pattern * (MatchDict -> Replacement Expr))%type.

(** The class attributes the passes read.  Rule tables are ordered
    dictionaries: their items in iteration order. *)
Record OperationClass `{Runtime} : Type := {
  __name__ : string;
  (** [Some o.operands] when [isinstance(o, cls)], else [None] *)
  operands_of : Expr -> option (list Expr);
  (** [None] when the class has no attribute [neutral_element] *)
  neutral_element : option Expr;
  (** [cls.order_key(a) < cls.order_key(b)] *)
  order_key_lt : Expr -> Expr -> bool;
  _rules : list (string * Rule);
  _binary_rules : list (string * Rule);
  _simplifications : list Pass.t;
  (** the constructor call of the class on [args] and [kwargs] *)
  construct : list Expr -> Kwargs -> Outcome Expr
}.

(** What a pass hands back: an [(ops, kwargs)] pair for the next pass, or a
    single finished object. *)
Inductive Simplified `{Runtime} : Type :=
| Continue (ops : list Expr) (kwargs : Kwargs)
| Finished (v : Expr).

Section Passes.
Context `{RT : Runtime}.

(** *** [assoc] *)
Definition assoc (cls : OperationClass) (ops : list Expr) (kwargs : Kwargs)
  : Simplified :=
  let expanded :=
    map (fun o => match operands_of cls o with
                  | None => [o]
                  | Some operands => operands
                  end) ops in
  Continue (List.concat expanded) kwargs.

(** *** [orderby]

    [sorted] is stable and compares keys with [<] only. *)
Fixpoint insert_sorted (lt : Expr -> Expr -> bool) (x : Expr)
  (l : list Expr) : list Expr :=
  match l with
  | [] => [x]
  | y :: l' => if lt y x then y :: insert_sorted lt x l' else x :: y :: l'
  end.

Definition sorted (lt : Expr -> Expr -> bool) (l : list Expr) : list Expr :=
  fold_right (insert_sorted lt) [] l.

Definition orderby (cls : OperationClass) (ops : list Expr) (kwargs : Kwargs)
  : Simplified :=
  Continue (sorted (order_key_lt cls) ops) kwargs.

(** *** [filter_neutral] *)
Definition filter_neutral (cls : OperationClass) (ops : list Expr)
  (kwargs : Kwargs) : Outcome Simplified :=
  match neutral_element cls with
  | None => Raise AttributeError
  | Some c_n =>
      match ops with
      | [] => Return (Finished c_n)
      | op0 :: _ =>
          let fops := filter (fun op => negb (py_eq c_n op)) ops in
          match fops with
          | _ :: _ :: _ => Return (Continue fops kwargs)
          | [fop] => Return (Finished fop)
          | [] => Return (Finished op0)
          end
      end
  end.

(** *** [match_replace] *)
Fixpoint match_replace_rules (rules : list (string * Rule))
  (ops : list Expr) (kwargs : Kwargs) : Simplified :=
  match rules with
  | [] => Continue ops kwargs
  | (_, (pat, replacement)) :: rules' =>
      let match_dict := match_pattern pat (ops, kwargs) in
      if success match_dict then
        match replacement match_dict with
        | Replaced replaced => Finished replaced
        | CannotSimplify => match_replace_rules rules' ops kwargs
        end
      else match_replace_rules rules' ops kwargs
  end.

Definition match_replace (cls : OperationClass) (ops : list Expr)
  (kwargs : Kwargs) : Simplified :=
  match_replace_rules (_rules cls) ops kwargs.

(** *** [_get_binary_replacement] *)
Fixpoint binary_replacement_rules (rules : list (string * Rule))
  (first second : Expr) : option Expr :=
  match rules with
  | [] => None
  | (_, (pat, replacement)) :: rules' =>
      let match_dict := match_pattern pat ([first; second], no_kwargs) in
      if success match_dict then
        match replacement match_dict with
        | Replaced replaced => Some replaced
        | CannotSimplify => binary_replacement_rules rules' first second
        end
      else binary_replacement_rules rules' first second
  end.

Definition _get_binary_replacement (first second : Expr)
  (cls : OperationClass) : option Expr :=
  binary_replacement_rules (_binary_rules cls) first second.

(** What the merge puts in place of a replaced pair: the operands of a
    replacement of the operation's own type, else the replacement alone. *)
Definition replacement_operands (cls : OperationClass) (r : Expr)
  : list Expr :=
  match operands_of cls r with
  | Some args => args
  | None => [r]
  end.

(** *** [_match_replace_binary_combine]

    [None]: the recursion did not end within [fuel] nested calls.
    [c_n] is [cls.neutral_element]. *)
Fixpoint _match_replace_binary_combine (fuel : nat) (cls : OperationClass)
  (c_n : Expr) (a b : list Expr) : option (list Expr) :=
  match fuel with
  | O => None
  | S fuel' =>
      match py_last a, b with
      | None, _ | _, [] => Some (a ++ b)
      | Some a_last, b0 :: b_tail =>
          match _get_binary_replacement a_last b0 cls with
          | None => Some (a ++ b)
          | Some r =>
              if py_eq r c_n then
                _match_replace_binary_combine fuel' cls c_n
                  (removelast a) b_tail
              else
                match _match_replace_binary_combine fuel' cls c_n
                        (removelast a) (replacement_operands cls r) with
                | None => None
                | Some merged =>
                    _match_replace_binary_combine fuel' cls c_n
                      merged b_tail
                end
          end
      end
  end.

(** *** [_match_replace_binary] *)
Fixpoint _match_replace_binary (fuel : nat) (cls : OperationClass)
  (c_n : Expr) (ops : list Expr) : option (list Expr) :=
  match fuel with
  | O => None
  | S fuel' =>
      let n := List.length ops in
      if n <=? 1 then Some ops
      else
        let ops_left := firstn (n / 2) ops in
        let ops_right := skipn (n / 2) ops in
        match _match_replace_binary fuel' cls c_n ops_left,
              _match_replace_binary fuel' cls c_n ops_right with
        | Some l, Some r => _match_replace_binary_combine fuel' cls c_n l r
        | _, _ => None
        end
  end.

(** *** [match_replace_binary] *)
Definition match_replace_binary (fuel : nat) (cls : OperationClass)
  (ops : list Expr) (kwargs : Kwargs) : Outcome Simplified :=
  if negb (existsb (Pass.eqb Pass.assoc) (_simplifications cls)) then
    Raise AssertionError
  else
    match neutral_element cls with
    | None => Raise AssertionError
    | Some c_n =>
        match _match_replace_binary fuel cls c_n ops with
        | None => Raise RecursionError
        | Some [fop] => Return (Finished fop)
        | Some [] => Return (Finished c_n)
        | Some fops => Return (Continue fops kwargs)
        end
    end.

(** *** [scalars_to_op] *)
Definition scalars_to_op (cls : OperationClass) (ops : list Expr)
  (kwargs : Kwargs) : Simplified :=
  let op_ops :=
    map (fun op => if is_scalar op then scalar_times_identity op else op)
      ops in
  Continue op_ops kwargs.

(** *** [disjunct_hs_zero]

    [hilbert_spaces] holds the operands seen so far; the loop answers
    [true] when it runs to its end, [false] when it leaves early. *)
Fixpoint disjunct_hs_zero_loop (hilbert_spaces ops : list Expr) : bool :=
  match ops with
  | [] => true
  | op :: ops' =>
      if forallb (fun hs_prev => space_isdisjoint op hs_prev) hilbert_spaces
      then disjunct_hs_zero_loop (hilbert_spaces ++ [op]) ops'
      else false
  end.

Definition disjunct_hs_zero (cls : OperationClass) (ops : list Expr)
  (kwargs : Kwargs) : Simplified :=
  if disjunct_hs_zero_loop [] ops then Finished ZeroOperator_
  else Continue ops kwargs.

(** *** [commutator_order]

    [Commutator_create] is the class method [Commutator.create]. *)
Definition commutator_order
  (Commutator_create : list Expr -> Kwargs -> Outcome Expr)
  (cls : OperationClass) (ops : list Expr) (kwargs : Kwargs)
  : Outcome Simplified :=
  match ops with
  | [ops0; ops1] =>
      if order_key_lt cls ops1 ops0 then
        c <- Commutator_create [ops1; ops0] no_kwargs ;;
        Return (Finished (neg_one_times c))
      else Return (Continue ops kwargs)
  | _ => Raise AssertionError
  end.

(** ** The pipeline *)

(** One entry of [_simplifications] applied to [(ops, kwargs)].
    [create_] is [create] for the nested constructions; the only class of
    the source that lists [commutator_order] is [Commutator] itself, so the
    class that pass re-enters is [cls]. *)
Definition simplification (fuel : nat)
  (create_ : OperationClass -> list Expr -> Kwargs -> Outcome Expr)
  (p : Pass.t) (cls : OperationClass) (ops : list Expr) (kwargs : Kwargs)
  : Outcome Simplified :=
  match p with
  | Pass.assoc => Return (assoc cls ops kwargs)
  | Pass.orderby => Return (orderby cls ops kwargs)
  | Pass.filter_neutral => filter_neutral cls ops kwargs
  | Pass.match_replace => Return (match_replace cls ops kwargs)
  | Pass.match_replace_binary => match_replace_binary fuel cls ops kwargs
  | Pass.scalars_to_op => Return (scalars_to_op cls ops kwargs)
  | Pass.disjunct_hs_zero => Return (disjunct_hs_zero cls ops kwargs)
  | Pass.commutator_order => commutator_order (create_ cls) cls ops kwargs
  end.

(** Modelled from the spec: [create] of [abstract_algebra.py], which is not
    among the sources.  "Run each pass in sequence; a pass receives the
    current [(args, kwargs)] and either returns a transformed pair to feed
    the next pass, or returns a single finished value, which immediately
    short-circuits all remaining passes and is returned as the overall
    result without ever invoking the type's constructor.  If all passes
    complete without short-circuiting, the constructor is invoked on the
    final [(args, kwargs)]." *)
Fixpoint run_simplifications
  (apply : Pass.t -> list Expr -> Kwargs -> Outcome Simplified)
  (construct_ : list Expr -> Kwargs -> Outcome Expr)
  (passes : list Pass.t) (args : list Expr) (kwargs : Kwargs)
  : Outcome Expr :=
  match passes with
  | [] => construct_ args kwargs
  | p :: passes' =>
      simplified <- apply p args kwargs ;;
      match simplified with
      | Finished v => Return v
      | Continue args' kwargs' =>
          run_simplifications apply construct_ passes' args' kwargs'
      end
  end.

(** Modelled from the spec: the class method [create], see
    [run_simplifications]. *)
Fixpoint create (fuel : nat) (cls : OperationClass) (args : list Expr)
  (kwargs : Kwargs) : Outcome Expr :=
  match fuel with
  | O => Raise RecursionError
  | S fuel' =>
      run_simplifications
        (fun p => simplification fuel' (create fuel') p cls)
        (construct cls) (_simplifications cls) args kwargs
  end.

End Passes.

(** ** Pairwise rewriting of an operand list

    The reference semantics of binary reduction: an adjacent pair that has a
    binary replacement is rewritten in place. *)

Section PairwiseReduction.
Context `{RT : Runtime}.

(** What takes the place of an adjacent pair whose replacement is [r]:
    nothing when [r] is the neutral element, the operands of [r] when it is
    of the operation's own type, else [r]. *)
Definition pair_result (cls : OperationClass) (c_n r : Expr) : list Expr :=
  if py_eq r c_n then [] else replacement_operands cls r.

Inductive rewrites_to (cls : OperationClass) (c_n : Expr)
  : list Expr -> list Expr -> Prop :=
| rewrite_pair (l1 : list Expr) (x y : Expr) (l2 : list Expr) (r : Expr) :
    _get_binary_replacement x y cls = Some r ->
    rewrites_to cls c_n (l1 ++ x :: y :: l2)
      (l1 ++ pair_result cls c_n r ++ l2).

(** No adjacent pair has a replacement. *)
Fixpoint irreducible (cls : OperationClass) (l : list Expr) : bool :=
  match l with
  | x :: l' =>
      match l' with
      | y :: _ =>
          match _get_binary_replacement x y cls with
          | None => irreducible cls l'
          | Some _ => false
          end
      | [] => true
      end
  | [] => true
  end.

(** One left-to-right scan: the first adjacent pair that has a replacement
    is rewritten; [None] when no pair has one. *)
Fixpoint rewrite_first_pair (cls : OperationClass) (c_n : Expr)
  (ops : list Expr) : option (list Expr) :=
  match ops with
  | x :: ops' =>
      match ops' with
      | y :: rest =>
          match _get_binary_replacement x y cls with
          | Some r => Some (pair_result cls c_n r ++ rest)
          | None =>
              match rewrite_first_pair cls c_n ops' with
              | Some ops'' => Some (x :: ops'')
              | None => None
              end
          end
      | [] => None
      end
  | [] => None
  end.

(** The specification's reference reducer: "exhaustively applying the
    binary rule pairwise in sequence until fixpoint". *)
Fixpoint reduce_pairwise_until_fixpoint (fuel : nat) (cls : OperationClass)
  (c_n : Expr) (ops : list Expr) : option (list Expr) :=
  match fuel with
  | O => None
  | S fuel' =>
      match rewrite_first_pair cls c_n ops with
      | None => Some ops
      | Some ops' => reduce_pairwise_until_fixpoint fuel' cls c_n ops'
      end
  end.

(** The operand lists a finished reduction can be made of: every
    replacement of the operation's own type carries operands that are
    themselves reduced. *)
Definition replacements_reduced (cls : OperationClass) : Prop :=
  forall x y r args,
    _get_binary_replacement x y cls = Some r ->
    operands_of cls r = Some args ->
    irreducible cls args = true.

End PairwiseReduction.

(** ** A concrete universe: the plain Python values of the docstrings

    The classes the docstrings of [algebraic_properties.py] define
    ([FilterDupes], [X], ...) take integers, strings and their own instances
    as operands.  An object is identified by its type, positional arguments
    and keyword arguments. *)

Module Py.

Inductive PyVal : Type :=
| PInt (z : Z)
| PStr (s : string)
| PObj (cls : string) (args : list PyVal) (kwargs : list (string * PyVal)).

(** [==]: structural equality. *)
Fixpoint pyval_eqb (u v : PyVal) {struct u} : bool :=
  match u, v with
  | PInt a, PInt b => Z.eqb a b
  | PStr a, PStr b => String.eqb a b
  | PObj c1 a1 k1, PObj c2 a2 k2 =>
      String.eqb c1 c2
      && (fix args_eqb (l1 l2 : list PyVal) {struct l1} : bool :=
            match l1, l2 with
            | [], [] => true
            | x :: l1', y :: l2' => pyval_eqb x y && args_eqb l1' l2'
            | _, _ => false
            end) a1 a2
      && (fix kwargs_eqb (l1 l2 : list (string * PyVal)) {struct l1}
            : bool :=
            match l1, l2 with
            | [], [] => true
            | (n1, x) :: l1', (n2, y) :: l2' =>
                String.eqb n1 n2 && pyval_eqb x y && kwargs_eqb l1' l2'
            | _, _ => false
            end) k1 k2
  | _, _ => false
  end.

(** [type(v).__name__] *)
Definition type_name (v : PyVal) : string :=
  match v with
  | PInt _ => "int"
  | PStr _ => "str"
  | PObj cls _ _ => cls
  end.

Fixpoint lookup {A : Type} (key : string) (d : list (string * A))
  : option A :=
  match d with
  | [] => None
  | (k, v) :: d' => if String.eqb k key then Some v else lookup key d'
  end.

(** *** Patterns *)

Inductive Pat : Type :=
(** a plain value *)
| PatLit (v : PyVal)
(** [wc(name, head=..., conditions=...)]; an empty [head] list and
    [None] mean: no constraint *)
| PatWc (name : string) (head : list string)
    (condition : option (PyVal -> bool))
(** [pattern(head, ...)] with positional and keyword sub-patterns *)
| PatNode (head : string) (args : list Pat) (kwargs : list (string * Pat)).

(** [pattern_head(...)]: a pattern for the proto-expression
    of a class under construction. *)
Record ProtoPat : Type := pattern_head_kw {
  pat_args : list Pat;
  pat_kwargs : list (string * Pat)
}.

Definition pattern_head (args : list Pat) : ProtoPat :=
  pattern_head_kw args [].

Inductive MatchResult : Type :=
| Match (bindings : list (string * PyVal))
| NoMatch (reason : string).

Definition bind_wildcard (name : string) (v : PyVal)
  (bindings : list (string * PyVal)) : MatchResult :=
  match lookup name bindings with
  | None => Match (bindings ++ [(name, v)])
  | Some v' =>
      if pyval_eqb v' v then Match bindings
      else NoMatch "inconsistent binding"
  end.

(** Modelled from the spec: [match_pattern] of [pattern_matching.py],
    which is not among the sources.  A plain value matches an equal
    candidate; a wildcard fails on a head mismatch or an unmet condition
    and else binds its name; a pattern with a head fails on a wrong type
    or a wrong number of operands and else matches its sub-patterns in
    order, merging the bindings, which fails when one name is bound to
    two unequal values. *)
Fixpoint match_pat (p : Pat) (v : PyVal)
  (bindings : list (string * PyVal)) {struct p} : MatchResult :=
  match p with
  | PatLit lit =>
      if pyval_eqb lit v then Match bindings else NoMatch "not equal"
  | PatWc name head condition =>
      if negb (match head with
               | [] => true
               | _ => existsb (String.eqb (type_name v)) head
               end)
      then NoMatch "head mismatch"
      else if negb (match condition with
                    | None => true
                    | Some p => p v
                    end)
      then NoMatch "condition not met"
      else bind_wildcard name v bindings
  | PatNode head pargs pkwargs =>
      match v with
      | PObj cls args kwargs =>
          if negb (String.eqb cls head) then NoMatch "wrong type"
          else
            match
              (fix match_args (ps : list Pat) (vs : list PyVal)
                 (bindings : list (string * PyVal)) {struct ps}
                 : MatchResult :=
                 match ps, vs with
                 | [], [] => Match bindings
                 | p' :: ps', v' :: vs' =>
                     match match_pat p' v' bindings with
                     | Match bindings' => match_args ps' vs' bindings'
                     | NoMatch _ => NoMatch "sub-pattern mismatch"
                     end
                 | _, _ => NoMatch "wrong number of operands"
                 end) pargs args bindings
            with
            | NoMatch reason => NoMatch reason
            | Match bindings' =>
                (fix match_kwargs (ps : list (string * Pat))
                   (bindings : list (string * PyVal)) {struct ps}
                   : MatchResult :=
                   match ps with
                   | [] => Match bindings
                   | (key, p') :: ps' =>
                       match lookup key kwargs with
                       | None => NoMatch "sub-pattern mismatch"
                       | Some v' =>
                           match match_pat p' v' bindings with
                           | Match bindings' => match_kwargs ps' bindings'
                           | NoMatch _ => NoMatch "sub-pattern mismatch"
                           end
                       end
                   end) pkwargs bindings'
            end
      | _ => NoMatch "wrong type"
      end
  end.

Fixpoint match_list (ps : list Pat) (vs : list PyVal)
  (bindings : list (string * PyVal)) : MatchResult :=
  match ps, vs with
  | [], [] => Match bindings
  | p :: ps', v :: vs' =>
      match match_pat p v bindings with
      | Match bindings' => match_list ps' vs' bindings'
      | NoMatch _ => NoMatch "sub-pattern mismatch"
      end
  | _, _ => NoMatch "wrong number of operands"
  end.

Fixpoint match_dict_items (ps : list (string * Pat))
  (kwargs : list (string * PyVal)) (bindings : list (string * PyVal))
  : MatchResult :=
  match ps with
  | [] => Match bindings
  | (key, p) :: ps' =>
      match lookup key kwargs with
      | None => NoMatch "sub-pattern mismatch"
      | Some v =>
          match match_pat p v bindings with
          | Match bindings' => match_dict_items ps' kwargs bindings'
          | NoMatch _ => NoMatch "sub-pattern mismatch"
          end
      end
  end.

(** Modelled from the spec: matching against the proto-expression view
    [(ops, kwargs)] of a node that does not exist yet. *)
Definition match_proto (p : ProtoPat)
  (expr : list PyVal * list (string * PyVal)) : MatchResult :=
  match match_list (pat_args p) (fst expr) [] with
  | NoMatch reason => NoMatch reason
  | Match bindings => match_dict_items (pat_kwargs p) (snd expr) bindings
  end.

Definition matched (m : MatchResult) : bool :=
  match m with
  | Match _ => true
  | NoMatch _ => false
  end.

(** *** The universe as a [Runtime] *)

(** The Hilbert space of a value: the keyword argument [hs] of an object;
    anything else acts on the trivial space. *)
Definition space_labels (v : PyVal) : list PyVal :=
  match v with
  | PObj _ _ kwargs =>
      match lookup "hs" kwargs with
      | Some hs => [hs]
      | None => []
      end
  | _ => []
  end.

Definition isdisjoint (a b : PyVal) : bool :=
  forallb (fun hs => negb (existsb (pyval_eqb hs) (space_labels b)))
    (space_labels a).

Definition is_int (v : PyVal) : bool :=
  match v with
  | PInt _ => true
  | _ => false
  end.

#[export] Instance PyRuntime : Runtime := {|
  Expr := PyVal;
  Kwargs := list (string * PyVal);
  no_kwargs := [];
  py_eq := pyval_eqb;
  Pattern := ProtoPat;
  MatchDict := MatchResult;
  match_pattern := match_proto;
  success := matched;
  is_scalar := is_int;
  scalar_times_identity := fun v =>
    PObj "ScalarTimesOperator" [v; PObj "IdentityOperator" [] []] [];
  ZeroOperator_ := PObj "ZeroOperator" [] [];
  space_isdisjoint := isdisjoint;
  neg_one_times := fun v => PObj "ScalarTimesOperator" [PInt (-1); v] []
|}.

(** [isinstance(o, cls)] and [o.operands] for a class named [name]. *)
Definition instance_operands (name : string) (o : PyVal)
  : option (list PyVal) :=
  match o with
  | PObj cls args _ => if String.eqb cls name then Some args else None
  | _ => None
  end.

Definition instantiate (name : string) (args : list PyVal)
  (kwargs : list (string * PyVal)) : Outcome PyVal :=
  Return (PObj name args kwargs).

(** The keyword argument [A] of a replacement callable. *)
Definition kw (name : string) (m : MatchResult) : option PyVal :=
  match m with
  | Match bindings => lookup name bindings
  | NoMatch _ => None
  end.

Definition wc (name : string) : Pat := PatWc name [] None.

(** [lambda A: A] *)
Definition lambda_A_A (m : MatchResult) : Replacement PyVal :=
  match kw "A" m with
  | Some A => Replaced A
  | None => CannotSimplify
  end.

(** No order key: nothing is smaller than anything. *)
Definition unordered (a b : PyVal) : bool := false.

(** The class [FilterDupes] of the docstring of [match_replace_binary]. *)
Definition FilterDupes : OperationClass := {|
  __name__ := "FilterDupes";
  operands_of := instance_operands "FilterDupes";
  neutral_element := Some (PInt 0);
  order_key_lt := unordered;
  _rules := [];
  _binary_rules :=
    [("filter_dupes", (pattern_head [wc "A"; wc "A"], lambda_A_A))];
  _simplifications := [Pass.match_replace_binary; Pass.assoc];
  construct := instantiate "FilterDupes"
|}.

(** The class [X] of the docstring of [match_replace]. *)
Definition X : OperationClass := {|
  __name__ := "X";
  operands_of := instance_operands "X";
  neutral_element := None;
  order_key_lt := unordered;
  _rules := [("r1", (pattern_head [wc "A"; wc "A"], lambda_A_A))];
  _binary_rules := [];
  _simplifications := [Pass.match_replace];
  construct := instantiate "X"
|}.

(** A rule that declines: [lambda A, B: ...] raising [CannotSimplify]
    unless [A == B], as [_combine_operator_p_cc] does. *)
Definition decline_unless_equal (m : MatchResult) : Replacement PyVal :=
  match kw "A" m, kw "B" m with
  | Some A, Some B => if pyval_eqb A B then Replaced A else CannotSimplify
  | _, _ => CannotSimplify
  end.

Definition lambda_AB_B (m : MatchResult) : Replacement PyVal :=
  match kw "B" m with
  | Some B => Replaced B
  | None => CannotSimplify
  end.

(** A class whose first rule matches every pair but may decline. *)
Definition Guarded : OperationClass := {|
  __name__ := "Guarded";
  operands_of := instance_operands "Guarded";
  neutral_element := None;
  order_key_lt := unordered;
  _rules :=
    [("r1", (pattern_head [wc "A"; wc "B"], decline_unless_equal));
     ("r2", (pattern_head [wc "A"; wc "B"; wc "C"], lambda_A_A));
     ("r3", (pattern_head [wc "A"; wc "B"], lambda_AB_B))];
  _binary_rules := [];
  _simplifications := [Pass.match_replace];
  construct := instantiate "Guarded"
|}.

Definition constant (v : PyVal) (m : MatchResult) : Replacement PyVal :=
  Replaced v.

Definition lit (z : Z) : Pat := PatLit (PInt z).

(** A rule table that is not compatible with associativity: [1, 2]
    becomes [3], and [2, 4] cancels. *)
Definition Chain : OperationClass := {|
  __name__ := "Chain";
  operands_of := instance_operands "Chain";
  neutral_element := Some (PInt 0);
  order_key_lt := unordered;
  _rules := [];
  _binary_rules :=
    [("ab", (pattern_head [lit 1; lit 2], constant (PInt 3)));
     ("bd", (pattern_head [lit 2; lit 4], constant (PInt 0)))];
  _simplifications := [Pass.assoc; Pass.match_replace_binary];
  construct := instantiate "Chain"
|}.

(** A class with one cancelling pair: [1] directly followed by [-1]
    gives the neutral element. *)
Definition Cancel : OperationClass := {|
  __name__ := "Cancel";
  operands_of := instance_operands "Cancel";
  neutral_element := Some (PInt 0);
  order_key_lt := unordered;
  _rules := [];
  _binary_rules :=
    [("cancel", (pattern_head [lit 1; lit (-1)], constant (PInt 0)))];
  _simplifications := [Pass.assoc; Pass.match_replace_binary];
  construct := instantiate "Cancel"
|}.

(** [lambda A: Again(A, A)]: the replacement is built by the
    constructor. *)
Definition lambda_A_Again (m : MatchResult) : Replacement PyVal :=
  match kw "A" m with
  | Some A => Replaced (PObj "Again" [A; A] [])
  | None => CannotSimplify
  end.

(** A class whose replacement of an operand next to itself is an instance
    with that pair as operands. *)
Definition Again : OperationClass := {|
  __name__ := "Again";
  operands_of := instance_operands "Again";
  neutral_element := Some (PInt 0);
  order_key_lt := unordered;
  _rules := [];
  _binary_rules :=
    [("again", (pattern_head [wc "A"; wc "A"], lambda_A_Again))];
  _simplifications := [Pass.assoc; Pass.match_replace_binary];
  construct := instantiate "Again"
|}.

(** An order key for symbols: the code of the first letter of the label;
    an integer is its own key. *)
Definition order_number (v : PyVal) : Z :=
  match v with
  | PObj _ (PStr (String c _) :: _) _ => Z.of_N (Ascii.N_of_ascii c)
  | PInt z => z
  | _ => 0%Z
  end.

Definition label_lt (a b : PyVal) : bool :=
  Z.ltb (order_number a) (order_number b).

Definition OperatorSymbol (label : string) (hs : Z) : PyVal :=
  PObj "OperatorSymbol" [PStr label] [("hs", PInt hs)].

(** [wc(name, head=OperatorSymbol)] *)
Definition wc_symbol (name : string) : Pat :=
  PatWc name ["OperatorSymbol"] None.

(** A sum with the pass sequence of [OperatorPlus]; a symbol next to
    itself is kept once. *)
Definition Plus : OperationClass := {|
  __name__ := "Plus";
  operands_of := instance_operands "Plus";
  neutral_element := Some (PObj "ZeroOperator" [] []);
  order_key_lt := label_lt;
  _rules := [];
  _binary_rules :=
    [("same_symbol",
      (pattern_head [wc_symbol "A"; wc_symbol "A"], lambda_A_A))];
  _simplifications :=
    [Pass.assoc; Pass.scalars_to_op; Pass.orderby; Pass.filter_neutral;
     Pass.match_replace_binary];
  construct := instantiate "Plus"
|}.

(** A commutator with the pass sequence of [Commutator]. *)
Definition Commutator : OperationClass := {|
  __name__ := "Commutator";
  operands_of := instance_operands "Commutator";
  neutral_element := None;
  order_key_lt := label_lt;
  _rules := [];
  _binary_rules := [];
  _simplifications :=
    [Pass.scalars_to_op; Pass.disjunct_hs_zero; Pass.commutator_order;
     Pass.match_replace];
  construct := instantiate "Commutator"
|}.

End Py.

(** ** Vocabulary of the statements *)

Section Vocabulary.
Context `{RT : Runtime}.

(** A rule does not apply to [(ops, kwargs)]: its pattern does not match,
    or its replacement callable raises [CannotSimplify]. *)
Definition rule_declines (ops : list Expr) (kwargs : Kwargs)
  (rule : string * Rule) : Prop :=
  let match_dict := match_pattern (fst (snd rule)) (ops, kwargs) in
  success match_dict = false \/ snd (snd rule) match_dict = CannotSimplify.

(** A rule applies and gives [v]. *)
Definition rule_gives (ops : list Expr) (kwargs : Kwargs)
  (rule : string * Rule) (v : Expr) : Prop :=
  let match_dict := match_pattern (fst (snd rule)) (ops, kwargs) in
  success match_dict = true /\ snd (snd rule) match_dict = Replaced v.

End Vocabulary.

(** ** Vocabulary of binary reduction *)

Section ReductionVocabulary.
Context `{RT : Runtime}.

(** Any number of pairwise rewriting steps. *)
Definition reduces_to (cls : OperationClass) (c_n : Expr)
  : list Expr -> list Expr -> Prop :=
  clos_refl_trans (list Expr) (rewrites_to cls c_n).

(** Every sequence of rewriting steps from [ops] ends. *)
Definition terminating (cls : OperationClass) (c_n : Expr)
  (ops : list Expr) : Prop :=
  Acc (fun l' l => rewrites_to cls c_n l l') ops.

(** The rules are compatible with associativity on [ops]: whatever the
    order in which they are applied to pairs of operands, the fully
    reduced list is the same. *)
Definition order_independent (cls : OperationClass) (c_n : Expr)
  (ops : list Expr) : Prop :=
  forall n1 n2,
    reduces_to cls c_n ops n1 -> reduces_to cls c_n ops n2 ->
    irreducible cls n1 = true -> irreducible cls n2 = true ->
    n1 = n2.

End ReductionVocabulary.

(** ** The normal form of a [Cancel] operand list *)

Module CancelNF.
Import Py.

(** The pair the rule of [Cancel] matches. *)
Definition redex (x y : PyVal) : bool :=
  pyval_eqb (PInt 1) x && pyval_eqb (PInt (-1)) y.

(** One left-to-right scan with a stack of the operands kept so far. *)
Fixpoint cancel_nf (stack l : list PyVal) : list PyVal :=
  match l with
  | [] => rev stack
  | x :: l' =>
      match stack with
      | t :: stack' =>
          if redex t x then cancel_nf stack' l' else cancel_nf (x :: stack) l'
      | [] => cancel_nf [x] l'
      end
  end.

End CancelNF.

(** ** Vocabulary of the pipeline *)

Section PipelineVocabulary.
Context `{RT : Runtime}.

(** [_simplifications] of [OperatorPlus], [OperatorTimes] and [Commutator]
    in [operator_algebra.py]. *)
Definition OperatorPlus_simplifications : list Pass.t :=
  [Pass.assoc; Pass.scalars_to_op; Pass.orderby; Pass.filter_neutral;
   Pass.match_replace_binary].

Definition OperatorTimes_simplifications : list Pass.t :=
  [Pass.assoc; Pass.orderby; Pass.filter_neutral; Pass.match_replace_binary].

Definition Commutator_simplifications : list Pass.t :=
  [Pass.scalars_to_op; Pass.disjunct_hs_zero; Pass.commutator_order;
   Pass.match_replace].

(** Neighbours are in order-key order: none is smaller than the one before
    it. *)
Fixpoint ordered_by (lt : Expr -> Expr -> bool) (l : list Expr) : bool :=
  match l with
  | x :: l' =>
      match l' with
      | y :: _ => negb (lt y x) && ordered_by lt l'
      | [] => true
      end
  | [] => true
  end.

(** Operands in canonical form: none of the class itself, none a scalar, in
    order, none equal to the neutral element. *)
Definition canonical_operands (cls : OperationClass) (c_n : Expr)
  (ops : list Expr) : bool :=
  forallb (fun o => match operands_of cls o with
                    | None => true
                    | Some _ => false
                    end) ops
  && forallb (fun o => negb (is_scalar o)) ops
  && ordered_by (order_key_lt cls) ops
  && forallb (fun o => negb (py_eq c_n o)) ops.

(** An operand list no pass of a sum or product changes: at least two
    operands, in canonical form, and no adjacent pair with a binary
    replacement. *)
Definition simplified_operands (cls : OperationClass) (c_n : Expr)
  (ops : list Expr) : bool :=
  (2 <=? List.length ops)
  && canonical_operands cls c_n ops
  && irreducible cls ops.

(** The binary rules keep operands in canonical form. *)
Definition rules_keep_canonical (cls : OperationClass) (c_n : Expr) : Prop :=
  forall l l',
    canonical_operands cls c_n l = true ->
    rewrites_to cls c_n l l' ->
    canonical_operands cls c_n l' = true.

(** The order key gives a strict weak order. *)
Definition strict_weak_order (lt : Expr -> Expr -> bool) : Prop :=
  (forall a b, lt a b = true -> lt b a = false)
  /\ (forall a b c, lt c a = true -> lt b a = true \/ lt c b = true).

(** Nodes among the arguments are flat: an argument of the class itself
    has no operand of the class. *)
Definition nested_flat (cls : OperationClass) (args : list Expr) : Prop :=
  forall o operands,
    In o args -> operands_of cls o = Some operands ->
    forallb (fun o' => match operands_of cls o' with
                       | None => true
                       | Some _ => false
                       end) operands = true.

(** A scalar turned into an operator is neither a scalar nor of the
    class. *)
Definition scalars_become_operators (cls : OperationClass) : Prop :=
  forall o,
    is_scalar o = true ->
    is_scalar (scalar_times_identity o) = false
    /\ operands_of cls (scalar_times_identity o) = None.

(** What the passes of a pipeline hand to the constructor: [Continue] with
    the final [(args, kwargs)], or the value that short-circuited. *)
Fixpoint simplifications_outcome
  (apply : Pass.t -> list Expr -> Kwargs -> Outcome Simplified)
  (passes : list Pass.t) (args : list Expr) (kwargs : Kwargs)
  : Outcome Simplified :=
  match passes with
  | [] => Return (Continue args kwargs)
  | p :: passes' =>
      simplified <- apply p args kwargs ;;
      match simplified with
      | Finished v => Return (Finished v)
      | Continue args' kwargs' =>
          simplifications_outcome apply passes' args' kwargs'
      end
  end.

End PipelineVocabulary.

(** ** The operator algebra: [operator_algebra.py] over
       [abstract_quantum_algebra.py] *)

Module Operators.

(** *** Scalars and Hilbert spaces

    The scalar backend is outside the core; a scalar is a complex number
    with integer parts.  A Hilbert space is the list of the labels of its
    local factors: [TrivialSpace] is the empty list. *)

Record Scalar : Type := complex {
  re : Z;
  im : Z
}.

Definition scalar_eqb (a b : Scalar) : bool :=
  Z.eqb (re a) (re b) && Z.eqb (im a) (im b).

Definition Zero : Scalar := complex 0 0.
Definition One : Scalar := complex 1 0.

Definition scalar_conjugate (a : Scalar) : Scalar :=
  complex (re a) (- im a).

Definition scalar_neg (a : Scalar) : Scalar :=
  complex (- re a) (- im a).

Definition HilbertSpace : Type := list string.

Definition TrivialSpace : HilbertSpace := [].

Definition LocalSpace (label : string) : HilbertSpace := [label].

(** *** Arguments of [Sum] and index ranges *)

(** A Python value passed as a range argument. *)
Inductive Arg : Type :=
| AInt (z : Z)
| ABool (b : bool)
| AStr (s : string)
| ANone
| ALocalSpace (label : string)
| AProductSpace (labels : list string)
| AList (items : list Z)
| ATuple (items : list Z).

(** The classes of [utils/indices.py]; an index symbol is known by its
    name. *)
Inductive IndexRange : Type :=
| IndexOverList (idx : string) (values : Arg)
| IndexOverRange (idx : string) (start_from to step : Arg)
| IndexOverFockSpace (idx : string) (hs : Arg).

(** *** Operator expressions

    One constructor for each class of [operator_algebra.py] that can be
    instantiated, with its [args] and [kwargs]. *)
Inductive Operator : Type :=
| OperatorSymbol (label : string) (hs : HilbertSpace)
| IdentityOperator
| ZeroOperator
| Destroy (hs : HilbertSpace)
| Create (hs : HilbertSpace)
| Jz (hs : HilbertSpace)
| Jplus (hs : HilbertSpace)
| Jminus (hs : HilbertSpace)
| Phase (phi : Scalar) (hs : HilbertSpace)
| Displace (alpha : Scalar) (hs : HilbertSpace)
| Squeeze (eta : Scalar) (hs : HilbertSpace)
| LocalSigma (j k : string) (hs : HilbertSpace)
| LocalProjector (j : string) (hs : HilbertSpace)
| OperatorPlus (operands : list Operator)
| OperatorTimes (operands : list Operator)
| ScalarTimesOperator (coeff : Scalar) (term : Operator)
| Commutator (A B : Operator)
| OperatorTrace (op : Operator) (over_space : HilbertSpace)
| Adjoint (op : Operator)
| OperatorPlusMinusCC (op : Operator) (sign : Z)
| PseudoInverse (op : Operator)
| NullSpaceProjector (op : Operator)
| OperatorIndexedSum (term : Operator) (ranges : list IndexRange).

(** A value an operator can meet in arithmetic or in an expansion. *)
Inductive Value : Type :=
| VScalar (s : Scalar)
| VOp (op : Operator)
(** anything that is neither a scalar nor an operator *)
| VOther (type_name : string).

(** An entry of the expansion a [_series_expand] method returns. *)
Inductive Coefficient : Type :=
| CScalar (s : Scalar)
| COp (op : Operator).

(** What a special method such as [__add__] does. *)
Inductive MethodResult : Type :=
| Returns (op : Operator)
| NotImplemented
| Raises (e : Exception).

(** The [create] methods of the operation classes apply rule tables that a
    module outside the sources fills in; they are the parameters of the
    algebra.  [compound_series_expand] stands for the [_series_expand]
    methods of [QuantumTimes] and [ScalarTimesQuantumExpression], which
    expand a scalar and do arithmetic with the [Zero] of
    [scalar_algebra.py]; the index symbol of an expansion is known by its
    name. *)
Class Rules : Type := {
  OperatorPlus_create : list Operator -> Operator;
  OperatorTimes_create : list Operator -> Operator;
  ScalarTimesOperator_create : Scalar -> Operator -> Operator;
  Commutator_create : Operator -> Operator -> Operator;
  (** [OperatorTrace.create(op, over_space=over_space)] *)
  OperatorTrace_create : Operator -> HilbertSpace -> Operator;
  Phase_create : Scalar -> HilbertSpace -> Operator;
  Displace_create : Scalar -> HilbertSpace -> Operator;
  OperatorIndexedSum_create : Operator -> list IndexRange -> Operator;
  compound_series_expand :
    Operator -> string -> Scalar -> nat -> Outcome (list Coefficient);
  (** [ProductSpace.create] and the quotient of two spaces, of
      [hilbert_space_algebra.py] *)
  ProductSpace_create : list HilbertSpace -> HilbertSpace;
  space_quotient : HilbertSpace -> HilbertSpace -> HilbertSpace
}.

(** The algebra without any rule: every [create] instantiates. *)
Definition NoRules : Rules := {|
  OperatorPlus_create := OperatorPlus;
  OperatorTimes_create := OperatorTimes;
  ScalarTimesOperator_create := ScalarTimesOperator;
  Commutator_create := Commutator;
  OperatorTrace_create := OperatorTrace;
  Phase_create := Phase;
  Displace_create := Displace;
  OperatorIndexedSum_create := OperatorIndexedSum;
  compound_series_expand := fun _ _ _ _ => Raise NotImplementedError;
  ProductSpace_create := fun spaces => nodup string_dec (List.concat spaces);
  space_quotient := fun hs over =>
    filter (fun l => negb (existsb (String.eqb l) over)) hs
|}.

(** The class attributes set at the end of [operator_algebra.py]. *)
Definition _zero : Operator := ZeroOperator.
Definition _one : Operator := IdentityOperator.

(** *** Equality *)

Definition hs_eqb (a b : HilbertSpace) : bool :=
  if list_eq_dec string_dec a b then true else false.

Definition list_Z_eqb (a b : list Z) : bool :=
  if list_eq_dec Z.eq_dec a b then true else false.

Definition arg_eqb (a b : Arg) : bool :=
  match a, b with
  | AInt x, AInt y => Z.eqb x y
  | ABool x, ABool y => Bool.eqb x y
  | AStr x, AStr y => String.eqb x y
  | ANone, ANone => true
  | ALocalSpace x, ALocalSpace y => String.eqb x y
  | AProductSpace x, AProductSpace y => hs_eqb x y
  | AList x, AList y => list_Z_eqb x y
  | ATuple x, ATuple y => list_Z_eqb x y
  | _, _ => false
  end.

Definition range_eqb (a b : IndexRange) : bool :=
  match a, b with
  | IndexOverList i v, IndexOverList i' v' => String.eqb i i' && arg_eqb v v'
  | IndexOverRange i s t p, IndexOverRange i' s' t' p' =>
      String.eqb i i' && arg_eqb s s' && arg_eqb t t' && arg_eqb p p'
  | IndexOverFockSpace i h, IndexOverFockSpace i' h' =>
      String.eqb i i' && arg_eqb h h'
  | _, _ => false
  end.

Fixpoint list_eqb {A : Type} (eqb : A -> A -> bool) (l1 l2 : list A) : bool :=
  match l1, l2 with
  | [], [] => true
  | x :: l1', y :: l2' => eqb x y && list_eqb eqb l1' l2'
  | _, _ => false
  end.

(** Modelled from the spec: [Expression.__eq__] of [abstract_algebra.py],
    which is not among the sources.  "Two nodes are structurally equal iff
    same type and same canonicalized args/kwargs." *)
Fixpoint structurally_equal (x y : Operator) {struct x} : bool :=
  match x, y with
  | OperatorSymbol l h, OperatorSymbol l' h' => String.eqb l l' && hs_eqb h h'
  | IdentityOperator, IdentityOperator => true
  | ZeroOperator, ZeroOperator => true
  | Destroy h, Destroy h' => hs_eqb h h'
  | Create h, Create h' => hs_eqb h h'
  | Jz h, Jz h' => hs_eqb h h'
  | Jplus h, Jplus h' => hs_eqb h h'
  | Jminus h, Jminus h' => hs_eqb h h'
  | Phase p h, Phase p' h' => scalar_eqb p p' && hs_eqb h h'
  | Displace p h, Displace p' h' => scalar_eqb p p' && hs_eqb h h'
  | Squeeze p h, Squeeze p' h' => scalar_eqb p p' && hs_eqb h h'
  | LocalSigma j k h, LocalSigma j' k' h' =>
      String.eqb j j' && String.eqb k k' && hs_eqb h h'
  | LocalProjector j h, LocalProjector j' h' => String.eqb j j' && hs_eqb h h'
  | OperatorPlus ops, OperatorPlus ops' =>
      (fix operands_equal (l1 l2 : list Operator) {struct l1} : bool :=
         match l1, l2 with
         | [], [] => true
         | a :: l1', b :: l2' => structurally_equal a b && operands_equal l1' l2'
         | _, _ => false
         end) ops ops'
  | OperatorTimes ops, OperatorTimes ops' =>
      (fix operands_equal (l1 l2 : list Operator) {struct l1} : bool :=
         match l1, l2 with
         | [], [] => true
         | a :: l1', b :: l2' => structurally_equal a b && operands_equal l1' l2'
         | _, _ => false
         end) ops ops'
  | ScalarTimesOperator c t, ScalarTimesOperator c' t' =>
      scalar_eqb c c' && structurally_equal t t'
  | Commutator a b, Commutator a' b' =>
      structurally_equal a a' && structurally_equal b b'
  | OperatorTrace o s, OperatorTrace o' s' =>
      structurally_equal o o' && hs_eqb s s'
  | Adjoint o, Adjoint o' => structurally_equal o o'
  | OperatorPlusMinusCC o s, OperatorPlusMinusCC o' s' =>
      structurally_equal o o' && Z.eqb s s'
  | PseudoInverse o, PseudoInverse o' => structurally_equal o o'
  | NullSpaceProjector o, NullSpaceProjector o' => structurally_equal o o'
  | OperatorIndexedSum t r, OperatorIndexedSum t' r' =>
      structurally_equal t t' && list_eqb range_eqb r r'
  | _, _ => false
  end.

(** [x == other] for an operator [x]: [ScalarTimesOperator.__eq__]
    compares the coefficient of a multiple of the identity with a scalar;
    every other class inherits the structural equality. *)
Definition Operator_eq (x : Operator) (other : Value) : bool :=
  match x, other with
  | ScalarTimesOperator coeff IdentityOperator, VScalar s => scalar_eqb coeff s
  | _, VOp y => structurally_equal x y
  | _, _ => false
  end.

(** [x.is_zero] *)
Definition is_zero (x : Operator) : bool := Operator_eq x (VOp _zero).

(** *** [_adjoint]

    The method of each class; [adjoint], [dag] and [conjugate] all call
    it. *)
Fixpoint adjoint `{Rules} (x : Operator) {struct x} : Operator :=
  match x with
  (** [QuantumSymbol._adjoint]: [self._adjoint_cls(self)] *)
  | OperatorSymbol _ _ => Adjoint x
  | IdentityOperator => x
  | ZeroOperator => x
  | Destroy hs => Create hs
  | Create hs => Destroy hs
  | Jz _ => x
  | Jplus hs => Jminus hs
  | Jminus hs => Jplus hs
  | Phase phi hs => Phase_create (scalar_neg (scalar_conjugate phi)) hs
  | Displace alpha hs => Displace_create (scalar_neg alpha) hs
  | Squeeze eta hs => Squeeze (scalar_neg eta) hs
  | LocalSigma j k hs => LocalSigma k j hs
  | LocalProjector _ _ => x
  (** [QuantumPlus._adjoint]: the constructor on the adjoints *)
  | OperatorPlus operands => OperatorPlus (map adjoint operands)
  (** [QuantumTimes._adjoint]: [create] on the adjoints of the reversed
      operands, written here as the reversed adjoints *)
  | OperatorTimes operands => OperatorTimes_create (rev (map adjoint operands))
  | ScalarTimesOperator coeff term =>
      ScalarTimesOperator (scalar_conjugate coeff) (adjoint term)
  | Commutator A B => Commutator (adjoint B) (adjoint A)
  | OperatorTrace _ _ => Adjoint x
  (** [QuantumAdjoint._adjoint]: [self.operand] *)
  | Adjoint op => op
  | OperatorPlusMinusCC op sign => OperatorPlusMinusCC (adjoint op) sign
  | PseudoInverse _ => Adjoint x
  | NullSpaceProjector _ => Adjoint x
  | OperatorIndexedSum term ranges =>
      OperatorIndexedSum_create (adjoint term) ranges
  end.

(** *** Arithmetic *)

Definition is_indexed_sum (x : Operator) : bool :=
  match x with
  | OperatorIndexedSum _ _ => true
  | _ => false
  end.

(** [QuantumExpression.__mul__] *)
Definition QuantumExpression___mul__ `{Rules} (self : Operator)
  (other : Value) : MethodResult :=
  match other with
  | VScalar s => Returns (ScalarTimesOperator_create s self)
  | VOp other => Returns (OperatorTimes_create [self; other])
  | VOther _ => NotImplemented
  end.

(** [QuantumExpression.__add__]: anything that is not an operator is first
    multiplied into the identity, a [TypeError] of that product being
    passed over. *)
Definition QuantumExpression___add__ `{Rules} (self : Operator)
  (other : Value) : MethodResult :=
  match other with
  | VScalar s =>
      Returns (OperatorPlus_create
                 [self; ScalarTimesOperator_create s _one])
  | VOp other => Returns (OperatorPlus_create [self; other])
  | VOther _ => NotImplemented
  end.

(** [type(self).__add__(self, other)]: [QuantumIndexedSum] overrides the
    method of [QuantumExpression]. *)
Definition Operator___add__ `{Rules} (self : Operator) (other : Value)
  : MethodResult :=
  if is_indexed_sum self then Raises NotImplementedError
  else QuantumExpression___add__ self other.

(** [__radd__]: [QuantumExpression.__radd__] is [self.__add__(other)]. *)
Definition Operator___radd__ `{Rules} (self : Operator) (other : Value)
  : MethodResult :=
  if is_indexed_sum self then Raises NotImplementedError
  else Operator___add__ self other.

(** [(-1) * other] for an operator [other]: the integer declines, and
    [other.__rmul__(-1)] multiplies the scalar in;
    [QuantumIndexedSum.__rmul__] instantiates
    [_scalar_times_expr_cls] directly. *)
Definition minus_one_times `{Rules} (other : Operator) : Operator :=
  if is_indexed_sum other then ScalarTimesOperator (complex (-1) 0) other
  else ScalarTimesOperator_create (complex (-1) 0) other.

(** How Python evaluates a binary operator: the method of the left operand
    is called; when it declines, the reflected method of the right
    operand; when that declines too, [TypeError].  The operands here are
    instances of concrete classes none of which derives from another, so
    the reflected method is never tried first. *)
Definition binary_operator (method : MethodResult)
  (reflected : MethodResult) : Outcome Value :=
  match method with
  | Returns v => Return (VOp v)
  | Raises e => Raise e
  | NotImplemented =>
      match reflected with
      | Returns v => Return (VOp v)
      | Raises e => Raise e
      | NotImplemented => Raise TypeError
      end
  end.

(** [a + b]; a number or a foreign value on the left declines an
    operator, and a foreign value declines everything. *)
Definition add `{Rules} (a b : Value) : Outcome Value :=
  match a, b with
  | VOp x, VOp y =>
      binary_operator (Operator___add__ x b) (Operator___radd__ y a)
  | VOp x, _ => binary_operator (Operator___add__ x b) NotImplemented
  | _, VOp y => binary_operator NotImplemented (Operator___radd__ y a)
  | VScalar s, VScalar t =>
      Return (VScalar (complex (re s + re t) (im s + im t)))
  | _, _ => Raise TypeError
  end.

(** [(-1) * other] *)
Definition minus_one_times_value `{Rules} (other : Value) : Outcome Value :=
  match other with
  | VScalar s => Return (VScalar (scalar_neg s))
  | VOp o => Return (VOp (minus_one_times o))
  | VOther _ => Raise TypeError
  end.

Definition as_method (r : Outcome Value) : MethodResult :=
  match r with
  | Return (VOp v) => Returns v
  | Return _ => Raises TypeError
  | Raise e => Raises e
  end.

(** [QuantumExpression.__sub__]: [self + (-1) * other]. *)
Definition QuantumExpression___sub__ `{Rules} (self : Operator)
  (other : Value) : MethodResult :=
  as_method (negated <- minus_one_times_value other ;;
             add (VOp self) negated).

(** [QuantumExpression.__rsub__]: [(-1) * self + other]. *)
Definition QuantumExpression___rsub__ `{Rules} (self : Operator)
  (other : Value) : MethodResult :=
  as_method (add (VOp (minus_one_times self)) other).

(** [type(self).__sub__] and [type(self).__rsub__]: [QuantumIndexedSum]
    overrides both. *)
Definition Operator___sub__ `{Rules} (self : Operator) (other : Value)
  : MethodResult :=
  if is_indexed_sum self then Raises NotImplementedError
  else QuantumExpression___sub__ self other.

Definition Operator___rsub__ `{Rules} (self : Operator) (other : Value)
  : MethodResult :=
  if is_indexed_sum self then Raises NotImplementedError
  else QuantumExpression___rsub__ self other.

(** [a - b] *)
Definition sub `{Rules} (a b : Value) : Outcome Value :=
  match a, b with
  | VOp x, VOp y =>
      binary_operator (Operator___sub__ x b) (Operator___rsub__ y a)
  | VOp x, _ => binary_operator (Operator___sub__ x b) NotImplemented
  | _, VOp y => binary_operator NotImplemented (Operator___rsub__ y a)
  | VScalar s, VScalar t =>
      Return (VScalar (complex (re s - re t) (im s - im t)))
  | _, _ => Raise TypeError
  end.

(** [a * b] for an operator [a] that is not an indexed sum and an operator
    or scalar [b]: [QuantumExpression.__mul__] does not decline these. *)
Definition mul `{Rules} (a : Operator) (b : Value) : Outcome Value :=
  binary_operator (QuantumExpression___mul__ a b) NotImplemented.

(** *** [space] *)

Fixpoint space `{Rules} (x : Operator) {struct x} : HilbertSpace :=
  match x with
  | OperatorSymbol _ hs => hs
  | IdentityOperator | ZeroOperator => TrivialSpace
  | Destroy hs | Create hs | Jz hs | Jplus hs | Jminus hs => hs
  | Phase _ hs | Displace _ hs | Squeeze _ hs => hs
  | LocalSigma _ _ hs | LocalProjector _ hs => hs
  (** [QuantumOperation]: the product of the spaces of the operands *)
  | OperatorPlus operands | OperatorTimes operands =>
      ProductSpace_create (map space operands)
  | ScalarTimesOperator _ term => space term
  | Commutator A B => ProductSpace_create [space A; space B]
  | OperatorTrace op over_space => space_quotient (space op) over_space
  | Adjoint op | OperatorPlusMinusCC op _ | PseudoInverse op
  | NullSpaceProjector op => ProductSpace_create [space op]
  | OperatorIndexedSum term _ => space term
  end.

(** *** [series_expand] *)

(** [v == 0 or v.is_zero] and [v == 1] for an entry of an expansion. *)
Definition coefficient_is_zero (v : Coefficient) : bool :=
  match v with
  | CScalar s => scalar_eqb s Zero
  | COp o => Operator_eq o (VScalar Zero) || is_zero o
  end.

Definition coefficient_is_one (v : Coefficient) : bool :=
  match v with
  | CScalar s => scalar_eqb s One
  | COp o => Operator_eq o (VScalar One)
  end.

(** The body of the loop of [series_expand]: the entry is replaced by the
    zero or the one of the algebra, and must then be an instance of
    [_base_cls]. *)
Definition type_stable (v : Coefficient) : Outcome Operator :=
  let v :=
    if coefficient_is_zero v then COp _zero
    else if coefficient_is_one v then COp _one
    else v in
  match v with
  | COp o => Return o
  | CScalar _ => Raise AssertionError
  end.

Fixpoint type_stable_all (expansion : list Coefficient)
  : Outcome (list Operator) :=
  match expansion with
  | [] => Return []
  | v :: expansion' =>
      o <- type_stable v ;;
      res <- type_stable_all expansion' ;;
      Return (o :: res)
  end.

(** [zip] of any number of tuples: it stops with the shortest. *)
Fixpoint heads {A : Type} (tuples : list (list A)) : option (list A) :=
  match tuples with
  | [] => Some []
  | [] :: _ => None
  | (x :: _) :: tuples' =>
      match heads tuples' with
      | Some xs => Some (x :: xs)
      | None => None
      end
  end.

Fixpoint zip_upto {A : Type} (n : nat) (tuples : list (list A))
  : list (list A) :=
  match n with
  | O => []
  | S n' =>
      match heads tuples with
      | Some xs => xs :: zip_upto n' (map (@tl A) tuples)
      | None => []
      end
  end.

Definition zip {A : Type} (tuples : list (list A)) : list (list A) :=
  match tuples with
  | [] => []
  | t :: _ => zip_upto (List.length t) tuples
  end.

(** [QuantumExpression._series_expand]: an expression is constant by
    default. *)
Definition constant_series_expand (self : Operator) (order : nat)
  : list Coefficient :=
  COp self :: repeat (CScalar Zero) order.

(** [[f(i) for i in range(start, start + count)]] *)
Fixpoint for_range_from {A : Type} (start count : nat)
  (f : nat -> Outcome A) : Outcome (list A) :=
  match count with
  | O => Return []
  | S count' =>
      v <- f start ;;
      vs <- for_range_from (S start) count' f ;;
      Return (v :: vs)
  end.

(** [[f(i) for i in range(n)]] *)
Definition for_range {A : Type} (n : nat) (f : nat -> Outcome A)
  : Outcome (list A) :=
  for_range_from 0 n f.

(** [series[i]] for an index that is not negative *)
Definition series_item (series : list Operator) (i : nat)
  : Outcome Operator :=
  match nth_error series i with
  | Some o => Return o
  | None => Raise IndexError
  end.

(** The loop of [Commutator._series_expand] over the orders, on the
    expansions of the two operands. *)
Definition Commutator_series `{Rules} (A_series B_series : list Operator)
  (order : nat) : Outcome (list Coefficient) :=
  for_range (order + 1) (fun n =>
    summands <-
      for_range (n + 1) (fun k =>
        a <- series_item A_series k ;;
        b <- series_item B_series (n - k) ;;
        Return (Commutator_create a b)) ;;
    Return (COp (OperatorPlus_create summands))).

(** [series_expand], with the [_series_expand] of the class of [x] in
    place. *)
Fixpoint series_expand `{Rules} (x : Operator) (param : string)
  (about : Scalar) (order : nat) {struct x} : Outcome (list Operator) :=
  expansion <-
    match x with
    (** [QuantumIndexedSum._series_expand] *)
    | OperatorIndexedSum _ _ => Raise NotImplementedError
    (** [SingleQuantumOperation._series_expand] *)
    | Adjoint operand | OperatorPlusMinusCC operand _ | PseudoInverse operand
    | NullSpaceProjector operand =>
        ope <- series_expand operand param about order ;;
        Return (map (fun opet => COp (adjoint opet)) ope)
    (** [QuantumPlus._series_expand] *)
    | OperatorPlus operands =>
        tuples <-
          (fix each (l : list Operator) : Outcome (list (list Operator)) :=
             match l with
             | [] => Return []
             | o :: l' =>
                 t <- series_expand o param about order ;;
                 ts <- each l' ;;
                 Return (t :: ts)
             end) operands ;;
        Return (map (fun tels => COp (OperatorPlus_create tels)) (zip tuples))
    (** [Commutator._series_expand] *)
    | Commutator A B =>
        A_series <- series_expand A param about order ;;
        B_series <- series_expand B param about order ;;
        Commutator_series A_series B_series order
    (** [OperatorTrace._series_expand] *)
    | OperatorTrace operand over_space =>
        ope <- series_expand operand param about order ;;
        Return (map (fun opet => COp (OperatorTrace_create opet over_space))
                  ope)
    | OperatorTimes _ | ScalarTimesOperator _ _ =>
        compound_series_expand x param about order
    (** [QuantumExpression._series_expand] *)
    | _ => Return (constant_series_expand x order)
    end ;;
  type_stable_all expansion.

(** [x._series_expand(param, about, order)] *)
Definition _series_expand `{Rules} (x : Operator) (param : string)
  (about : Scalar) (order : nat) : Outcome (list Coefficient) :=
  match x with
  | OperatorIndexedSum _ _ => Raise NotImplementedError
  | Adjoint operand | OperatorPlusMinusCC operand _ | PseudoInverse operand
  | NullSpaceProjector operand =>
      ope <- series_expand operand param about order ;;
      Return (map (fun opet => COp (adjoint opet)) ope)
  | OperatorPlus operands =>
      tuples <-
        (fix each (l : list Operator) : Outcome (list (list Operator)) :=
           match l with
           | [] => Return []
           | o :: l' =>
               t <- series_expand o param about order ;;
               ts <- each l' ;;
               Return (t :: ts)
           end) operands ;;
      Return (map (fun tels => COp (OperatorPlus_create tels)) (zip tuples))
  | Commutator A B =>
      A_series <- series_expand A param about order ;;
      B_series <- series_expand B param about order ;;
      Commutator_series A_series B_series order
  | OperatorTrace operand over_space =>
      ope <- series_expand operand param about order ;;
      Return (map (fun opet => COp (OperatorTrace_create opet over_space))
                ope)
  | OperatorTimes _ | ScalarTimesOperator _ _ =>
      compound_series_expand x param about order
  | _ => Return (constant_series_expand x order)
  end.

(** The classes that inherit [QuantumExpression._series_expand]. *)
Definition constant_by_default (x : Operator) : bool :=
  match x with
  | OperatorSymbol _ _ | IdentityOperator | ZeroOperator | Destroy _
  | Create _ | Jz _ | Jplus _ | Jminus _ | Phase _ _ | Displace _ _
  | Squeeze _ _ | LocalSigma _ _ _ | LocalProjector _ _ => true
  | _ => false
  end.

(** A coefficient of a result is type-stable: when it equals [0] or is
    zero it is the zero of the algebra, and when it equals [1] it is the
    one of the algebra. *)
Definition canonical (c : Operator) : Prop :=
  (Operator_eq c (VScalar Zero) || is_zero c = true -> c = _zero)
  /\ (Operator_eq c (VScalar One) = true -> c = _one).

(** An entry the loop accepts: an operator, or a scalar that is [0] or
    [1]. *)
Definition acceptable (v : Coefficient) : bool :=
  match v with
  | COp _ => true
  | CScalar s => scalar_eqb s Zero || scalar_eqb s One
  end.

(** *** [Sum] *)

(** [type(arg)] *)
Inductive PyType : Type :=
| type_int
| type_bool
| type_str
| type_NoneType
| type_LocalSpace
| type_ProductSpace
| type_list
| type_tuple.

Definition type_of (a : Arg) : PyType :=
  match a with
  | AInt _ => type_int
  | ABool _ => type_bool
  | AStr _ => type_str
  | ANone => type_NoneType
  | ALocalSpace _ => type_LocalSpace
  | AProductSpace _ => type_ProductSpace
  | AList _ => type_list
  | ATuple _ => type_tuple
  end.

Definition PyType_eq_dec (a b : PyType) : {a = b} + {a <> b}.
Proof. decide equality. Defined.

(** A Hilbert space as a Python value. *)
Definition space_value (hs : HilbertSpace) : Arg :=
  match hs with
  | [label] => ALocalSpace label
  | _ => AProductSpace hs
  end.

(** A function [f(term, idx, ...)]: the parameters after [idx], each with
    its default if it has one, and the body on the bound values. *)
Record RangeFunction `{Rules} : Type := {
  parameters : list (string * option Arg);
  body : Operator -> string -> list Arg -> Outcome IndexRange
}.

Definition _sum_over_list `{Rules} : RangeFunction := {|
  parameters := [("values", None)];
  body := fun term idx bound =>
    match bound with
    | [values] => Return (IndexOverList idx values)
    | _ => Raise TypeError
    end
|}.

Definition _sum_over_range `{Rules} : RangeFunction := {|
  parameters := [("start_from", None); ("to", None); ("step", Some (AInt 1))];
  body := fun term idx bound =>
    match bound with
    | [start_from; to; step] => Return (IndexOverRange idx start_from to step)
    | _ => Raise TypeError
    end
|}.

Definition _sum_over_fockspace `{Rules} : RangeFunction := {|
  parameters := [("hs", Some ANone)];
  body := fun term idx bound =>
    match bound with
    | [ANone] => Return (IndexOverFockSpace idx (space_value (space term)))
    | [hs] => Return (IndexOverFockSpace idx hs)
    | _ => Raise TypeError
    end
|}.

Fixpoint keyword {A : Type} (name : string) (kwargs : list (string * A))
  : option A :=
  match kwargs with
  | [] => None
  | (k, v) :: kwargs' =>
      if String.eqb k name then Some v else keyword name kwargs'
  end.

(** Binding the positional and keyword arguments of a call to the
    parameters: too many positional arguments, two values for one
    parameter and a missing argument are a [TypeError]. *)
Fixpoint bind_parameters (params : list (string * option Arg))
  (args : list Arg) (kwargs : list (string * Arg))
  : Outcome (list Arg) :=
  match params with
  | [] =>
      match args with
      | [] => Return []
      | _ :: _ => Raise TypeError
      end
  | (name, default) :: params' =>
      match args with
      | a :: args' =>
          match keyword name kwargs with
          | Some _ => Raise TypeError
          | None =>
              bound <- bind_parameters params' args' kwargs ;;
              Return (a :: bound)
          end
      | [] =>
          match keyword name kwargs, default with
          | Some v, _ =>
              bound <- bind_parameters params' [] kwargs ;;
              Return (v :: bound)
          | None, Some d =>
              bound <- bind_parameters params' [] kwargs ;;
              Return (d :: bound)
          | None, None => Raise TypeError
          end
      end
  end.

(** The call [f(term, idx, *args, **kwargs)]; a keyword that names no
    parameter after [idx] is a [TypeError]. *)
Definition call `{Rules} (f : RangeFunction) (term : Operator) (idx : string)
  (args : list Arg) (kwargs : list (string * Arg)) : Outcome IndexRange :=
  if forallb (fun kv => existsb (fun p => String.eqb (fst p) (fst kv))
                          (parameters f)) kwargs
  then bound <- bind_parameters (parameters f) args kwargs ;; body f term idx bound
  else Raise TypeError.

Definition dispatch_table `{Rules} : list (list PyType * RangeFunction) :=
  [([], _sum_over_fockspace);
   ([type_LocalSpace], _sum_over_fockspace);
   ([type_list], _sum_over_list);
   ([type_tuple], _sum_over_list);
   ([type_int], _sum_over_range);
   ([type_int; type_int], _sum_over_range);
   ([type_int; type_int; type_int], _sum_over_range)].

Fixpoint getitem {A : Type} (table : list (list PyType * A))
  (key : list PyType) : option A :=
  match table with
  | [] => None
  | (k, v) :: table' =>
      if list_eq_dec PyType_eq_dec k key then Some v else getitem table' key
  end.

(** [Sum(idx, *args, **kwargs)]: the instantiator for the term, or the
    [TypeError] of a key that is not in the table. *)
Definition Sum `{Rules} (idx : string) (args : list Arg)
  (kwargs : list (string * Arg)) : Outcome (Operator -> Outcome Operator) :=
  let key := map type_of args in
  match getitem dispatch_table key with
  | None => Raise TypeError
  | Some idx_range_func =>
      Return (fun term =>
                idx_range <- call idx_range_func term idx args kwargs ;;
                Return (OperatorIndexedSum_create term [idx_range]))
  end.

(** [Sum(idx, *args, **kwargs)(term)] *)
Definition Sum_of `{Rules} (idx : string) (args : list Arg)
  (kwargs : list (string * Arg)) (term : Operator) : Outcome Operator :=
  sum <- Sum idx args kwargs ;; sum term.

(** *** Expressions whose adjoint is formed by constructors alone

    The [_adjoint] of [x], and of every part of [x] it descends into,
    instantiates its result directly instead of calling a [create], and an
    [Adjoint] node in [x] is one that an [_adjoint] builds: around a
    symbol, a trace, a pseudo-inverse or a null-space projector. *)
Fixpoint constructor_adjoint (x : Operator) {struct x} : bool :=
  match x with
  | Phase _ _ | Displace _ _ | OperatorTimes _ | OperatorIndexedSum _ _ =>
      false
  | OperatorPlus operands => forallb constructor_adjoint operands
  | ScalarTimesOperator _ term => constructor_adjoint term
  | Commutator A B => constructor_adjoint A && constructor_adjoint B
  | OperatorPlusMinusCC op _ => constructor_adjoint op
  | Adjoint op =>
      match op with
      | OperatorSymbol _ _ | OperatorTrace _ _ | PseudoInverse _
      | NullSpaceProjector _ => true
      | _ => false
      end
  | _ => true
  end.

(** *** Sums and single-operand operations over constants

    [x] is built by sums of at least two operands and by single-operand
    operations from expressions that are constant by default and from
    indexed sums. *)
Fixpoint sum_of_constants (x : Operator) {struct x} : bool :=
  match x with
  | OperatorPlus operands =>
      (2 <=? List.length operands) && forallb sum_of_constants operands
  | Adjoint o | OperatorPlusMinusCC o _ | PseudoInverse o
  | NullSpaceProjector o => sum_of_constants o
  | OperatorIndexedSum _ _ => true
  | _ => constant_by_default x
  end.

(** An indexed sum is among the parts of [x] that are reached through
    sums and single-operand operations. *)
Fixpoint has_indexed_sum (x : Operator) {struct x} : bool :=
  match x with
  | OperatorIndexedSum _ _ => true
  | OperatorPlus operands => existsb has_indexed_sum operands
  | Adjoint o | OperatorPlusMinusCC o _ | PseudoInverse o
  | NullSpaceProjector o => has_indexed_sum o
  | _ => false
  end.

(** *** The expressions [series_expand] has a result for

    The expansion of a product or of a scalar multiple is the work of the
    scalar backend: it has [order + 1] entries, each an operator or a
    scalar [0] or [1]. *)
Definition backend_expands `{Rules} (param : string) (about : Scalar)
  (order : nat) (x : Operator) : bool :=
  match compound_series_expand x param about order with
  | Return expansion =>
      (List.length expansion =? order + 1) && forallb acceptable expansion
  | Raise _ => false
  end.

(** Among the parts of [x] that [series_expand] descends into there is no
    indexed sum, every sum has the two operands or more that
    [QuantumPlus.__init__] asks for, and the backend expands the products
    and the scalar multiples. *)
Fixpoint expandable `{Rules} (param : string) (about : Scalar) (order : nat)
  (x : Operator) {struct x} : bool :=
  match x with
  | OperatorIndexedSum _ _ => false
  | OperatorPlus operands =>
      (2 <=? List.length operands)
      && forallb (expandable param about order) operands
  | Adjoint o | OperatorPlusMinusCC o _ | PseudoInverse o
  | NullSpaceProjector o | OperatorTrace o _ =>
      expandable param about order o
  | Commutator A B =>
      expandable param about order A && expandable param about order B
  | OperatorTimes _ | ScalarTimesOperator _ _ =>
      backend_expands param about order x
  | _ => true
  end.

(** *** An operator plus or minus its complex conjugate

    The replacement callables of the rules [pmCC1] and [pmCC2] of
    [create_operator_pm_cc], and those of [pmCCexpand1] and [pmCCexpand2]
    of [expand_operator_pm_cc]: [lambda A: A + A.dag()] and
    [lambda A: A - A.dag()]. *)
Definition _combine_operator_p_cc `{Rules} (A B : Operator)
  : Replacement Operator :=
  if Operator_eq (adjoint B) (VOp A)
  then Replaced (OperatorPlusMinusCC A 1)
  else CannotSimplify.

Definition _combine_operator_m_cc `{Rules} (A B : Operator)
  : Replacement Operator :=
  if Operator_eq (adjoint B) (VOp A)
  then Replaced (OperatorPlusMinusCC A (-1))
  else CannotSimplify.

Definition pmCCexpand1 `{Rules} (A : Operator) : Outcome Value :=
  add (VOp A) (VOp (adjoint A)).

Definition pmCCexpand2 `{Rules} (A : Operator) : Outcome Value :=
  sub (VOp A) (VOp (adjoint A)).


(** The loop of [QuantumPlus._series_expand] over the operands, [expand]
    being [o.series_expand(param, about, order)]. *)
Definition series_expand_each
  (expand : Operator -> Outcome (list Operator))
  : list Operator -> Outcome (list (list Operator)) :=
  fix each (l : list Operator) : Outcome (list (list Operator)) :=
    match l with
    | [] => Return []
    | o :: l' =>
        t <- expand o ;;
        ts <- each l' ;;
        Return (t :: ts)
    end.


End Operators.

(** ** The operation classes [OperatorPlus] and [Commutator]

    The two classes as the simplification pipeline sees them.  The
    operands of a [create] call are operators and scalars.  The rule
    tables are the empty [OrderedDict()] of the class bodies, which a
    module outside the sources fills in: no pattern is matched here. *)

Module OperatorClasses.
Import Operators.

(** *** The order key

    [_order_key] is [KeyTuple([_order_index, _order_name or
    __class__.__name__, _order_coeff, _order_args, _order_kwargs])]. *)

(** [_order_index]: [0] by default, [1] for the subclasses of
    [QuantumOperation], [2] for [IdentityOperator] and [ZeroOperator];
    [ScalarTimesQuantumExpression._order_key] takes the first two
    components from the key of the term. *)
Fixpoint _order_index (x : Operator) {struct x} : nat :=
  match x with
  | IdentityOperator | ZeroOperator => 2
  | ScalarTimesOperator _ term => _order_index term
  | OperatorPlus _ | OperatorTimes _ | Commutator _ _ | OperatorTrace _ _
  | Adjoint _ | OperatorPlusMinusCC _ _ | PseudoInverse _
  | NullSpaceProjector _ | OperatorIndexedSum _ _ => 1
  | _ => 0
  end.

(** [_order_name or __class__.__name__]: no class sets [_order_name]. *)
Fixpoint order_key_name (x : Operator) {struct x} : string :=
  match x with
  | OperatorSymbol _ _ => "OperatorSymbol"
  | IdentityOperator => "IdentityOperator"
  | ZeroOperator => "ZeroOperator"
  | Destroy _ => "Destroy"
  | Create _ => "Create"
  | Jz _ => "Jz"
  | Jplus _ => "Jplus"
  | Jminus _ => "Jminus"
  | Phase _ _ => "Phase"
  | Displace _ _ => "Displace"
  | Squeeze _ _ => "Squeeze"
  | LocalSigma _ _ _ => "LocalSigma"
  | LocalProjector _ _ => "LocalProjector"
  | OperatorPlus _ => "OperatorPlus"
  | OperatorTimes _ => "OperatorTimes"
  | ScalarTimesOperator _ term => order_key_name term
  | Commutator _ _ => "Commutator"
  | OperatorTrace _ _ => "OperatorTrace"
  | Adjoint _ => "Adjoint"
  | OperatorPlusMinusCC _ _ => "OperatorPlusMinusCC"
  | PseudoInverse _ => "PseudoInverse"
  | NullSpaceProjector _ => "NullSpaceProjector"
  | OperatorIndexedSum _ _ => "OperatorIndexedSum"
  end.

(** Modelled from the spec: the order of two different spaces, whose
    classes are in [hilbert_space_algebra.py], not among the sources, is
    taken to be that of their labels. *)
Fixpoint labels_lt (a b : list string) {struct a} : bool :=
  match a, b with
  | _, [] => false
  | [], _ :: _ => true
  | x :: a', y :: b' =>
      String.ltb x y || (String.eqb x y && labels_lt a' b')
  end.

(** Modelled from the spec: the order key [FullCommutativeHSOrder] of
    [utils/ordering.py], which is not among the sources.  It "groups
    commuting same-space operands together before comparing": operands on
    different spaces are ordered by their spaces, operands on one space by
    their [_order_key], whose components are compared in turn: "an
    integer order group distinguishing atomic symbols/constants from
    compound operations (atoms sort before operations)", then "a string
    discriminator".  The components after these two hold the keys of
    scalars, labels and spaces, whose classes are not among the sources:
    operands that agree in space, order group and name are taken to have
    equal keys. *)
Definition FullCommutativeHSOrder_lt `{Rules} (a b : Operator) : bool :=
  if hs_eqb (space a) (space b) then
    (_order_index a <? _order_index b)
    || ((_order_index a =? _order_index b)
        && String.ltb (order_key_name a) (order_key_name b))
  else labels_lt (space a) (space b).

(** *** The operands of [create] *)

(** [a == b] *)
Definition value_eq (a b : Value) : bool :=
  match a, b with
  | VOp x, _ => Operator_eq x b
  | VScalar s, VScalar t => scalar_eqb s t
  | VScalar _, VOp y => Operator_eq y a
  | VOther m, VOther n => String.eqb m n
  | _, _ => false
  end.

(** [op.space], a scalar having [TrivialSpace] *)
Definition value_space `{Rules} (v : Value) : HilbertSpace :=
  match v with
  | VOp x => space x
  | _ => TrivialSpace
  end.

(** [hs.isdisjoint(other)]: the two spaces share no local factor. *)
Definition isdisjoint (hs other : HilbertSpace) : bool :=
  forallb (fun label => negb (existsb (String.eqb label) other)) hs.

Definition order_key_value_lt `{Rules} (a b : Value) : bool :=
  match a, b with
  | VOp x, VOp y => FullCommutativeHSOrder_lt x y
  | _, _ => false
  end.

#[export] Instance OperatorRuntime `{Rules} : Runtime := {|
  Expr := Value;
  Kwargs := list (string * Value);
  no_kwargs := [];
  py_eq := value_eq;
  Pattern := unit;
  MatchDict := bool;
  match_pattern := fun _ _ => false;
  success := fun matched => matched;
  is_scalar := fun v => match v with VScalar _ => true | _ => false end;
  scalar_times_identity := fun v =>
    match v with
    | VScalar s => VOp (ScalarTimesOperator_create s IdentityOperator)
    | _ => v
    end;
  ZeroOperator_ := VOp ZeroOperator;
  space_isdisjoint := fun a b => isdisjoint (value_space a) (value_space b);
  neg_one_times := fun v =>
    match v with
    | VOp x => VOp (minus_one_times x)
    | VScalar s => VScalar (scalar_neg s)
    | VOther _ => v
    end
|}.

(** The operators among the arguments of a constructor, [None] when one
    of them is no operator. *)
Fixpoint operators (args : list Value) : option (list Operator) :=
  match args with
  | [] => Some []
  | VOp x :: args' =>
      match operators args' with
      | Some xs => Some (x :: xs)
      | None => None
      end
  | _ :: _ => None
  end.

(** [isinstance(v, OperatorPlus)] and [v.operands] *)
Definition OperatorPlus_operands (v : Value) : option (list Value) :=
  match v with
  | VOp (OperatorPlus operands) => Some (map VOp operands)
  | _ => None
  end.

(** The constructor call of [OperatorPlus]: [QuantumPlus.__init__] raises [TypeError] for
    fewer than two operands, and [QuantumOperation.__init__] asserts that
    every operand is an operator. *)
Definition OperatorPlus_construct (args : list Value)
  (kwargs : list (string * Value)) : Outcome Value :=
  if List.length args <=? 1 then Raise TypeError
  else
    match operators args with
    | Some operands => Return (VOp (OperatorPlus operands))
    | None => Raise AssertionError
    end.

Definition OperatorPlus_class `{Rules} : @OperationClass OperatorRuntime := {|
  __name__ := "OperatorPlus";
  operands_of := OperatorPlus_operands;
  neutral_element := Some (VOp ZeroOperator);
  order_key_lt := order_key_value_lt;
  _rules := [];
  _binary_rules := [];
  _simplifications :=
    [Pass.assoc; Pass.scalars_to_op; Pass.orderby; Pass.filter_neutral;
     Pass.match_replace_binary];
  construct := OperatorPlus_construct
|}.

(** [isinstance(v, Commutator)] and [v.operands] *)
Definition Commutator_operands (v : Value) : option (list Value) :=
  match v with
  | VOp (Commutator A B) => Some [VOp A; VOp B]
  | _ => None
  end.

(** The constructor call of [Commutator]: [__init__(self, A, B)] takes
    two arguments and reads their attribute [space]. *)
Definition Commutator_construct (args : list Value)
  (kwargs : list (string * Value)) : Outcome Value :=
  match args, kwargs with
  | [VOp A; VOp B], [] => Return (VOp (Commutator A B))
  | [_; _], [] => Raise AttributeError
  | _, _ => Raise TypeError
  end.

Definition Commutator_class `{Rules} : @OperationClass OperatorRuntime := {|
  __name__ := "Commutator";
  operands_of := Commutator_operands;
  neutral_element := None;
  order_key_lt := order_key_value_lt;
  _rules := [];
  _binary_rules := [];
  _simplifications :=
    [Pass.scalars_to_op; Pass.disjunct_hs_zero; Pass.commutator_order;
     Pass.match_replace];
  construct := Commutator_construct
|}.

End OperatorClasses.

(** ** The pairs the rule of [Py.Plus] matches *)

Module PlusRule.
Import Py.

Definition both_symbols (x y : PyVal) : bool :=
  String.eqb (type_name x) "OperatorSymbol"
  && String.eqb (type_name y) "OperatorSymbol"
  && pyval_eqb x y.

End PlusRule.

(** ** [check_cdims]

    [cdim] is the attribute [o.cdim] of a circuit operand; the set
    comprehension keeps one of each value. *)

Section CircuitPasses.
Context `{RT : Runtime}.
Variable cdim : Expr -> nat.

Definition check_cdims (cls : OperationClass) (ops : list Expr)
  (kwargs : Kwargs) : Outcome Simplified :=
  if negb (List.length (nodup Nat.eq_dec (map cdim ops)) =? 1)
  then Raise ValueError
  else Return (Continue ops kwargs).

End CircuitPasses.

(** ** [LocalSigma]: the labels of a level flip operator

    [LocalSigma.__init__] for a Hilbert space [hs] that is a [LocalSpace]
    instance, which [LocalOperator.__init__] then accepts as it is.  The
    attributes of the space that the code reads are the fields of
    [LocalSpaceObject]. *)

Module Sigma.

(** A label [j] or [k]: an integer index, a string, a symbolic label, or a
    value of another type. *)
Inductive Label : Type :=
| LInt (z : Z)
| LStr (s : string)
| LSymbolic (name : string)
| LOther (type_name : string).

(** What a call does here: besides the exceptions of [Exception], a
    subscript out of range raises [IndexError]. *)
Inductive Result (A : Type) : Type :=
| Ok (a : A)
| Error (e : Exception)
| IndexError.

Arguments Ok {A} a.
Arguments Error {A} e.
Arguments IndexError {A}.

Definition and_then {A B : Type} (m : Result A) (k : A -> Result B)
  : Result B :=
  match m with
  | Ok a => k a
  | Error e => Error e
  | IndexError => IndexError
  end.

Record LocalSpaceObject : Type := {
  has_basis : bool;
  dimension : Z;
  basis_labels : list string;
  (** [hs._check_basis_label_type(jk)]: [None] when it returns, else the
      exception it raises *)
  _check_basis_label_type : Label -> option Exception
}.

(** An instance: the attributes [j], [k] and [space]. *)
Record LocalSigma : Type := {
  j : Label;
  k : Label;
  space : LocalSpaceObject
}.

(** [tuple[i]] for an index that is not negative. *)
Definition subscript (labels : list string) (i : Z) : Result string :=
  match nth_error labels (Z.to_nat i) with
  | Some label => Ok label
  | None => IndexError
  end.

(** One round of the loop of [__init__]: the label that is stored for
    [jk]. *)
Definition checked_label (hs : LocalSpaceObject) (jk : Label)
  : Result Label :=
  match _check_basis_label_type hs jk with
  | Some e => Error e
  | None =>
      match jk with
      | LStr _ =>
          if negb (has_basis hs) then Error ValueError else Ok jk
      | LInt z =>
          if Z.ltb z 0 then Error ValueError
          else if has_basis hs then
            if Z.leb (dimension hs) z then Error ValueError
            else and_then (subscript (basis_labels hs) z)
                   (fun label => Ok (LStr label))
          else Ok jk
      | LSymbolic _ => Ok jk
      | LOther _ => Error NotImplementedError
      end
  end.

(** [LocalSigma(j, k, hs=hs)] *)
Definition __init__ (j k : Label) (hs : LocalSpaceObject)
  : Result LocalSigma :=
  and_then (checked_label hs j) (fun j' =>
  and_then (checked_label hs k) (fun k' =>
  Ok {| j := j'; k := k'; space := hs |})).

(** [tuple.index(label)]: the position of the first occurrence, or
    [ValueError]. *)
Fixpoint index (labels : list string) (label : string) : Result Z :=
  match labels with
  | [] => Error ValueError
  | l :: labels' =>
      if String.eqb l label then Ok 0%Z
      else and_then (index labels' label) (fun i => Ok (i + 1)%Z)
  end.

(** The properties [index_j] and [index_k], on the stored label. *)
Definition index_of (hs : LocalSpaceObject) (jk : Label) : Result Label :=
  match jk with
  | LInt _ | LSymbolic _ => Ok jk
  | LStr label =>
      and_then (index (basis_labels hs) label) (fun i => Ok (LInt i))
  (** no value of another type is among the labels *)
  | LOther _ => Error ValueError
  end.

Definition index_j (self : LocalSigma) : Result Label :=
  index_of (space self) (j self).

Definition index_k (self : LocalSigma) : Result Label :=
  index_of (space self) (k self).

(** A two-level space with the basis [g], [e] that accepts every label. *)
Definition two_level : LocalSpaceObject := {|
  has_basis := true;
  dimension := 2;
  basis_labels := ["g"; "e"];
  _check_basis_label_type := fun _ => None
|}.

End Sigma.


(** ** Operands with the same order key *)

Section OrderVocabulary.
Context `{RT : Runtime}.

(** Neither of the two operands is smaller than the other. *)
Definition same_key (lt : Expr -> Expr -> bool) (a b : Expr) : bool :=
  negb (lt a b) && negb (lt b a).

End OrderVocabulary.


(** ** What [assoc] splices in *)

Section AssocVocabulary.
Context `{RT : Runtime}.

(** [flat] is [ops] with every operand of the class replaced, where it
    stands, by its operands, every other operand staying where it is. *)
Inductive spliced (cls : OperationClass) : list Expr -> list Expr -> Prop :=
| spliced_nil : spliced cls [] []
| spliced_keep (o : Expr) (ops flat : list Expr) :
    operands_of cls o = None ->
    spliced cls ops flat ->
    spliced cls (o :: ops) (o :: flat)
| spliced_expand (o : Expr) (operands ops flat : list Expr) :
    operands_of cls o = Some operands ->
    spliced cls ops flat ->
    spliced cls (o :: ops) (operands ++ flat).

End AssocVocabulary.

(* ================================================================== *)
(** * Part II: properties *)
(* ================================================================== *)

(** ** Rule-based rewriting: [match_replace] *)

Section MatchReplaceFacts.
Context `{RT : Runtime}.

Lemma match_replace_rules_skip (ops : list Expr) (kwargs : Kwargs)
  (pre post : list (string * Rule)) :
  Forall (rule_declines ops kwargs) pre ->
  match_replace_rules (pre ++ post) ops kwargs =
  match_replace_rules post ops kwargs.
Proof.
  induction 1 as [| [key [pat replacement]] pre Hd _ IH]; simpl; auto.
  destruct Hd as [Hd | Hd]; simpl in Hd; rewrite Hd; auto.
  destruct (success _); auto.
Qed.

(** C3.  [match_replace] tries the rules in insertion order: the rules
    that do not match or raise [CannotSimplify] are passed over, the first
    rule that matches and returns gives the result, and when every rule is
    passed over the pair [(ops, kwargs)] comes back unchanged. *)
Theorem match_replace_first_applicable_rule
  (cls : OperationClass) (ops : list Expr) (kwargs : Kwargs) :
  (forall pre rule post v,
      _rules cls = pre ++ rule :: post ->
      Forall (rule_declines ops kwargs) pre ->
      rule_gives ops kwargs rule v ->
      match_replace cls ops kwargs = Finished v)
  /\ (forall pre rule post,
         _rules cls = pre ++ rule :: post ->
         Forall (rule_declines ops kwargs) pre ->
         success (match_pattern (fst (snd rule)) (ops, kwargs)) = true ->
         snd (snd rule) (match_pattern (fst (snd rule)) (ops, kwargs))
         = CannotSimplify ->
         match_replace cls ops kwargs = match_replace_rules post ops kwargs)
  /\ (Forall (rule_declines ops kwargs) (_rules cls) ->
      match_replace cls ops kwargs = Continue ops kwargs).
Proof.
  unfold match_replace. repeat split.
  - intros pre [key [pat replacement]] post v -> Hpre [Hm Hr].
    rewrite match_replace_rules_skip by assumption.
    simpl in *. now rewrite Hm, Hr.
  - intros pre [key [pat replacement]] post -> Hpre Hm Hr.
    rewrite match_replace_rules_skip by assumption.
    simpl in *. now rewrite Hm, Hr.
  - intros Hall.
    rewrite <- (app_nil_r (_rules cls)).
    now rewrite match_replace_rules_skip.
Qed.

End MatchReplaceFacts.

(** The rule table of [Guarded] on [(1, 2)]: [r1] matches and declines,
    [r2] does not match, [r3] gives the second operand. *)
Lemma match_replace_first_applicable_rule_witness :
  match_replace Py.Guarded [Py.PInt 1; Py.PInt 2] []
  = @Finished Py.PyRuntime (Py.PInt 2).
Proof.
  refine (proj1 (match_replace_first_applicable_rule
                   Py.Guarded [Py.PInt 1; Py.PInt 2] [])
            [("r1", (Py.pattern_head [Py.wc "A"; Py.wc "B"],
                     Py.decline_unless_equal));
             ("r2", (Py.pattern_head [Py.wc "A"; Py.wc "B"; Py.wc "C"],
                     Py.lambda_A_A))]
            ("r3", (Py.pattern_head [Py.wc "A"; Py.wc "B"], Py.lambda_AB_B))
            [] (Py.PInt 2) _ _ _).
  - reflexivity.
  - constructor; [right; reflexivity |].
    constructor; [left; reflexivity | constructor].
  - split; reflexivity.
Defined.

(** ** Binary reduction: [match_replace_binary] *)

Section BinaryReducerFacts.
Context `{RT : Runtime}.

Lemma py_last_snoc (a : list Expr) (x : Expr) : py_last (a ++ [x]) = Some x.
Proof. unfold py_last. now rewrite rev_unit. Qed.

Lemma py_last_None (a : list Expr) : py_last a = None -> a = [].
Proof.
  destruct a as [| x a] using rev_ind; auto.
  now rewrite py_last_snoc.
Qed.

Lemma py_last_Some (a : list Expr) (x : Expr) :
  py_last a = Some x -> a = removelast a ++ [x].
Proof.
  destruct a as [| y a _] using rev_ind; [discriminate |].
  rewrite py_last_snoc, removelast_last. now intros [= ->].
Qed.

(** The three cases of the merge, at the boundary pair [x], [y]. *)
Lemma combine_neutral (fuel : nat) (cls : OperationClass) (c_n : Expr)
  (a b : list Expr) (x y r : Expr) :
  _get_binary_replacement x y cls = Some r ->
  py_eq r c_n = true ->
  _match_replace_binary_combine (S fuel) cls c_n (a ++ [x]) (y :: b)
  = _match_replace_binary_combine fuel cls c_n a b.
Proof.
  intros Hr Hn. simpl.
  now rewrite py_last_snoc, Hr, Hn, removelast_last.
Qed.

Lemma combine_replaced (fuel : nat) (cls : OperationClass) (c_n : Expr)
  (a b : list Expr) (x y r : Expr) :
  _get_binary_replacement x y cls = Some r ->
  py_eq r c_n = false ->
  _match_replace_binary_combine (S fuel) cls c_n (a ++ [x]) (y :: b)
  = match _match_replace_binary_combine fuel cls c_n a
            (replacement_operands cls r) with
    | None => None
    | Some merged => _match_replace_binary_combine fuel cls c_n merged b
    end.
Proof.
  intros Hr Hn. simpl.
  now rewrite py_last_snoc, Hr, Hn, removelast_last.
Qed.

Lemma combine_no_rule (fuel : nat) (cls : OperationClass) (c_n : Expr)
  (a b : list Expr) (x y : Expr) :
  _get_binary_replacement x y cls = None ->
  _match_replace_binary_combine (S fuel) cls c_n (a ++ [x]) (y :: b)
  = Some ((a ++ [x]) ++ y :: b).
Proof.
  intros Hr. simpl. now rewrite py_last_snoc, Hr.
Qed.

Lemma assoc_listed (cls : OperationClass) :
  In Pass.assoc (_simplifications cls) ->
  existsb (Pass.eqb Pass.assoc) (_simplifications cls) = true.
Proof.
  intros Hin. apply existsb_exists. now exists Pass.assoc.
Qed.

End BinaryReducerFacts.

(** ** Binary reduction against pairwise rewriting *)

Section ReductionFacts.
Context `{RT : Runtime}.
Variable cls : OperationClass.
Variable c_n : Expr.

Local Abbreviation step := (rewrites_to cls c_n).
Local Abbreviation steps := (reduces_to cls c_n).

(** *** Rewriting in context *)

Lemma step_app_l (u l l' : list Expr) : step l l' -> step (u ++ l) (u ++ l').
Proof.
  intros [l1 x y l2 r Hr].
  rewrite (app_assoc u l1 (x :: y :: l2)).
  rewrite (app_assoc u l1 (pair_result cls c_n r ++ l2)).
  now constructor.
Qed.

Lemma step_app_r (v l l' : list Expr) : step l l' -> step (l ++ v) (l' ++ v).
Proof.
  intros [l1 x y l2 r Hr].
  rewrite <- !app_assoc, <- !app_comm_cons.
  now constructor.
Qed.

Lemma steps_app_l (u l l' : list Expr) :
  steps l l' -> steps (u ++ l) (u ++ l').
Proof.
  induction 1 as [l l' H | l | l m l' _ IH1 _ IH2].
  - apply rt_step. now apply step_app_l.
  - apply rt_refl.
  - eapply rt_trans; eauto.
Qed.

Lemma steps_app_r (v l l' : list Expr) :
  steps l l' -> steps (l ++ v) (l' ++ v).
Proof.
  induction 1 as [l l' H | l | l m l' _ IH1 _ IH2].
  - apply rt_step. now apply step_app_r.
  - apply rt_refl.
  - eapply rt_trans; eauto.
Qed.

Lemma steps_app (a a' b b' : list Expr) :
  steps a a' -> steps b b' -> steps (a ++ b) (a' ++ b').
Proof.
  intros Ha Hb. apply rt_trans with (a' ++ b).
  - now apply steps_app_r.
  - now apply steps_app_l.
Qed.

(** *** Termination is inherited *)

Lemma terminating_step (l l' : list Expr) :
  terminating cls c_n l -> step l l' -> terminating cls c_n l'.
Proof. intros Hacc Hs. exact (Acc_inv Hacc Hs). Qed.

Lemma terminating_steps (l l' : list Expr) :
  steps l l' -> terminating cls c_n l -> terminating cls c_n l'.
Proof.
  induction 1; eauto using terminating_step.
Qed.

Lemma terminating_prefix (l v : list Expr) :
  terminating cls c_n (l ++ v) -> terminating cls c_n l.
Proof.
  intros Hacc. remember (l ++ v) as w eqn:Hw.
  revert l Hw. induction Hacc as [w _ IH]. intros l ->.
  constructor. intros l' Hs.
  apply (IH (l' ++ v)); [now apply step_app_r | reflexivity].
Qed.

Lemma terminating_suffix (u l : list Expr) :
  terminating cls c_n (u ++ l) -> terminating cls c_n l.
Proof.
  intros Hacc. remember (u ++ l) as w eqn:Hw.
  revert l Hw. induction Hacc as [w _ IH]. intros l ->.
  constructor. intros l' Hs.
  apply (IH (u ++ l')); [now apply step_app_l | reflexivity].
Qed.

(** *** Irreducible lists *)

Lemma irreducible_cons (x : Expr) (l : list Expr) :
  irreducible cls (x :: l) = true -> irreducible cls l = true.
Proof.
  simpl. destruct l as [| y l]; auto.
  destruct (_get_binary_replacement x y cls); [discriminate | auto].
Qed.

Lemma irreducible_app_inv (a b : list Expr) :
  irreducible cls (a ++ b) = true ->
  irreducible cls a = true /\ irreducible cls b = true.
Proof.
  induction a as [| x a IH]; [now auto |].
  intros H. pose proof (irreducible_cons _ _ H) as H'.
  destruct (IH H') as [Ha Hb]. split; [| exact Hb].
  destruct a as [| y a]; [reflexivity |].
  simpl in H |- *.
  destruct (_get_binary_replacement x y cls); [discriminate | exact Ha].
Qed.

Lemma irreducible_app (a b : list Expr) :
  irreducible cls a = true -> irreducible cls b = true ->
  (forall x y, py_last a = Some x -> hd_error b = Some y ->
               _get_binary_replacement x y cls = None) ->
  irreducible cls (a ++ b) = true.
Proof.
  induction a as [| x a IH]; [now auto |].
  intros Ha Hb Hxy.
  destruct a as [| y a].
  - simpl. destruct b as [| y b]; [reflexivity |].
    rewrite (Hxy x y); [exact Hb | reflexivity | reflexivity].
  - assert (Hrec : irreducible cls ((y :: a) ++ b) = true).
    { apply IH; [now apply irreducible_cons in Ha | exact Hb |].
      intros u w Hu Hw. apply Hxy; [| exact Hw].
      unfold py_last in *. simpl in *.
      destruct (rev a ++ [y]) eqn:E; simpl.
      - now destruct (rev a).
      - exact Hu. }
    simpl in Ha, Hrec |- *.
    destruct (_get_binary_replacement x y cls); [discriminate | exact Hrec].
Qed.

Lemma irreducible_no_step (l l' : list Expr) :
  irreducible cls l = true -> step l l' -> False.
Proof.
  intros Hl Hs. revert Hl.
  destruct Hs as [l1 x y l2 r Hr]. intros Hl.
  apply irreducible_app_inv in Hl as [_ Hl].
  simpl in Hl. now rewrite Hr in Hl.
Qed.

Lemma irreducible_steps (l l' : list Expr) :
  steps l l' -> irreducible cls l = true -> l' = l.
Proof.
  intros Hs. apply clos_rt_rt1n in Hs.
  induction Hs as [| l m l' H _ _]; [reflexivity |].
  intros Hl. now destruct (irreducible_no_step Hl H).
Qed.

(** *** More fuel does not change a result *)

Lemma combine_fuel_mono (fuel : nat) :
  forall a b res,
    _match_replace_binary_combine fuel cls c_n a b = Some res ->
    forall fuel', fuel <= fuel' ->
      _match_replace_binary_combine fuel' cls c_n a b = Some res.
Proof.
  induction fuel as [| fuel IH]; [discriminate |].
  intros a b res H [| fuel'] Hle; [lia |].
  assert (Hle' : fuel <= fuel') by lia.
  simpl in H |- *.
  destruct (py_last a) as [x |]; [| exact H].
  destruct b as [| y b]; [exact H |].
  destruct (_get_binary_replacement x y cls) as [r |]; [| exact H].
  destruct (py_eq r c_n).
  - now apply IH.
  - destruct (_match_replace_binary_combine fuel cls c_n (removelast a)
                (replacement_operands cls r)) as [m |] eqn:E; [| discriminate].
    rewrite (IH _ _ _ E fuel' Hle'). now apply IH.
Qed.

Lemma after_step (l l1 l2 : list Expr) :
  step l l1 -> steps l1 l2 ->
  clos_trans (list Expr) (fun l' l => step l l') l2 l.
Proof.
  intros Hs Hss. apply clos_rt_rtn1 in Hss.
  induction Hss as [| m l2 Hm _ IH].
  - now apply t_step.
  - eapply t_trans; [apply t_step; exact Hm | exact IH].
Qed.

Lemma replacement_operands_irreducible (x y r : Expr) :
  replacements_reduced cls ->
  _get_binary_replacement x y cls = Some r ->
  irreducible cls (replacement_operands cls r) = true.
Proof.
  intros Hred Hr. unfold replacement_operands.
  destruct (operands_of cls r) as [args |] eqn:E; [| reflexivity].
  exact (Hred x y r args Hr E).
Qed.

(** *** The merge of two reduced lists *)

Lemma combine_reduces :
  replacements_reduced cls ->
  forall l, terminating cls c_n l ->
  forall a b v, l = a ++ b ++ v ->
    irreducible cls a = true -> irreducible cls b = true ->
    exists fuel res,
      _match_replace_binary_combine fuel cls c_n a b = Some res
      /\ steps (a ++ b) res /\ irreducible cls res = true.
Proof.
  intros Hred l Hacc. apply Acc_clos_trans in Hacc.
  induction Hacc as [l _ IH]. intros a b v -> Ha Hb.
  destruct (py_last a) as [x |] eqn:Hlast.
  2:{ apply py_last_None in Hlast. subst a.
      exists 1, b. simpl. repeat split; auto. apply rt_refl. }
  destruct b as [| y b].
  { exists 1, (a ++ []). simpl. rewrite Hlast.
    repeat split; [apply rt_refl | now rewrite app_nil_r]. }
  pose proof (py_last_Some _ Hlast) as Ea.
  set (a' := removelast a) in *. clearbody a'. subst a. clear Hlast.
  pose proof (irreducible_app_inv _ _ Ha) as [Ha' _].
  pose proof (irreducible_cons _ _ Hb) as Hb'.
  destruct (_get_binary_replacement x y cls) as [r |] eqn:Hr.
  2:{ exists 1, ((a' ++ [x]) ++ y :: b).
      rewrite (combine_no_rule 0 cls c_n a' b x y Hr).
      repeat split; [apply rt_refl |].
      apply irreducible_app; auto.
      intros u w Hu [= <-]. rewrite py_last_snoc in Hu.
      now injection Hu as <-. }
  assert (Hstep : forall w,
             step ((a' ++ [x]) ++ (y :: b) ++ w)
                  (a' ++ pair_result cls c_n r ++ b ++ w)).
  { intros w. rewrite <- app_assoc. simpl. now constructor. }
  unfold pair_result in Hstep.
  destruct (py_eq r c_n) eqn:Hn.
  - destruct (IH (a' ++ b ++ v)) with (a := a') (b := b) (v := v)
      as (fuel & res & Hc & Hs & Hres); auto.
    { apply t_step. exact (Hstep v). }
    exists (S fuel), res.
    rewrite (combine_neutral fuel cls c_n a' b x y Hr Hn).
    repeat split; auto.
    eapply rt_trans; [apply rt_step | exact Hs].
    specialize (Hstep []). now rewrite !app_nil_r in Hstep.
  - set (rops := replacement_operands cls r) in *.
    assert (Hrops : irreducible cls rops = true)
      by (eapply replacement_operands_irreducible; eauto).
    destruct (IH (a' ++ rops ++ b ++ v)) with (a := a') (b := rops)
      (v := b ++ v) as (f1 & m & Hc1 & Hs1 & Hm); auto.
    { apply t_step. exact (Hstep v). }
    destruct (IH (m ++ b ++ v)) with (a := m) (b := b) (v := v)
      as (f2 & res & Hc2 & Hs2 & Hres); auto.
    { apply after_step with (a' ++ rops ++ b ++ v); [exact (Hstep v) |].
      rewrite (app_assoc a' rops). now apply steps_app_r. }
    exists (S (Nat.max f1 f2)), res.
    rewrite (combine_replaced _ cls c_n a' b x y Hr Hn).
    fold rops.
    rewrite (combine_fuel_mono _ _ Hc1 (fuel' := Nat.max f1 f2))
      by apply Nat.le_max_l.
    rewrite (combine_fuel_mono _ _ Hc2 (fuel' := Nat.max f1 f2))
      by apply Nat.le_max_r.
    repeat split; auto.
    eapply rt_trans; [apply rt_step | eapply rt_trans; [| exact Hs2]].
    + specialize (Hstep []). rewrite !app_nil_r in Hstep. exact Hstep.
    + rewrite (app_assoc a' rops). now apply steps_app_r.
Qed.

(** *** The divide-and-conquer reducer *)

Lemma binary_unfold (fuel : nat) (ops : list Expr) :
  _match_replace_binary (S fuel) cls c_n ops =
  if List.length ops <=? 1 then Some ops
  else
    match _match_replace_binary fuel cls c_n
            (firstn (List.length ops / 2) ops),
          _match_replace_binary fuel cls c_n
            (skipn (List.length ops / 2) ops) with
    | Some l, Some r => _match_replace_binary_combine fuel cls c_n l r
    | _, _ => None
    end.
Proof. reflexivity. Qed.

Lemma binary_fuel_mono (fuel : nat) :
  forall ops res,
    _match_replace_binary fuel cls c_n ops = Some res ->
    forall fuel', fuel <= fuel' ->
      _match_replace_binary fuel' cls c_n ops = Some res.
Proof.
  induction fuel as [| fuel IH]; [discriminate |].
  intros ops res H [| fuel'] Hle; [lia |].
  assert (Hle' : fuel <= fuel') by lia.
  rewrite binary_unfold in H |- *.
  destruct (List.length ops <=? 1); [exact H |].
  destruct (_match_replace_binary fuel cls c_n
              (firstn (List.length ops / 2) ops)) as [l |] eqn:El;
    [| discriminate H].
  destruct (_match_replace_binary fuel cls c_n
              (skipn (List.length ops / 2) ops)) as [r |] eqn:Er;
    [| discriminate H].
  rewrite (IH _ _ El fuel' Hle'), (IH _ _ Er fuel' Hle').
  now apply combine_fuel_mono with fuel.
Qed.

Lemma short_irreducible (ops : list Expr) :
  List.length ops <= 1 -> irreducible cls ops = true.
Proof.
  destruct ops as [| x [| y ops]]; simpl; auto. lia.
Qed.

Lemma half_bounds (n : nat) : 2 <= n -> 1 <= n / 2 /\ n / 2 < n.
Proof.
  intros Hn. split.
  - change 1 with (2 / 2). now apply Nat.Div0.div_le_mono.
  - apply Nat.div_lt; lia.
Qed.

Lemma binary_reduces :
  replacements_reduced cls ->
  forall n ops,
    List.length ops <= n -> terminating cls c_n ops ->
    exists fuel res,
      _match_replace_binary fuel cls c_n ops = Some res
      /\ steps ops res /\ irreducible cls res = true.
Proof.
  intros Hred n. induction n as [| n IH]; intros ops Hlen Hacc.
  - exists 1, ops. rewrite binary_unfold.
    replace (List.length ops <=? 1) with true
      by (symmetry; apply Nat.leb_le; lia).
    repeat split; [apply rt_refl | apply short_irreducible; lia].
  - destruct (Nat.leb_spec (List.length ops) 1) as [Hshort | Hlong].
    + exists 1, ops. rewrite binary_unfold.
      replace (List.length ops <=? 1) with true
        by (symmetry; now apply Nat.leb_le).
      repeat split; [apply rt_refl | now apply short_irreducible].
    + destruct (half_bounds (n := List.length ops)) as [Hk1 Hk2]; [lia |].
      set (k := List.length ops / 2) in *.
      assert (Hsplit : ops = firstn k ops ++ skipn k ops)
        by (symmetry; apply firstn_skipn).
      destruct (IH (firstn k ops)) as (fl & l & Hl & Hsl & Hil).
      { rewrite length_firstn. lia. }
      { apply terminating_prefix with (skipn k ops). now rewrite <- Hsplit. }
      destruct (IH (skipn k ops)) as (fr & r & Hr & Hsr & Hir).
      { rewrite length_skipn. lia. }
      { apply terminating_suffix with (firstn k ops). now rewrite <- Hsplit. }
      assert (Hboth : steps ops (l ++ r)).
      { rewrite Hsplit. now apply steps_app. }
      destruct (combine_reduces Hred (l := l ++ r)) with (a := l) (b := r)
        (v := @nil Expr) as (fc & res & Hc & Hsc & Hres); auto.
      { now apply terminating_steps with ops. }
      { now rewrite app_nil_r. }
      set (f := Nat.max fl (Nat.max fr fc)).
      exists (S f), res. rewrite binary_unfold. fold k.
      replace (List.length ops <=? 1) with false
        by (symmetry; apply Nat.leb_gt; lia).
      rewrite (binary_fuel_mono _ Hl (fuel' := f)) by (unfold f; lia).
      rewrite (binary_fuel_mono _ Hr (fuel' := f)) by (unfold f; lia).
      rewrite (combine_fuel_mono _ _ Hc (fuel' := f)) by (unfold f; lia).
      repeat split; auto.
      eapply rt_trans; eauto.
Qed.

(** *** The sequential reducer *)

Lemma rewrite_first_pair_unfold (x y : Expr) (rest : list Expr) :
  rewrite_first_pair cls c_n (x :: y :: rest) =
  match _get_binary_replacement x y cls with
  | Some r => Some (pair_result cls c_n r ++ rest)
  | None =>
      match rewrite_first_pair cls c_n (y :: rest) with
      | Some ops'' => Some (x :: ops'')
      | None => None
      end
  end.
Proof. reflexivity. Qed.

Lemma irreducible_unfold (x y : Expr) (rest : list Expr) :
  irreducible cls (x :: y :: rest) =
  match _get_binary_replacement x y cls with
  | None => irreducible cls (y :: rest)
  | Some _ => false
  end.
Proof. reflexivity. Qed.

Lemma rewrite_first_pair_step (ops ops' : list Expr) :
  rewrite_first_pair cls c_n ops = Some ops' -> step ops ops'.
Proof.
  revert ops'. induction ops as [| x ops IH]; [discriminate |].
  intros ops'. destruct ops as [| y rest]; [discriminate |].
  rewrite rewrite_first_pair_unfold.
  destruct (_get_binary_replacement x y cls) as [r |] eqn:Hr.
  - intros [= <-]. exact (@rewrite_pair _ cls c_n [] x y rest r Hr).
  - destruct (rewrite_first_pair cls c_n (y :: rest)) as [ops'' |];
      [| discriminate].
    intros [= <-]. apply (step_app_l [x]). now apply IH.
Qed.

Lemma rewrite_first_pair_None (ops : list Expr) :
  rewrite_first_pair cls c_n ops = None -> irreducible cls ops = true.
Proof.
  induction ops as [| x ops IH]; [reflexivity |].
  destruct ops as [| y rest]; [reflexivity |].
  rewrite rewrite_first_pair_unfold, irreducible_unfold.
  destruct (_get_binary_replacement x y cls) as [r |]; [discriminate |].
  destruct (rewrite_first_pair cls c_n (y :: rest)); [discriminate |].
  intros _. now apply IH.
Qed.

Lemma sequential_fuel_mono (fuel : nat) :
  forall ops res,
    reduce_pairwise_until_fixpoint fuel cls c_n ops = Some res ->
    forall fuel', fuel <= fuel' ->
      reduce_pairwise_until_fixpoint fuel' cls c_n ops = Some res.
Proof.
  induction fuel as [| fuel IH]; [discriminate |].
  intros ops res H [| fuel'] Hle; [lia |].
  simpl in H |- *.
  destruct (rewrite_first_pair cls c_n ops); [| exact H].
  apply IH with (fuel' := fuel') in H; [exact H | lia].
Qed.

Lemma sequential_reduces (ops : list Expr) :
  terminating cls c_n ops ->
  exists fuel res,
    reduce_pairwise_until_fixpoint fuel cls c_n ops = Some res
    /\ steps ops res /\ irreducible cls res = true.
Proof.
  induction 1 as [ops _ IH].
  destruct (rewrite_first_pair cls c_n ops) as [ops' |] eqn:E.
  - pose proof (rewrite_first_pair_step _ E) as Hs.
    destruct (IH ops' Hs) as (fuel & res & Hr & Hss & Hres).
    exists (S fuel), res. simpl. rewrite E.
    repeat split; auto.
    eapply rt_trans; [apply rt_step; exact Hs | exact Hss].
  - exists 1, ops. simpl. rewrite E.
    repeat split; [apply rt_refl | now apply rewrite_first_pair_None].
Qed.

(** *** What a result of the reducer is, whenever there is one *)

Lemma boundary_step (a' b : list Expr) (x y r : Expr) :
  _get_binary_replacement x y cls = Some r ->
  step ((a' ++ [x]) ++ y :: b) (a' ++ pair_result cls c_n r ++ b).
Proof.
  intros Hr. rewrite <- app_assoc. now constructor.
Qed.

Lemma combine_steps (fuel : nat) :
  forall a b res,
    _match_replace_binary_combine fuel cls c_n a b = Some res ->
    steps (a ++ b) res.
Proof.
  induction fuel as [| fuel IH]; [discriminate |].
  intros a b res H. simpl in H.
  destruct (py_last a) as [x |] eqn:Hlast;
    [| injection H as <-; apply rt_refl].
  destruct b as [| y b]; [injection H as <-; apply rt_refl |].
  destruct (_get_binary_replacement x y cls) as [r |] eqn:Hr;
    [| injection H as <-; apply rt_refl].
  pose proof (boundary_step (removelast a) b x y Hr) as Hs.
  rewrite <- (py_last_Some _ Hlast) in Hs. unfold pair_result in Hs.
  destruct (py_eq r c_n).
  - eapply rt_trans; [apply rt_step; exact Hs |]. now apply IH.
  - destruct (_match_replace_binary_combine fuel cls c_n (removelast a)
                (replacement_operands cls r)) as [m |] eqn:E; [| discriminate].
    eapply rt_trans; [apply rt_step; exact Hs |].
    eapply rt_trans; [| apply IH; exact H].
    rewrite app_assoc. apply steps_app_r. now apply IH.
Qed.

Lemma combine_keeps_irreducible (fuel : nat) :
  replacements_reduced cls ->
  forall a b res,
    _match_replace_binary_combine fuel cls c_n a b = Some res ->
    irreducible cls a = true -> irreducible cls b = true ->
    irreducible cls res = true.
Proof.
  intros Hred. induction fuel as [| fuel IH]; [discriminate |].
  intros a b res H Ha Hb. simpl in H.
  destruct (py_last a) as [x |] eqn:Hlast.
  2:{ injection H as <-. apply py_last_None in Hlast. now subst a. }
  destruct b as [| y b]; [injection H as <-; now rewrite app_nil_r |].
  pose proof (py_last_Some _ Hlast) as Ea.
  assert (Ha' : irreducible cls (removelast a) = true).
  { rewrite Ea in Ha. now apply irreducible_app_inv in Ha. }
  pose proof (irreducible_cons _ _ Hb) as Hb'.
  destruct (_get_binary_replacement x y cls) as [r |] eqn:Hr.
  2:{ injection H as <-. apply irreducible_app; auto.
      intros u w Hu [= <-]. rewrite Hlast in Hu. now injection Hu as <-. }
  destruct (py_eq r c_n).
  - now apply IH with (removelast a) b.
  - destruct (_match_replace_binary_combine fuel cls c_n (removelast a)
                (replacement_operands cls r)) as [m |] eqn:E; [| discriminate].
    apply IH with m b; auto.
    apply IH with (removelast a) (replacement_operands cls r); auto.
    eapply replacement_operands_irreducible; eauto.
Qed.

Lemma binary_steps (fuel : nat) :
  forall ops res,
    _match_replace_binary fuel cls c_n ops = Some res -> steps ops res.
Proof.
  induction fuel as [| fuel IH]; [discriminate |].
  intros ops res H. rewrite binary_unfold in H.
  destruct (List.length ops <=? 1); [injection H as <-; apply rt_refl |].
  destruct (_match_replace_binary fuel cls c_n
              (firstn (List.length ops / 2) ops)) as [l |] eqn:El;
    [| discriminate H].
  destruct (_match_replace_binary fuel cls c_n
              (skipn (List.length ops / 2) ops)) as [r |] eqn:Er;
    [| discriminate H].
  rewrite <- (firstn_skipn (List.length ops / 2) ops) at 1.
  eapply rt_trans; [apply steps_app; apply IH; eassumption |].
  now apply combine_steps with fuel.
Qed.

Lemma binary_result_irreducible (fuel : nat) :
  replacements_reduced cls ->
  forall ops res,
    _match_replace_binary fuel cls c_n ops = Some res ->
    irreducible cls res = true.
Proof.
  intros Hred. induction fuel as [| fuel IH]; [discriminate |].
  intros ops res H. rewrite binary_unfold in H.
  destruct (Nat.leb_spec (List.length ops) 1) as [Hshort | _].
  { injection H as <-. now apply short_irreducible. }
  destruct (_match_replace_binary fuel cls c_n
              (firstn (List.length ops / 2) ops)) as [l |] eqn:El;
    [| discriminate H].
  destruct (_match_replace_binary fuel cls c_n
              (skipn (List.length ops / 2) ops)) as [r |] eqn:Er;
    [| discriminate H].
  apply (combine_keeps_irreducible fuel Hred l r); eauto.
Qed.

End ReductionFacts.

(** ** What [match_replace_binary] returns *)

Section BinaryReducerReturns.
Context `{RT : Runtime}.

Lemma combine_empty (fuel : nat) (cls : OperationClass) (c_n : Expr)
  (a b : list Expr) :
  a = [] \/ b = [] ->
  _match_replace_binary_combine (S fuel) cls c_n a b = Some (a ++ b).
Proof.
  intros [-> | ->]; [reflexivity |].
  simpl. now destruct (py_last a).
Qed.


End BinaryReducerReturns.

(** C2, as the code has it.  When the binary rules are compatible with
    associativity on [ops] (rewriting adjacent pairs ends, and ends in the
    same list whatever the order) and replacements of the operation's own
    type carry reduced operands, the divide-and-conquer reducer returns the
    list that exhaustive sequential rewriting of adjacent pairs returns. *)
Theorem binary_reducer_agrees_with_pairwise_rewriting
  `{RT : Runtime} (cls : OperationClass) (c_n : Expr) (ops : list Expr) :
  replacements_reduced cls ->
  terminating cls c_n ops ->
  order_independent cls c_n ops ->
  exists fuel res,
    forall fuel', fuel <= fuel' ->
      _match_replace_binary fuel' cls c_n ops = Some res
      /\ reduce_pairwise_until_fixpoint fuel' cls c_n ops = Some res.
Proof.
  intros Hred Hterm Huniq.
  destruct (binary_reduces (c_n := c_n) Hred (n := List.length ops)
              (ops := ops)) as (f1 & res1 & H1 & Hs1 & Hi1); auto.
  destruct (sequential_reduces Hterm) as (f2 & res2 & H2 & Hs2 & Hi2).
  assert (res2 = res1) by (apply Huniq; assumption). subst res2.
  exists (Nat.max f1 f2), res1. intros fuel' Hle. split.
  - apply binary_fuel_mono with f1; [exact H1 | lia].
  - apply sequential_fuel_mono with f2; [exact H2 | lia].
Qed.

(** *** The rule table of [Chain]: the two reducers disagree *)

(** C2, as stated, fails: on [1, 2, 4] the divide-and-conquer reducer
    cancels [2, 4] in the right half and returns [1], while rewriting pairs
    in sequence replaces [1, 2] first and ends in [3, 4]. *)
Lemma binary_reducer_differs_on_Chain :
  _match_replace_binary 5 Py.Chain (Py.PInt 0)
    [Py.PInt 1; Py.PInt 2; Py.PInt 4] = Some [Py.PInt 1]
  /\ reduce_pairwise_until_fixpoint 5 Py.Chain (Py.PInt 0)
       [Py.PInt 1; Py.PInt 2; Py.PInt 4] = Some [Py.PInt 3; Py.PInt 4]
  /\ ~ (exists fuel res,
          _match_replace_binary fuel Py.Chain (Py.PInt 0)
            [Py.PInt 1; Py.PInt 2; Py.PInt 4] = Some res
          /\ reduce_pairwise_until_fixpoint fuel Py.Chain (Py.PInt 0)
               [Py.PInt 1; Py.PInt 2; Py.PInt 4] = Some res).
Proof.
  split; [reflexivity | split; [reflexivity |]].
  intros (fuel & res & Hb & Hs).
  apply binary_fuel_mono with (fuel' := Nat.max fuel 5) in Hb; [| lia].
  apply sequential_fuel_mono with (fuel' := Nat.max fuel 5) in Hs; [| lia].
  pose proof (@binary_fuel_mono Py.PyRuntime Py.Chain (Py.PInt 0) 5
                [Py.PInt 1; Py.PInt 2; Py.PInt 4] [Py.PInt 1] eq_refl
                (Nat.max fuel 5) (Nat.le_max_r fuel 5)) as Hb'.
  pose proof (@sequential_fuel_mono Py.PyRuntime Py.Chain (Py.PInt 0) 5
                [Py.PInt 1; Py.PInt 2; Py.PInt 4] [Py.PInt 3; Py.PInt 4]
                eq_refl (Nat.max fuel 5) (Nat.le_max_r fuel 5)) as Hs'.
  rewrite Hb' in Hb. rewrite Hs' in Hs. congruence.
Qed.

(** *** The rule table of [Cancel] is compatible with associativity *)

Module CancelFacts.
Import Py CancelNF.

Lemma Cancel_replacement (x y : PyVal) :
  _get_binary_replacement x y Cancel
  = if redex x y then Some (PInt 0) else None.
Proof.
  unfold _get_binary_replacement, redex. cbn -[pyval_eqb].
  unfold match_proto. cbn -[pyval_eqb].
  destruct (pyval_eqb (PInt 1) x); cbn -[pyval_eqb]; [| reflexivity].
  destruct (pyval_eqb (PInt (-1)) y); reflexivity.
Qed.

Lemma redex_left (x y : PyVal) : redex x y = true -> x = PInt 1.
Proof.
  unfold redex. intros H. apply andb_prop in H as [H _].
  destruct x as [z | |]; try discriminate.
  change (Z.eqb 1 z = true) in H. apply Z.eqb_eq in H. now subst.
Qed.

Lemma redex_not_twice (t x y : PyVal) :
  redex x y = true -> redex t x = false.
Proof.
  intros H. apply redex_left in H. subst x.
  unfold redex. apply andb_false_r.
Qed.

Lemma Cancel_step (l l' : list PyVal) :
  rewrites_to Cancel (PInt 0) l l' ->
  exists l1 x y l2,
    l = l1 ++ x :: y :: l2 /\ l' = l1 ++ l2 /\ redex x y = true.
Proof.
  intros [l1 x y l2 r Hr]. exists l1, x, y, l2.
  rewrite Cancel_replacement in Hr.
  destruct (redex x y); [| discriminate].
  injection Hr as <-. auto.
Qed.

Lemma Cancel_terminating (ops : list PyVal) :
  terminating Cancel (PInt 0) ops.
Proof.
  remember (List.length ops) as n eqn:Hn.
  revert ops Hn. induction n as [n IH] using lt_wf_ind. intros ops ->.
  constructor. intros l' Hs.
  apply Cancel_step in Hs as (l1 & x & y & l2 & -> & -> & _).
  apply (IH (List.length (l1 ++ l2))); [| reflexivity].
  rewrite !length_app. simpl. lia.
Qed.

Lemma Cancel_replacements_reduced : replacements_reduced Cancel.
Proof.
  intros x y r args Hr Hargs.
  rewrite Cancel_replacement in Hr.
  destruct (redex x y); [| discriminate].
  injection Hr as <-. discriminate.
Qed.

Lemma cancel_nf_step (x y : PyVal) (l2 : list PyVal) :
  redex x y = true ->
  forall l1 stack,
    cancel_nf stack (l1 ++ x :: y :: l2) = cancel_nf stack (l1 ++ l2).
Proof.
  intros Hxy. induction l1 as [| a l1 IH]; intros stack.
  - simpl. destruct stack as [| t stack'].
    + now rewrite Hxy.
    + now rewrite (@redex_not_twice t x y Hxy), Hxy.
  - simpl. destruct stack as [| t stack']; [apply IH |].
    destruct (redex t a); apply IH.
Qed.

Lemma cancel_nf_irreducible (n : list PyVal) :
  irreducible Cancel n = true ->
  forall stack,
    match stack, n with
    | t :: _, x :: _ => redex t x = false
    | _, _ => True
    end ->
    cancel_nf stack n = rev stack ++ n.
Proof.
  induction n as [| x n IH]; intros Hn stack Hb.
  - simpl. now rewrite app_nil_r.
  - assert (Hnext : match n with
                    | y :: _ => redex x y = false
                    | [] => True
                    end).
    { destruct n as [| y n]; [exact I |].
      rewrite (@irreducible_unfold PyRuntime), Cancel_replacement in Hn.
      now destruct (redex x y). }
    pose proof (@irreducible_cons PyRuntime _ _ _ Hn) as Hn'.
    simpl. destruct stack as [| t stack'].
    + rewrite IH; auto.
    + rewrite Hb. rewrite IH; auto.
      simpl. now rewrite <- !app_assoc.
Qed.

Lemma cancel_nf_steps (l l' : list PyVal) :
  reduces_to Cancel (PInt 0) l l' -> cancel_nf [] l = cancel_nf [] l'.
Proof.
  induction 1 as [l l' H | l | l m l' _ IH1 _ IH2].
  - apply Cancel_step in H as (l1 & x & y & l2 & -> & -> & Hxy).
    now apply cancel_nf_step.
  - reflexivity.
  - congruence.
Qed.

Lemma Cancel_order_independent (ops : list PyVal) :
  order_independent Cancel (PInt 0) ops.
Proof.
  intros n1 n2 H1 H2 Hi1 Hi2.
  apply cancel_nf_steps in H1, H2.
  rewrite (cancel_nf_irreducible _ Hi1 []) in H1 by (now destruct n1).
  rewrite (cancel_nf_irreducible _ Hi2 []) in H2 by (now destruct n2).
  simpl in H1, H2. congruence.
Qed.

End CancelFacts.



(** A list with nested cancelling pairs: both reducers return the one
    operand that is left. *)
Lemma binary_reducer_agrees_with_pairwise_rewriting_witness :
  exists fuel res,
    forall fuel', fuel <= fuel' ->
      _match_replace_binary fuel' Py.Cancel (Py.PInt 0)
        [Py.PInt 1; Py.PInt 1; Py.PInt (-1); Py.PInt (-1); Py.PInt 2]
      = Some res
      /\ reduce_pairwise_until_fixpoint fuel' Py.Cancel (Py.PInt 0)
           [Py.PInt 1; Py.PInt 1; Py.PInt (-1); Py.PInt (-1); Py.PInt 2]
         = Some res.
Proof.
  exact (binary_reducer_agrees_with_pairwise_rewriting
           CancelFacts.Cancel_replacements_reduced
           (CancelFacts.Cancel_terminating _)
           (@CancelFacts.Cancel_order_independent _)).
Defined.

(** ** The pipeline on operands that are already simplified *)

Section PipelineFacts.
Context `{RT : Runtime}.

Lemma run_simplifications_outcome
  (apply : Pass.t -> list Expr -> Kwargs -> Outcome Simplified)
  (construct_ : list Expr -> Kwargs -> Outcome Expr)
  (passes : list Pass.t) :
  forall args kwargs,
    run_simplifications apply construct_ passes args kwargs =
    (simplified <- simplifications_outcome apply passes args kwargs ;;
     match simplified with
     | Finished v => Return v
     | Continue args' kwargs' => construct_ args' kwargs'
     end).
Proof.
  induction passes as [| p passes IH]; intros args kwargs; [reflexivity |].
  simpl. destruct (apply p args kwargs) as [[args' kwargs' | v] | e];
    simpl; auto.
Qed.

Lemma assoc_flat (cls : OperationClass) (ops : list Expr) (kwargs : Kwargs) :
  forallb (fun o => match operands_of cls o with
                    | None => true
                    | Some _ => false
                    end) ops = true ->
  assoc cls ops kwargs = Continue ops kwargs.
Proof.
  intros H. unfold assoc. f_equal.
  induction ops as [| o ops IH]; [reflexivity |].
  simpl in H |- *. apply andb_prop in H as [Ho H].
  destruct (operands_of cls o); [discriminate |].
  simpl. now rewrite IH.
Qed.

Lemma scalars_to_op_none (cls : OperationClass) (ops : list Expr)
  (kwargs : Kwargs) :
  forallb (fun o => negb (is_scalar o)) ops = true ->
  scalars_to_op cls ops kwargs = Continue ops kwargs.
Proof.
  intros H. unfold scalars_to_op. f_equal.
  induction ops as [| o ops IH]; [reflexivity |].
  simpl in H |- *. apply andb_prop in H as [Ho H].
  destruct (is_scalar o); [discriminate |]. now rewrite IH.
Qed.

Lemma sorted_ordered (lt : Expr -> Expr -> bool) (ops : list Expr) :
  ordered_by lt ops = true -> sorted lt ops = ops.
Proof.
  induction ops as [| x ops IH]; [reflexivity |].
  intros H. unfold sorted in *. cbn [fold_right].
  destruct ops as [| y ops]; [reflexivity |].
  cbn [ordered_by] in H. apply andb_prop in H as [Hxy H].
  rewrite (IH H). cbn [insert_sorted].
  now destruct (lt y x).
Qed.

Lemma filter_neutral_none (cls : OperationClass) (c_n : Expr)
  (ops : list Expr) (kwargs : Kwargs) :
  neutral_element cls = Some c_n ->
  2 <= List.length ops ->
  forallb (fun o => negb (py_eq c_n o)) ops = true ->
  filter_neutral cls ops kwargs = Return (Continue ops kwargs).
Proof.
  intros Hn Hlen H. unfold filter_neutral. rewrite Hn.
  assert (Hf : filter (fun op => negb (py_eq c_n op)) ops = ops).
  { clear Hlen. induction ops as [| o ops IH]; [reflexivity |].
    simpl in H |- *. apply andb_prop in H as [Ho H].
    rewrite Ho. now rewrite IH. }
  rewrite Hf.
  destruct ops as [| x [| y ops]]; simpl in Hlen; try lia. reflexivity.
Qed.

Lemma combine_irreducible (fuel : nat) (cls : OperationClass) (c_n : Expr)
  (a b : list Expr) :
  irreducible cls (a ++ b) = true ->
  _match_replace_binary_combine (S fuel) cls c_n a b = Some (a ++ b).
Proof.
  intros H. simpl.
  destruct (py_last a) as [x |] eqn:Hlast; [| reflexivity].
  destruct b as [| y b]; [reflexivity |].
  rewrite (py_last_Some _ Hlast), <- app_assoc in H.
  apply irreducible_app_inv in H as [_ H].
  change ([x] ++ y :: b) with (x :: y :: b) in H.
  rewrite irreducible_unfold in H.
  now destruct (_get_binary_replacement x y cls).
Qed.

Lemma binary_irreducible (cls : OperationClass) (c_n : Expr) (fuel : nat) :
  forall ops,
    irreducible cls ops = true -> List.length ops < fuel ->
    _match_replace_binary fuel cls c_n ops = Some ops.
Proof.
  induction fuel as [| fuel IH]; intros ops Hirr Hlen; [lia |].
  rewrite binary_unfold.
  destruct (Nat.leb_spec (List.length ops) 1) as [Hshort | Hlong];
    [reflexivity |].
  destruct (half_bounds (n := List.length ops)) as [Hk1 Hk2]; [lia |].
  set (k := List.length ops / 2) in *.
  pose proof (firstn_skipn k ops) as Hsplit.
  rewrite <- Hsplit in Hirr.
  pose proof (irreducible_app_inv _ _ _ Hirr) as [Hl Hr].
  rewrite (IH _ Hl) by (rewrite length_firstn; lia).
  rewrite (IH _ Hr) by (rewrite length_skipn; lia).
  destruct fuel as [| fuel]; [lia |].
  rewrite (combine_irreducible _ _ _ _ _ Hirr). now rewrite Hsplit.
Qed.

(** For the pass sequences of [OperatorPlus] and [OperatorTimes], [create]
    on operands that are already simplified constructs the node on exactly
    these operands and keyword arguments. *)
Lemma create_on_simplified_operands
  (cls : OperationClass) (c_n : Expr) (ops : list Expr) (kwargs : Kwargs)
  (fuel : nat) :
  _simplifications cls = OperatorPlus_simplifications
  \/ _simplifications cls = OperatorTimes_simplifications ->
  neutral_element cls = Some c_n ->
  simplified_operands cls c_n ops = true ->
  List.length ops + 2 <= fuel ->
  create fuel cls ops kwargs = construct cls ops kwargs.
Proof.
  intros Hpasses Hn Hops Hfuel.
  unfold simplified_operands in Hops.
  apply andb_prop in Hops as [Hops Hirr].
  apply andb_prop in Hops as [Hlen Hcan].
  unfold canonical_operands in Hcan.
  apply andb_prop in Hcan as [Hcan Hneutral].
  apply andb_prop in Hcan as [Hcan Hord].
  apply andb_prop in Hcan as [Hflat Hscal].
  apply Nat.leb_le in Hlen.
  destruct fuel as [| fuel]; [lia |].
  assert (Hbin : match_replace_binary fuel cls ops kwargs
                 = Return (Continue ops kwargs)).
  { unfold match_replace_binary.
    replace (existsb (Pass.eqb Pass.assoc) (_simplifications cls)) with true
      by (now destruct Hpasses as [-> | ->]).
    rewrite Hn. simpl.
    rewrite binary_irreducible by (auto; lia).
    destruct ops as [| x [| y ops]]; simpl in Hlen; try lia. reflexivity. }
  cbn [create].
  destruct Hpasses as [-> | ->]; cbn [run_simplifications simplification
    OperatorPlus_simplifications OperatorTimes_simplifications].
  - rewrite assoc_flat by assumption. cbn [bind].
    rewrite scalars_to_op_none by assumption. cbn [bind].
    unfold orderby. rewrite sorted_ordered by assumption. cbn [bind].
    rewrite (filter_neutral_none _ _ kwargs Hn) by assumption. cbn [bind].
    rewrite Hbin. reflexivity.
  - rewrite assoc_flat by assumption. cbn [bind].
    unfold orderby. rewrite sorted_ordered by assumption. cbn [bind].
    rewrite (filter_neutral_none _ _ kwargs Hn) by assumption. cbn [bind].
    rewrite Hbin. reflexivity.
Qed.

(** *** What the pipeline of a sum hands to the constructor *)

Lemma forallb_insert_sorted (lt : Expr -> Expr -> bool) (Q : Expr -> bool)
  (x : Expr) (l : list Expr) :
  forallb Q (insert_sorted lt x l) = Q x && forallb Q l.
Proof.
  induction l as [| y l IH]; simpl; [reflexivity |].
  destruct (lt y x); simpl; [| reflexivity].
  rewrite IH. now rewrite !andb_assoc, (andb_comm (Q y)).
Qed.

Lemma forallb_sorted (lt : Expr -> Expr -> bool) (Q : Expr -> bool)
  (l : list Expr) :
  forallb Q (sorted lt l) = forallb Q l.
Proof.
  induction l as [| x l IH]; [reflexivity |].
  unfold sorted in *. cbn [fold_right forallb].
  rewrite forallb_insert_sorted. now rewrite IH.
Qed.

Lemma ordered_by_unfold (lt : Expr -> Expr -> bool) (x y : Expr)
  (l : list Expr) :
  ordered_by lt (x :: y :: l) = negb (lt y x) && ordered_by lt (y :: l).
Proof. reflexivity. Qed.

Lemma ordered_by_cons (lt : Expr -> Expr -> bool) (x : Expr) (l : list Expr) :
  ordered_by lt (x :: l) = true -> ordered_by lt l = true.
Proof.
  destruct l as [| y l]; [reflexivity |].
  cbn [ordered_by]. intros H. now apply andb_prop in H.
Qed.

Lemma ordered_insert_sorted (lt : Expr -> Expr -> bool) (x : Expr) :
  (forall a b, lt a b = true -> lt b a = false) ->
  forall l, ordered_by lt l = true -> ordered_by lt (insert_sorted lt x l) = true.
Proof.
  intros Hasym. induction l as [| y l IH]; [reflexivity |].
  intros Hl. cbn [insert_sorted].
  destruct (lt y x) eqn:Hyx.
  - pose proof (IH (ordered_by_cons _ _ _ Hl)) as Hrec.
    destruct l as [| z l].
    + cbn [insert_sorted ordered_by]. now rewrite (Hasym _ _ Hyx).
    + cbn [insert_sorted] in Hrec |- *.
      cbn [ordered_by] in Hl. apply andb_prop in Hl as [Hzy _].
      destruct (lt z x).
      * cbn [ordered_by] in Hrec |- *. now rewrite Hzy.
      * cbn [ordered_by] in Hrec |- *. now rewrite (Hasym _ _ Hyx).
  - cbn [ordered_by] in Hl |- *. now rewrite Hyx.
Qed.

Lemma ordered_sorted (lt : Expr -> Expr -> bool) (l : list Expr) :
  (forall a b, lt a b = true -> lt b a = false) ->
  ordered_by lt (sorted lt l) = true.
Proof.
  intros Hasym. induction l as [| x l IH]; [reflexivity |].
  unfold sorted in *. cbn [fold_right]. now apply ordered_insert_sorted.
Qed.

Lemma ordered_by_all (lt : Expr -> Expr -> bool) :
  (forall a b c, lt c a = true -> lt b a = true \/ lt c b = true) ->
  forall l x,
    ordered_by lt (x :: l) = true ->
    forallb (fun y => negb (lt y x)) l = true.
Proof.
  intros Hco. induction l as [| y l IH]; [reflexivity |].
  intros x Hl. cbn [ordered_by] in Hl. apply andb_prop in Hl as [Hyx Hl].
  cbn [forallb]. rewrite Hyx. cbn [andb].
  pose proof (IH y Hl) as Hy.
  apply forallb_forall. intros z Hz.
  rewrite forallb_forall in Hy. specialize (Hy z Hz).
  destruct (lt z x) eqn:Hzx; [| reflexivity].
  destruct (Hco _ y _ Hzx) as [H | H].
  - rewrite H in Hyx. discriminate.
  - rewrite H in Hy. discriminate.
Qed.

Lemma ordered_filter (lt : Expr -> Expr -> bool) (f : Expr -> bool) :
  (forall a b c, lt c a = true -> lt b a = true \/ lt c b = true) ->
  forall l, ordered_by lt l = true -> ordered_by lt (filter f l) = true.
Proof.
  intros Hco. induction l as [| x l IH]; [reflexivity |].
  intros Hl. pose proof (IH (ordered_by_cons _ _ _ Hl)) as Hrec.
  cbn [filter]. destruct (f x); [| exact Hrec].
  pose proof (ordered_by_all lt Hco _ _ Hl) as Hall.
  destruct (filter f l) as [| y l'] eqn:E; [reflexivity |].
  rewrite ordered_by_unfold, Hrec, andb_true_r.
  rewrite forallb_forall in Hall. apply Hall.
  apply (proj1 (filter_In f y l)). rewrite E. now left.
Qed.

Lemma ordered_remove (lt : Expr -> Expr -> bool) (x y : Expr)
  (l2 : list Expr) :
  (forall a b c, lt c a = true -> lt b a = true \/ lt c b = true) ->
  forall l1,
    ordered_by lt (l1 ++ x :: y :: l2) = true ->
    ordered_by lt (l1 ++ x :: l2) = true.
Proof.
  intros Hco. induction l1 as [| a l1 IH]; intros H.
  - cbn [app] in *.
    pose proof (ordered_by_all lt Hco _ _ H) as Hall.
    cbn [forallb] in Hall. apply andb_prop in Hall as [_ Hall].
    destruct l2 as [| z l2]; [reflexivity |].
    rewrite ordered_by_unfold.
    cbn [forallb] in Hall. apply andb_prop in Hall as [-> _].
    apply ordered_by_cons in H. now apply ordered_by_cons in H.
  - pose proof (IH (ordered_by_cons _ _ _ H)) as Hrec.
    destruct l1 as [| b l1]; cbn [app] in *;
      rewrite ordered_by_unfold in H |- *;
      apply andb_prop in H as [-> _]; exact Hrec.
Qed.

Lemma forallb_filter (Q f : Expr -> bool) (l : list Expr) :
  forallb Q l = true -> forallb Q (filter f l) = true.
Proof.
  rewrite !forallb_forall. intros H x Hx.
  apply H. now apply filter_In in Hx.
Qed.

Lemma forallb_filter_self (f : Expr -> bool) (l : list Expr) :
  forallb f (filter f l) = true.
Proof.
  apply forallb_forall. intros x Hx. now apply filter_In in Hx.
Qed.

Lemma assoc_nested_flat (cls : OperationClass) (args : list Expr) :
  nested_flat cls args ->
  forallb (fun o => match operands_of cls o with
                    | None => true
                    | Some _ => false
                    end)
    (List.concat
       (map (fun o => match operands_of cls o with
                      | None => [o]
                      | Some operands => operands
                      end) args)) = true.
Proof.
  intros Hflat. induction args as [| o args IH]; [reflexivity |].
  cbn [map List.concat]. rewrite forallb_app.
  rewrite IH by (intros o' ops Hin; apply Hflat; now right).
  rewrite andb_true_r.
  destruct (operands_of cls o) as [operands |] eqn:E.
  - apply (Hflat o operands); [now left | exact E].
  - cbn [forallb]. now rewrite E.
Qed.

Lemma scalars_to_op_canonical (cls : OperationClass) (ops : list Expr) :
  scalars_become_operators cls ->
  forallb (fun o => match operands_of cls o with
                    | None => true
                    | Some _ => false
                    end) ops = true ->
  let op_ops :=
    map (fun op => if is_scalar op then scalar_times_identity op else op)
      ops in
  forallb (fun o => match operands_of cls o with
                    | None => true
                    | Some _ => false
                    end) op_ops = true
  /\ forallb (fun o => negb (is_scalar o)) op_ops = true.
Proof.
  intros Hsc. induction ops as [| o ops IH]; [now split |].
  cbn [forallb map]. intros H. apply andb_prop in H as [Ho H].
  destruct (IH H) as [IH1 IH2]. cbn zeta in IH1, IH2.
  rewrite IH1, IH2, !andb_true_r.
  destruct (is_scalar o) eqn:E.
  - destruct (Hsc o E) as [-> ->]. now split.
  - rewrite E, Ho. now split.
Qed.

Lemma canonical_steps (cls : OperationClass) (c_n : Expr)
  (l l' : list Expr) :
  rules_keep_canonical cls c_n ->
  reduces_to cls c_n l l' ->
  canonical_operands cls c_n l = true ->
  canonical_operands cls c_n l' = true.
Proof.
  intros Hkeep Hs. induction Hs; eauto.
Qed.

Lemma filter_neutral_Continue (cls : OperationClass) (c_n : Expr)
  (ops fops : list Expr) (kwargs kwargs' : Kwargs) :
  neutral_element cls = Some c_n ->
  filter_neutral cls ops kwargs = Return (Continue fops kwargs') ->
  fops = filter (fun op => negb (py_eq c_n op)) ops
  /\ kwargs' = kwargs /\ 2 <= List.length fops.
Proof.
  intros Hn. unfold filter_neutral. rewrite Hn.
  destruct ops as [| op0 ops]; [discriminate |].
  destruct (filter (fun op => negb (py_eq c_n op)) (op0 :: ops))
    as [| a [| b rest]]; try discriminate.
  intros [= <- <-]. repeat split. simpl. lia.
Qed.

Lemma match_replace_binary_Continue (fuel : nat) (cls : OperationClass)
  (c_n : Expr) (ops res : list Expr) (kwargs kwargs' : Kwargs) :
  neutral_element cls = Some c_n ->
  match_replace_binary fuel cls ops kwargs = Return (Continue res kwargs') ->
  _match_replace_binary fuel cls c_n ops = Some res
  /\ kwargs' = kwargs /\ 2 <= List.length res.
Proof.
  intros Hn. unfold match_replace_binary. rewrite Hn.
  destruct (negb _); [discriminate |].
  destruct (_match_replace_binary fuel cls c_n ops) as [[| a [| b rest]] |];
    try discriminate.
  intros [= <- <-]. repeat split. simpl. lia.
Qed.

(** C4, as the code has it.  For a class with the pass sequence of
    [OperatorPlus], an order key that is a strict weak order, and binary
    rules that keep operands in canonical form and give reduced
    replacements: the operands the pipeline hands to the constructor are
    simplified, and [create] on them hands exactly them to the constructor
    again.  So the node [create] constructed is constructed again from its
    own arguments. *)
Theorem create_idempotent
  (cls : OperationClass) (c_n : Expr) (args : list Expr) (kwargs : Kwargs)
  (fuel : nat) (args' : list Expr) (kwargs' : Kwargs) :
  _simplifications cls = OperatorPlus_simplifications ->
  neutral_element cls = Some c_n ->
  strict_weak_order (order_key_lt cls) ->
  scalars_become_operators cls ->
  nested_flat cls args ->
  replacements_reduced cls ->
  rules_keep_canonical cls c_n ->
  simplifications_outcome
    (fun p => simplification fuel (create fuel) p cls)
    (_simplifications cls) args kwargs
  = Return (Continue args' kwargs') ->
  simplified_operands cls c_n args' = true
  /\ forall fuel',
       List.length args' + 2 <= fuel' ->
       create fuel' cls args' kwargs' = construct cls args' kwargs'.
Proof.
  intros Hpasses Hn [Hasym Hco] Hsc Hflat Hred Hkeep Hout.
  assert (Hsimplified : simplified_operands cls c_n args' = true).
  { rewrite Hpasses in Hout.
    cbn [simplifications_outcome simplification OperatorPlus_simplifications
           bind assoc scalars_to_op orderby] in Hout.
    unfold assoc, scalars_to_op, orderby in Hout. cbn [bind] in Hout.
    pose proof (@assoc_nested_flat cls args Hflat) as H1.
    set (ops1 := List.concat _) in *. clearbody ops1.
    destruct (@scalars_to_op_canonical cls ops1 Hsc H1) as [H2 H2'].
    cbn zeta in H2, H2'.
    set (ops2 := map _ ops1) in *. clearbody ops2.
    destruct (filter_neutral cls (sorted (order_key_lt cls) ops2) kwargs)
      as [[fops kw |] |] eqn:Ef; cbn [bind] in Hout; try discriminate.
    destruct (@filter_neutral_Continue cls c_n _ _ _ _ Hn Ef)
      as (Hfops & -> & _).
    destruct (match_replace_binary fuel cls fops kwargs)
      as [[res kw |] |] eqn:Eb; cbn [bind] in Hout; try discriminate.
    injection Hout as <- <-.
    destruct (@match_replace_binary_Continue fuel cls c_n _ _ _ _ Hn Eb)
      as (Hres & -> & Hlen).
    assert (Hcan : canonical_operands cls c_n fops = true).
    { unfold canonical_operands. subst fops.
      rewrite forallb_filter by (now rewrite forallb_sorted).
      rewrite forallb_filter by (now rewrite forallb_sorted).
      rewrite ordered_filter by (auto using ordered_sorted).
      now rewrite forallb_filter_self. }
    unfold simplified_operands.
    rewrite (@canonical_steps cls c_n _ _ Hkeep
               (@binary_steps _ cls c_n fuel _ _ Hres) Hcan).
    rewrite (@binary_result_irreducible _ cls c_n fuel Hred _ _ Hres).
    apply Nat.leb_le in Hlen. now rewrite Hlen. }
  split; [exact Hsimplified |].
  intros fuel' Hfuel.
  apply create_on_simplified_operands with c_n; auto.
Qed.

End PipelineFacts.

(** *** The sum [Py.Plus] meets the conditions *)

Module PlusFacts.
Import Py PlusRule.

Lemma Plus_replacement (x y : PyVal) :
  _get_binary_replacement x y Plus
  = if both_symbols x y then Some x else None.
Proof.
  unfold _get_binary_replacement, both_symbols.
  cbn -[pyval_eqb type_name String.eqb].
  unfold match_proto. cbn -[pyval_eqb type_name String.eqb].
  destruct (String.eqb (type_name x) "OperatorSymbol");
    cbn -[pyval_eqb type_name String.eqb]; [| reflexivity].
  destruct (String.eqb (type_name y) "OperatorSymbol");
    cbn -[pyval_eqb type_name String.eqb]; [| reflexivity].
  unfold bind_wildcard. cbn [lookup].
  change (String.eqb "A" "A") with true. cbv iota.
  destruct (pyval_eqb x y); reflexivity.
Qed.

Lemma symbol_not_Plus (x : PyVal) :
  String.eqb (type_name x) "OperatorSymbol" = true ->
  instance_operands "Plus" x = None
  /\ pyval_eqb x (PObj "ZeroOperator" [] []) = false.
Proof.
  destruct x as [z | s | cls args kwargs]; try discriminate.
  cbn [type_name]. intros H. apply String.eqb_eq in H. subst cls.
  split; reflexivity.
Qed.

Lemma Plus_pair_result (x y r : PyVal) :
  _get_binary_replacement x y Plus = Some r ->
  r = x /\ instance_operands "Plus" x = None
  /\ pair_result Plus (PObj "ZeroOperator" [] []) r = [x].
Proof.
  rewrite Plus_replacement. unfold both_symbols.
  destruct (String.eqb (type_name x) "OperatorSymbol") eqn:Hx;
    [| discriminate].
  destruct (String.eqb (type_name y) "OperatorSymbol"); [| discriminate].
  destruct (pyval_eqb x y); [| discriminate].
  intros [= <-]. destruct (symbol_not_Plus x Hx) as [Hnot Hzero].
  repeat split; [exact Hnot |].
  unfold pair_result, replacement_operands.
  change (@py_eq PyRuntime x (PObj "ZeroOperator" [] []))
    with (pyval_eqb x (PObj "ZeroOperator" [] [])).
  rewrite Hzero.
  change (operands_of Plus x) with (instance_operands "Plus" x).
  now rewrite Hnot.
Qed.

Lemma Plus_replacements_reduced : replacements_reduced Plus.
Proof.
  intros x y r args Hr Hargs.
  destruct (Plus_pair_result x y Hr) as (-> & Hnot & _).
  change (operands_of Plus x) with (instance_operands "Plus" x) in Hargs.
  congruence.
Qed.

Lemma Plus_strict_weak_order : strict_weak_order (order_key_lt Plus).
Proof.
  split; cbn [order_key_lt Plus]; unfold label_lt.
  - intros a b H. apply Z.ltb_lt in H. apply Z.ltb_ge. lia.
  - intros a b c H. apply Z.ltb_lt in H.
    destruct (Z.ltb_spec (order_number b) (order_number a)) as [Hba | Hba].
    + now left.
    + right. apply Z.ltb_lt. lia.
Qed.

Lemma Plus_scalars_become_operators : scalars_become_operators Plus.
Proof. intros o _. split; reflexivity. Qed.

Lemma forallb_remove (Q : PyVal -> bool) (l1 l2 : list PyVal) (x y : PyVal) :
  forallb Q (l1 ++ x :: y :: l2) = true ->
  forallb Q (l1 ++ x :: l2) = true.
Proof.
  rewrite !forallb_app. cbn [forallb]. intros H.
  apply andb_prop in H as [-> H]. apply andb_prop in H as [-> H].
  now apply andb_prop in H as [_ ->].
Qed.

Lemma Plus_rules_keep_canonical :
  rules_keep_canonical Plus (PObj "ZeroOperator" [] []).
Proof.
  intros l l' Hcan Hs. revert Hcan.
  destruct Hs as [l1 x y l2 r Hr]. intros Hcan.
  destruct (Plus_pair_result x y Hr) as (_ & _ & ->).
  cbn [app]. unfold canonical_operands in *.
  apply andb_prop in Hcan as [Hcan Hneutral].
  apply andb_prop in Hcan as [Hcan Hord].
  apply andb_prop in Hcan as [Hflat Hscal].
  apply andb_true_intro; split;
    [apply andb_true_intro; split; [apply andb_true_intro; split |] |].
  - exact (forallb_remove _ _ _ _ _ Hflat).
  - exact (forallb_remove _ _ _ _ _ Hscal).
  - exact (@ordered_remove PyRuntime (order_key_lt Plus) x y l2
             (proj2 Plus_strict_weak_order) l1 Hord).
  - exact (forallb_remove _ _ _ _ _ Hneutral).
Qed.

Lemma Plus_nested_flat :
  nested_flat Plus
    [PObj "Plus" [OperatorSymbol "B" 1; OperatorSymbol "A" 1] [];
     OperatorSymbol "B" 1; PInt 3].
Proof.
  intros o operands [<- | [<- | [<- | []]]] H;
    try discriminate H.
  injection H as <-. reflexivity.
Qed.

End PlusFacts.

(** [(B + A) + B + 3]: the pipeline hands [3 * 1, A, B] to the
    constructor, and [create] on these operands hands them to it again. *)
Lemma create_idempotent_witness :
  simplified_operands Py.Plus (Py.PObj "ZeroOperator" [] [])
    [Py.PObj "ScalarTimesOperator"
       [Py.PInt 3; Py.PObj "IdentityOperator" [] []] [];
     Py.OperatorSymbol "A" 1; Py.OperatorSymbol "B" 1] = true
  /\ forall fuel',
       3 + 2 <= fuel' ->
       create fuel' Py.Plus
         [Py.PObj "ScalarTimesOperator"
            [Py.PInt 3; Py.PObj "IdentityOperator" [] []] [];
          Py.OperatorSymbol "A" 1; Py.OperatorSymbol "B" 1] []
       = construct Py.Plus
           [Py.PObj "ScalarTimesOperator"
              [Py.PInt 3; Py.PObj "IdentityOperator" [] []] [];
            Py.OperatorSymbol "A" 1; Py.OperatorSymbol "B" 1] [].
Proof.
  exact (@create_idempotent Py.PyRuntime Py.Plus
           (Py.PObj "ZeroOperator" [] [])
           [Py.PObj "Plus"
              [Py.OperatorSymbol "B" 1; Py.OperatorSymbol "A" 1] [];
            Py.OperatorSymbol "B" 1; Py.PInt 3]
           [] 5
           [Py.PObj "ScalarTimesOperator"
              [Py.PInt 3; Py.PObj "IdentityOperator" [] []] [];
            Py.OperatorSymbol "A" 1; Py.OperatorSymbol "B" 1]
           [] eq_refl eq_refl
           PlusFacts.Plus_strict_weak_order
           PlusFacts.Plus_scalars_become_operators
           PlusFacts.Plus_nested_flat
           PlusFacts.Plus_replacements_reduced
           PlusFacts.Plus_rules_keep_canonical
           eq_refl).
Defined.

(** C4, as stated, fails for the class [FilterDupes] of the docstring of
    [match_replace_binary], whose pipeline reduces before it flattens:
    [FilterDupes.create(1, FilterDupes.create(1, 2))] is the node
    [FilterDupes(1, 1, 2)], and [create] on its arguments [(1, 1, 2)] gives
    [FilterDupes(1, 2)]. *)
Lemma create_not_idempotent_on_FilterDupes :
  create 5 Py.FilterDupes [Py.PInt 1; Py.PInt 2] []
  = Return (Py.PObj "FilterDupes" [Py.PInt 1; Py.PInt 2] [])
  /\ create 5 Py.FilterDupes
       [Py.PInt 1; Py.PObj "FilterDupes" [Py.PInt 1; Py.PInt 2] []] []
     = Return (Py.PObj "FilterDupes" [Py.PInt 1; Py.PInt 1; Py.PInt 2] [])
  /\ create 5 Py.FilterDupes [Py.PInt 1; Py.PInt 1; Py.PInt 2] []
     = Return (Py.PObj "FilterDupes" [Py.PInt 1; Py.PInt 2] [])
  /\ forall fuel,
       create fuel Py.FilterDupes [Py.PInt 1; Py.PInt 1; Py.PInt 2] []
       <> Return (Py.PObj "FilterDupes"
                    [Py.PInt 1; Py.PInt 1; Py.PInt 2] []).
Proof.
  repeat split; try reflexivity.
  intros fuel.
  do 5 (destruct fuel as [| fuel]; [vm_compute; discriminate |]).
  vm_compute. discriminate.
Qed.

(** ** The ordering of commutator arguments *)

Section CommutatorFacts.
Context `{RT : Runtime}.

Lemma match_replace_rules_Continue (rules : list (string * Rule))
  (ops ops' : list Expr) (kwargs kwargs' : Kwargs) :
  match_replace_rules rules ops kwargs = Continue ops' kwargs' ->
  ops' = ops /\ kwargs' = kwargs.
Proof.
  induction rules as [| [key [pat replacement]] rules IH]; simpl.
  - now intros [= <- <-].
  - destruct (success _); [| exact IH].
    destruct (replacement _); [discriminate | exact IH].
Qed.

Lemma create_unfold (fuel : nat) (cls : OperationClass) (args : list Expr)
  (kwargs : Kwargs) :
  create (S fuel) cls args kwargs =
  (simplified <- simplifications_outcome
                   (fun p => simplification fuel (create fuel) p cls)
                   (_simplifications cls) args kwargs ;;
   match simplified with
   | Finished v => Return v
   | Continue args' kwargs' => construct cls args' kwargs'
   end).
Proof. cbn [create]. apply run_simplifications_outcome. Qed.

(** C10.  For a class with the pass sequence of [Commutator] and operators
    [A], [B] on Hilbert spaces that are not disjoint, if [B] precedes [A]
    under the order key then [create(A, B)] returns
    [-1 * create(B, A)]; and the operands the pipeline hands to the
    constructor are always a pair whose second operand does not precede the
    first. *)
Theorem commutator_create_ordered (cls : OperationClass) :
  _simplifications cls = Commutator_simplifications ->
  (forall fuel A B kwargs,
      is_scalar A = false -> is_scalar B = false ->
      space_isdisjoint B A = false ->
      order_key_lt cls B A = true ->
      create (S fuel) cls [A; B] kwargs =
      (c <- create fuel cls [B; A] no_kwargs ;; Return (neg_one_times c)))
  /\ (forall fuel args kwargs args' kwargs',
         simplifications_outcome
           (fun p => simplification fuel (create fuel) p cls)
           (_simplifications cls) args kwargs
         = Return (Continue args' kwargs') ->
         exists A B, args' = [A; B] /\ order_key_lt cls B A = false).
Proof.
  intros Hpasses. split.
  - intros fuel A B kwargs HA HB Hdis Hlt.
    cbn [create]. rewrite Hpasses.
    cbn [Commutator_simplifications run_simplifications simplification].
    unfold scalars_to_op. cbn [map]. rewrite HA, HB. cbn [bind].
    unfold disjunct_hs_zero. cbn [disjunct_hs_zero_loop forallb app].
    rewrite Hdis. cbn [andb bind].
    unfold commutator_order. rewrite Hlt.
    destruct (create fuel cls [B; A] no_kwargs); reflexivity.
  - intros fuel args kwargs args' kwargs'. rewrite Hpasses.
    cbn [Commutator_simplifications simplifications_outcome simplification].
    unfold scalars_to_op. cbn [bind].
    set (ops := map _ args). clearbody ops.
    unfold disjunct_hs_zero.
    destruct (disjunct_hs_zero_loop [] ops); cbn [bind]; [discriminate |].
    unfold commutator_order.
    destruct ops as [| A [| B [| C ops]]]; cbn [bind]; try discriminate.
    destruct (order_key_lt cls B A) eqn:Hlt.
    + destruct (create fuel cls [B; A] no_kwargs); cbn [bind]; discriminate.
    + cbn [bind]. unfold match_replace.
      destruct (match_replace_rules (_rules cls) [A; B] kwargs)
        as [ops'' kwargs'' |] eqn:E; [| discriminate].
      apply match_replace_rules_Continue in E as [-> ->].
      intros [= <- <-]. now exists A, B.
Qed.

End CommutatorFacts.

(** The commutator of the symbols [B] and [A] on one space: [create]
    returns [-1 * Commutator(A, B)]. *)
Lemma commutator_create_ordered_witness :
  create 2 Py.Commutator
    [Py.OperatorSymbol "B" 1; Py.OperatorSymbol "A" 1] []
  = Return (Py.PObj "ScalarTimesOperator"
              [Py.PInt (-1);
               Py.PObj "Commutator"
                 [Py.OperatorSymbol "A" 1; Py.OperatorSymbol "B" 1] []] []).
Proof.
  etransitivity.
  - exact (proj1 (@commutator_create_ordered Py.PyRuntime Py.Commutator
                    eq_refl) 1
             (Py.OperatorSymbol "B" 1) (Py.OperatorSymbol "A" 1) []
             eq_refl eq_refl eq_refl eq_refl).
  - reflexivity.
Defined.

(** C10, as stated, fails for the nodes that the constructor builds
    without [create].  [Commutator.create(Destroy, PseudoInverse(X))], on
    one space, returns the node with these operands, the atom [Destroy]
    standing before the operation.  [Commutator._adjoint] calls the
    constructor on the adjoints in reversed order: in the node it returns
    the second operand, the atom [Create], precedes the first, and
    [create] on these two operands returns no such node but [-1] times
    the commutator with the operands exchanged. *)
Lemma commutator_adjoint_not_ordered :
  @create (@OperatorClasses.OperatorRuntime Operators.NoRules) 3
    (@OperatorClasses.Commutator_class Operators.NoRules)
    [Operators.VOp (Operators.Destroy (Operators.LocalSpace "1"));
     Operators.VOp
       (Operators.PseudoInverse
          (Operators.OperatorSymbol "X" (Operators.LocalSpace "1")))] []
  = Return
      (Operators.VOp
         (Operators.Commutator
            (Operators.Destroy (Operators.LocalSpace "1"))
            (Operators.PseudoInverse
               (Operators.OperatorSymbol "X" (Operators.LocalSpace "1")))))
  /\ @Operators.adjoint Operators.NoRules
       (Operators.Commutator
          (Operators.Destroy (Operators.LocalSpace "1"))
          (Operators.PseudoInverse
             (Operators.OperatorSymbol "X" (Operators.LocalSpace "1"))))
     = Operators.Commutator
         (Operators.Adjoint
            (Operators.PseudoInverse
               (Operators.OperatorSymbol "X" (Operators.LocalSpace "1"))))
         (Operators.Create (Operators.LocalSpace "1"))
  /\ OperatorClasses._order_index
       (Operators.Create (Operators.LocalSpace "1"))
     < OperatorClasses._order_index
         (Operators.Adjoint
            (Operators.PseudoInverse
               (Operators.OperatorSymbol "X" (Operators.LocalSpace "1"))))
  /\ @order_key_lt (@OperatorClasses.OperatorRuntime Operators.NoRules)
       (@OperatorClasses.Commutator_class Operators.NoRules)
       (Operators.VOp (Operators.Create (Operators.LocalSpace "1")))
       (Operators.VOp
          (Operators.Adjoint
             (Operators.PseudoInverse
                (Operators.OperatorSymbol "X" (Operators.LocalSpace "1")))))
     = true
  /\ @create (@OperatorClasses.OperatorRuntime Operators.NoRules) 3
       (@OperatorClasses.Commutator_class Operators.NoRules)
       [Operators.VOp
          (Operators.Adjoint
             (Operators.PseudoInverse
                (Operators.OperatorSymbol "X" (Operators.LocalSpace "1"))));
        Operators.VOp (Operators.Create (Operators.LocalSpace "1"))] []
     = Return
         (Operators.VOp
            (Operators.ScalarTimesOperator (Operators.complex (-1) 0)
               (Operators.Commutator
                  (Operators.Create (Operators.LocalSpace "1"))
                  (Operators.Adjoint
                     (Operators.PseudoInverse
                        (Operators.OperatorSymbol "X"
                           (Operators.LocalSpace "1"))))))).
Proof.
  split; [reflexivity |].
  split; [reflexivity |].
  split; [cbn; lia |].
  split; reflexivity.
Qed.

(** ** The operator algebra *)

Module OperatorFacts.
Import Operators.

Section Algebra.
Context `{R : Rules}.

(** *** Equality is reflexive *)

Lemma hs_eqb_refl (h : HilbertSpace) : hs_eqb h h = true.
Proof. unfold hs_eqb. now destruct (list_eq_dec string_dec h h). Qed.

Lemma scalar_eqb_refl (s : Scalar) : scalar_eqb s s = true.
Proof. unfold scalar_eqb. now rewrite !Z.eqb_refl. Qed.

Lemma arg_eqb_refl (a : Arg) : arg_eqb a a = true.
Proof.
  destruct a; simpl;
    rewrite ?Z.eqb_refl, ?String.eqb_refl, ?hs_eqb_refl; auto.
  - now destruct b.
  - unfold list_Z_eqb. now destruct (list_eq_dec Z.eq_dec items items).
  - unfold list_Z_eqb. now destruct (list_eq_dec Z.eq_dec items items).
Qed.

Lemma range_eqb_refl (r : IndexRange) : range_eqb r r = true.
Proof.
  destruct r; simpl; now rewrite String.eqb_refl, ?arg_eqb_refl.
Qed.

Lemma ranges_eqb_refl (rs : list IndexRange) : list_eqb range_eqb rs rs = true.
Proof.
  induction rs as [| r rs IH]; simpl; [reflexivity |].
  now rewrite range_eqb_refl, IH.
Qed.

Lemma structurally_equal_refl : forall x, structurally_equal x x = true.
Proof.
  fix IH 1. intros x.
  destruct x; simpl;
    rewrite ?String.eqb_refl, ?hs_eqb_refl, ?scalar_eqb_refl, ?Z.eqb_refl,
      ?ranges_eqb_refl, ?IH; try reflexivity.
  - induction operands as [| o operands IHl]; [reflexivity |].
    now rewrite IH, IHl.
  - induction operands as [| o operands IHl]; [reflexivity |].
    now rewrite IH, IHl.
Qed.

Lemma Operator_eq_refl (x : Operator) : Operator_eq x (VOp x) = true.
Proof.
  unfold Operator_eq.
  destruct x; try apply structurally_equal_refl.
  destruct x; apply structurally_equal_refl.
Qed.

(** *** Adjoints *)


(** *** Sums of indexed sums *)

(** C7.  For two indexed sums, [s1 + s2], [s2 + s1], [s1 - s2] and
    [s2 - s1] raise [NotImplementedError]; none returns a value. *)
Theorem indexed_sums_do_not_add
  (term1 term2 : Operator) (ranges1 ranges2 : list IndexRange) :
  let s1 := VOp (OperatorIndexedSum term1 ranges1) in
  let s2 := VOp (OperatorIndexedSum term2 ranges2) in
  add s1 s2 = Raise NotImplementedError
  /\ add s2 s1 = Raise NotImplementedError
  /\ sub s1 s2 = Raise NotImplementedError
  /\ sub s2 s1 = Raise NotImplementedError.
Proof. repeat split. Qed.

(** *** [is_zero] *)

Lemma structurally_equal_zero (x : Operator) :
  structurally_equal x ZeroOperator = true <-> x = ZeroOperator.
Proof.
  split; [| now intros ->].
  destruct x; simpl; intros H; try discriminate. reflexivity.
Qed.

(** C9.  [x.is_zero] is [x == x._zero]: it holds exactly for the zero of
    the algebra, which is not equal to the scalar zero. *)
Theorem is_zero_iff_zero_of_algebra :
  (forall x, is_zero x = Operator_eq x (VOp _zero))
  /\ (forall x, is_zero x = true <-> x = _zero)
  /\ is_zero ZeroOperator = true
  /\ Operator_eq ZeroOperator (VScalar Zero) = false.
Proof.
  repeat split.
  - unfold is_zero, Operator_eq, _zero.
    destruct x; try discriminate; try reflexivity.
    destruct x; discriminate.
  - now intros ->.
Qed.

(** *** Series expansions *)

Lemma series_expand_unfold (x : Operator) (param : string) (about : Scalar)
  (order : nat) :
  series_expand x param about order =
  (expansion <- _series_expand x param about order ;;
   type_stable_all expansion).
Proof. destruct x; reflexivity. Qed.

Lemma canonical_zero : canonical _zero.
Proof. split; [reflexivity | discriminate]. Qed.

Lemma canonical_one : canonical _one.
Proof. split; [discriminate | reflexivity]. Qed.

Lemma type_stable_acceptable (v : Coefficient) :
  acceptable v = true ->
  exists c, type_stable v = Return c /\ canonical c.
Proof.
  intros Hv. unfold type_stable.
  destruct (coefficient_is_zero v) eqn:Hz.
  { exists _zero. split; [reflexivity | apply canonical_zero]. }
  destruct (coefficient_is_one v) eqn:Ho.
  { exists _one. split; [reflexivity | apply canonical_one]. }
  destruct v as [s | o].
  - simpl in Hv, Hz, Ho. rewrite Hz, Ho in Hv. discriminate.
  - exists o. split; [reflexivity |].
    simpl in Hz, Ho. split; intros H.
    + rewrite Hz in H. discriminate.
    + rewrite Ho in H. discriminate.
Qed.

Lemma type_stable_all_acceptable (expansion : list Coefficient) :
  forallb acceptable expansion = true ->
  exists coeffs,
    type_stable_all expansion = Return coeffs
    /\ List.length coeffs = List.length expansion
    /\ Forall canonical coeffs.
Proof.
  induction expansion as [| v expansion IH]; intros Hall.
  - exists []. repeat split. constructor.
  - simpl in Hall. apply andb_prop in Hall as [Hv Hall].
    destruct (type_stable_acceptable v Hv) as (c & Hc & Hcan).
    destruct (IH Hall) as (coeffs & Hcs & Hlen & Hcans).
    exists (c :: coeffs). simpl. rewrite Hc, Hcs. simpl.
    repeat split; [now rewrite Hlen | now constructor].
Qed.

Lemma type_stable_all_length (expansion : list Coefficient) :
  forall coeffs,
    type_stable_all expansion = Return coeffs ->
    List.length coeffs = List.length expansion.
Proof.
  induction expansion as [| v expansion IH]; simpl; intros coeffs.
  - now intros [= <-].
  - destruct (type_stable v); [| discriminate]. simpl.
    destruct (type_stable_all expansion) as [res |]; [| discriminate].
    simpl. intros [= <-]. simpl. now rewrite (IH res).
Qed.

(** *** The instantiator [Sum] *)

Lemma getitem_None {A : Type} (table : list (list PyType * A))
  (key : list PyType) :
  ~ In key (map fst table) -> getitem table key = None.
Proof.
  induction table as [| [k v] table IH]; [reflexivity |].
  simpl. intros Hin.
  destruct (list_eq_dec PyType_eq_dec k key) as [-> | _].
  - exfalso. apply Hin. now left.
  - apply IH. intros H. apply Hin. now right.
Qed.

(** C8, as the code has it.  [Sum(idx, *args)(term)] dispatches on the
    types of [args]: no argument sums over the basis of the space of the
    term, a [LocalSpace] over the basis of that space, a list or a tuple
    over its values, two or three integers over the range with step 1 or
    the given step; one integer gives a range only together with the
    keyword [to] and else is a [TypeError] of the call; any other shape is
    a [TypeError] of [Sum] itself. *)
Theorem Sum_dispatch (idx : string) (term : Operator) :
  Sum_of idx [] [] term
  = Return (OperatorIndexedSum_create term
              [IndexOverFockSpace idx (space_value (space term))])
  /\ (forall label,
         Sum_of idx [ALocalSpace label] [] term
         = Return (OperatorIndexedSum_create term
                     [IndexOverFockSpace idx (ALocalSpace label)]))
  /\ (forall items,
         Sum_of idx [AList items] [] term
         = Return (OperatorIndexedSum_create term
                     [IndexOverList idx (AList items)]))
  /\ (forall items,
         Sum_of idx [ATuple items] [] term
         = Return (OperatorIndexedSum_create term
                     [IndexOverList idx (ATuple items)]))
  /\ (forall start stop,
         Sum_of idx [AInt start; AInt stop] [] term
         = Return (OperatorIndexedSum_create term
                     [IndexOverRange idx (AInt start) (AInt stop) (AInt 1)]))
  /\ (forall start stop step,
         Sum_of idx [AInt start; AInt stop; AInt step] [] term
         = Return (OperatorIndexedSum_create term
                     [IndexOverRange idx (AInt start) (AInt stop)
                        (AInt step)]))
  /\ (forall start stop,
         Sum_of idx [AInt start] [("to", AInt stop)] term
         = Return (OperatorIndexedSum_create term
                     [IndexOverRange idx (AInt start) (AInt stop) (AInt 1)]))
  /\ (forall start, Sum_of idx [AInt start] [] term = Raise TypeError)
  /\ (forall args kwargs,
         ~ In (map type_of args) (map fst dispatch_table) ->
         Sum_of idx args kwargs term = Raise TypeError).
Proof.
  repeat split.
  intros args kwargs Hin. unfold Sum_of, Sum.
  now rewrite (getitem_None _ _ Hin).
Qed.

End Algebra.




(** C8, as stated, fails for one integer: the call of [_sum_over_range]
    lacks its argument [to]. *)
Lemma Sum_of_one_integer_raises :
  @Sum_of NoRules "i" [AInt 5] [] (OperatorSymbol "A" (LocalSpace "1"))
  = Raise TypeError
  /\ forall s,
       @Sum_of NoRules "i" [AInt 5] []
         (OperatorSymbol "A" (LocalSpace "1"))
       <> Return s.
Proof. split; [reflexivity | discriminate]. Qed.

(** [Sum(i, 1, to=10)] of the docstring is [Sum(i, 1, 10)]. *)
Lemma Sum_dispatch_witness :
  @Sum_of NoRules "i" [AInt 1] [("to", AInt 10)]
    (OperatorSymbol "A" (LocalSpace "1"))
  = @Sum_of NoRules "i" [AInt 1; AInt 10] []
      (OperatorSymbol "A" (LocalSpace "1"))
  /\ @Sum_of NoRules "i" [AStr "x"] []
       (OperatorSymbol "A" (LocalSpace "1"))
     = Raise TypeError.
Proof.
  pose proof (@Sum_dispatch NoRules "i" (OperatorSymbol "A" (LocalSpace "1")))
    as (_ & _ & _ & _ & H2 & _ & H1 & _ & Hother).
  split.
  - now rewrite H1, H2.
  - apply Hother. simpl. intuition discriminate.
Defined.

End OperatorFacts.

(** ** The passes one by one *)

Section PassFacts.
Context `{RT : Runtime}.

(** *** [assoc] *)

Lemma assoc_spliced (cls : OperationClass) (ops : list Expr) :
  spliced cls ops
    (List.concat
       (map (fun o => match operands_of cls o with
                      | None => [o]
                      | Some operands => operands
                      end) ops)).
Proof.
  induction ops as [| o ops IH]; [constructor |].
  cbn [map List.concat].
  destruct (operands_of cls o) as [operands |] eqn:E.
  - now apply spliced_expand.
  - now apply spliced_keep.
Qed.

Lemma spliced_unique (cls : OperationClass) (ops flat : list Expr) :
  spliced cls ops flat ->
  forall flat', spliced cls ops flat' -> flat' = flat.
Proof.
  induction 1 as [| o ops flat Ho _ IH | o operands ops flat Ho _ IH];
    intros flat' H'; inversion H'; subst; try congruence.
  - f_equal. now apply IH.
  - assert (operands0 = operands) by congruence. subst.
    f_equal. now apply IH.
Qed.


(** *** [orderby] *)

Lemma insert_sorted_permutation (lt : Expr -> Expr -> bool) (x : Expr)
  (l : list Expr) :
  Permutation (x :: l) (insert_sorted lt x l).
Proof.
  induction l as [| y l IH]; cbn [insert_sorted]; [reflexivity |].
  destruct (lt y x); [| reflexivity].
  etransitivity; [apply perm_swap | apply perm_skip, IH].
Qed.

Lemma sorted_permutation (lt : Expr -> Expr -> bool) (l : list Expr) :
  Permutation l (sorted lt l).
Proof.
  induction l as [| x l IH]; [constructor |].
  unfold sorted in *. cbn [fold_right].
  etransitivity; [apply perm_skip, IH | apply insert_sorted_permutation].
Qed.

Lemma insert_sorted_stable (lt : Expr -> Expr -> bool) (z x : Expr)
  (l : list Expr) :
  strict_weak_order lt ->
  filter (same_key lt z) (insert_sorted lt x l)
  = filter (same_key lt z) (x :: l).
Proof.
  intros [Hasym Hco]. induction l as [| y l IH]; [reflexivity |].
  cbn [insert_sorted]. destruct (lt y x) eqn:Hyx; [| reflexivity].
  cbn [filter] in IH |- *. rewrite IH.
  destruct (same_key lt z y) eqn:Ey, (same_key lt z x) eqn:Ex;
    try reflexivity.
  exfalso. unfold same_key in Ey, Ex.
  apply andb_prop in Ey as [_ Hyz]. apply andb_prop in Ex as [Hzx _].
  apply negb_true_iff in Hyz, Hzx.
  destruct (Hco x z y Hyx); congruence.
Qed.

Lemma sorted_stable (lt : Expr -> Expr -> bool) (z : Expr) (l : list Expr) :
  strict_weak_order lt ->
  filter (same_key lt z) (sorted lt l) = filter (same_key lt z) l.
Proof.
  intros Hswo. induction l as [| x l IH]; [reflexivity |].
  unfold sorted in *. cbn [fold_right].
  rewrite (insert_sorted_stable z x _ Hswo). cbn [filter]. now rewrite IH.
Qed.

(** X2.  When the order key gives a strict weak order, [orderby] hands on
    a rearrangement of the operands in which no operand is smaller than
    the one before it, operands with the same key keeping the order they
    came in, and [kwargs] unchanged; ordering the result again changes
    nothing. *)
Theorem orderby_sorts (cls : OperationClass) (ops : list Expr)
  (kwargs : Kwargs) :
  strict_weak_order (order_key_lt cls) ->
  exists ops',
    orderby cls ops kwargs = Continue ops' kwargs
    /\ Permutation ops ops'
    /\ ordered_by (order_key_lt cls) ops' = true
    /\ (forall z,
           filter (same_key (order_key_lt cls) z) ops'
           = filter (same_key (order_key_lt cls) z) ops)
    /\ orderby cls ops' kwargs = Continue ops' kwargs.
Proof.
  intros Hswo. exists (sorted (order_key_lt cls) ops).
  pose proof (ordered_sorted (order_key_lt cls) ops (proj1 Hswo)) as Hord.
  repeat split.
  - apply sorted_permutation.
  - exact Hord.
  - intros z. now apply sorted_stable.
  - unfold orderby. now rewrite (sorted_ordered _ _ Hord).
Qed.

(** *** [filter_neutral] *)

(** X3.  For a class with a neutral element [filter_neutral] never raises.
    What it hands on is the operand list without the operands equal to the
    neutral element, has at least two operands, comes with the [kwargs] it
    was given, and is left as it is by [filter_neutral]; otherwise it
    finishes with the neutral element (no operand at all) or with one of
    the operands (at most one operand differs from the neutral
    element). *)
Theorem filter_neutral_outcomes (cls : OperationClass) (c_n : Expr)
  (ops : list Expr) (kwargs : Kwargs) :
  neutral_element cls = Some c_n ->
  exists simplified,
    filter_neutral cls ops kwargs = Return simplified
    /\ match simplified with
       | Continue fops kwargs' =>
           fops = filter (fun op => negb (py_eq c_n op)) ops
           /\ kwargs' = kwargs
           /\ 2 <= List.length fops
           /\ forallb (fun op => negb (py_eq c_n op)) fops = true
           /\ filter_neutral cls fops kwargs = Return (Continue fops kwargs)
       | Finished v =>
           List.length (filter (fun op => negb (py_eq c_n op)) ops) <= 1
           /\ ((ops = [] /\ v = c_n) \/ In v ops)
       end.
Proof.
  intros Hn. unfold filter_neutral at 1. rewrite Hn.
  destruct ops as [| op0 ops].
  { eexists. split; [reflexivity |]. cbn. split; [lia | now left]. }
  destruct (filter (fun op => negb (py_eq c_n op)) (op0 :: ops))
    as [| a [| b rest]] eqn:E.
  - eexists. split; [reflexivity |]. cbn [List.length].
    split; [lia | right; now left].
  - eexists. split; [reflexivity |]. cbn [List.length].
    split; [lia | right].
    assert (Ha : In a (filter (fun op => negb (py_eq c_n op)) (op0 :: ops)))
      by (rewrite E; now left).
    now apply filter_In in Ha.
  - eexists. split; [reflexivity |].
    assert (Hall : forallb (fun op => negb (py_eq c_n op)) (a :: b :: rest)
                   = true)
      by (rewrite <- E; apply forallb_filter_self).
    repeat split.
    + cbn [List.length]. lia.
    + exact Hall.
    + apply filter_neutral_none with c_n; [exact Hn | | exact Hall].
      cbn [List.length]. lia.
Qed.

(** *** [match_replace_binary] *)

(** X4.  On operands none of whose adjacent pairs has a binary
    replacement, [match_replace_binary] changes nothing: it hands on the
    operands as they are, or finishes with the only operand, or with the
    neutral element when there is no operand. *)
Theorem match_replace_binary_keeps_irreducible (cls : OperationClass)
  (c_n : Expr) (ops : list Expr) (kwargs : Kwargs) (fuel : nat) :
  In Pass.assoc (_simplifications cls) ->
  neutral_element cls = Some c_n ->
  irreducible cls ops = true ->
  List.length ops < fuel ->
  match_replace_binary fuel cls ops kwargs
  = Return (match ops with
            | [] => Finished c_n
            | [op] => Finished op
            | _ => Continue ops kwargs
            end).
Proof.
  intros Hassoc Hn Hirr Hfuel. unfold match_replace_binary.
  rewrite (assoc_listed cls Hassoc), Hn. cbn [negb].
  rewrite (@binary_irreducible _ cls c_n fuel ops Hirr Hfuel).
  now destruct ops as [| a [| b rest]].
Qed.

(** X5.  Whatever [_match_replace_binary] returns is reached from the
    operands by replacing adjacent pairs according to the binary rules;
    when the replacements of the class's own type carry reduced operands,
    no adjacent pair of the result has a replacement left. *)
Theorem binary_reducer_sound (cls : OperationClass) (c_n : Expr)
  (fuel : nat) (ops res : list Expr) :
  _match_replace_binary fuel cls c_n ops = Some res ->
  reduces_to cls c_n ops res
  /\ (replacements_reduced cls -> irreducible cls res = true).
Proof.
  intros H. split.
  - eapply binary_steps; exact H.
  - intros Hred. eapply binary_result_irreducible; [exact Hred | exact H].
Qed.

(** X6.  When rewriting adjacent pairs of [ops] always ends and the
    replacements of the class's own type carry reduced operands,
    [match_replace_binary] returns: from some recursion depth on it gives
    one and the same result, which is no exception. *)
Theorem match_replace_binary_terminates (cls : OperationClass) (c_n : Expr)
  (ops : list Expr) (kwargs : Kwargs) :
  In Pass.assoc (_simplifications cls) ->
  neutral_element cls = Some c_n ->
  replacements_reduced cls ->
  terminating cls c_n ops ->
  exists fuel simplified,
    forall fuel', fuel <= fuel' ->
      match_replace_binary fuel' cls ops kwargs = Return simplified.
Proof.
  intros Hassoc Hn Hred Hterm.
  destruct (binary_reduces (c_n := c_n) Hred (n := List.length ops)
              (ops := ops)) as (fuel & res & H & _ & _); auto.
  exists fuel.
  exists (match res with
          | [] => Finished c_n
          | [fop] => Finished fop
          | _ => Continue res kwargs
          end).
  intros fuel' Hle. unfold match_replace_binary.
  rewrite (assoc_listed cls Hassoc), Hn. cbn [negb].
  rewrite (@binary_fuel_mono _ cls c_n fuel ops res H fuel' Hle).
  now destruct res as [| a [| b rest]].
Qed.

(** *** Rules whose replacements are never of the class itself *)

Lemma step_shortens (cls : OperationClass) (c_n : Expr) (l l' : list Expr) :
  (forall x y r,
      _get_binary_replacement x y cls = Some r -> operands_of cls r = None) ->
  rewrites_to cls c_n l l' -> List.length l' < List.length l.
Proof.
  intros Hflat [l1 x y l2 r Hr]. rewrite !length_app. cbn [List.length].
  unfold pair_result, replacement_operands. rewrite (Hflat x y r Hr).
  destruct (py_eq r c_n); cbn [List.length]; lia.
Qed.

Lemma steps_shorten (cls : OperationClass) (c_n : Expr) (l l' : list Expr) :
  (forall x y r,
      _get_binary_replacement x y cls = Some r -> operands_of cls r = None) ->
  reduces_to cls c_n l l' -> List.length l' <= List.length l.
Proof.
  intros Hflat Hs. induction Hs as [l l' H | l | l m l' _ IH1 _ IH2].
  - pose proof (step_shortens Hflat H). lia.
  - lia.
  - lia.
Qed.

Lemma shortening_terminates (cls : OperationClass) (c_n : Expr)
  (ops : list Expr) :
  (forall x y r,
      _get_binary_replacement x y cls = Some r -> operands_of cls r = None) ->
  terminating cls c_n ops.
Proof.
  intros Hflat. remember (List.length ops) as n eqn:Hn.
  revert ops Hn. induction n as [n IH] using lt_wf_ind. intros ops ->.
  constructor. intros l' Hs.
  apply (IH (List.length l')); [| reflexivity].
  exact (step_shortens Hflat Hs).
Qed.

(** X19.  For an associative class with a neutral element whose binary
    rules never give a replacement of the class's own type,
    [match_replace_binary] always returns: from some recursion depth on
    its result is built from one list of operands that is not longer than
    the list it was given and in which no adjacent pair has a replacement
    left. *)
Theorem match_replace_binary_shrinks (cls : OperationClass) (c_n : Expr)
  (ops : list Expr) (kwargs : Kwargs) :
  In Pass.assoc (_simplifications cls) ->
  neutral_element cls = Some c_n ->
  (forall x y r,
      _get_binary_replacement x y cls = Some r -> operands_of cls r = None) ->
  exists fuel res,
    List.length res <= List.length ops
    /\ irreducible cls res = true
    /\ forall fuel', fuel <= fuel' ->
         match_replace_binary fuel' cls ops kwargs
         = Return (match res with
                   | [] => Finished c_n
                   | [fop] => Finished fop
                   | _ => Continue res kwargs
                   end).
Proof.
  intros Hassoc Hn Hflat.
  assert (Hred : replacements_reduced cls).
  { intros x y r args Hr Hargs. rewrite (Hflat x y r Hr) in Hargs.
    discriminate Hargs. }
  destruct (binary_reduces (c_n := c_n) Hred (n := List.length ops)
              (ops := ops)) as (fuel & res & H & Hsteps & Hirr);
    [lia | now apply shortening_terminates |].
  exists fuel, res. split; [exact (steps_shorten Hflat Hsteps) |].
  split; [exact Hirr |].
  intros fuel' Hle. unfold match_replace_binary.
  rewrite (assoc_listed cls Hassoc), Hn. cbn [negb].
  rewrite (@binary_fuel_mono _ cls c_n fuel ops res H fuel' Hle).
  now destruct res as [| a [| b rest]].
Qed.

(** *** [disjunct_hs_zero] *)

Lemma disjunct_hs_zero_loop_spec (ops : list Expr) :
  forall hilbert_spaces,
    disjunct_hs_zero_loop hilbert_spaces ops = true <->
    ForallOrdPairs (fun earlier later => space_isdisjoint later earlier = true)
      ops
    /\ Forall (fun op => Forall (fun hs_prev =>
                                   space_isdisjoint op hs_prev = true)
                           hilbert_spaces) ops.
Proof.
  induction ops as [| op ops IH]; intros seen.
  - cbn. split; [intros _; split; constructor | reflexivity].
  - cbn [disjunct_hs_zero_loop].
    destruct (forallb (fun hs_prev => space_isdisjoint op hs_prev) seen)
      eqn:Hop.
    + rewrite IH. rewrite forallb_forall in Hop.
      split.
      * intros [Hpairs Hseen]. split.
        -- constructor; [| exact Hpairs].
           eapply Forall_impl; [| exact Hseen]. cbn. intros o Ho.
           apply Forall_app in Ho as [_ Ho]. now inversion Ho.
        -- constructor.
           ++ apply Forall_forall. exact Hop.
           ++ eapply Forall_impl; [| exact Hseen]. cbn. intros o Ho.
              now apply Forall_app in Ho as [Ho _].
      * intros [Hpairs Hseen].
        inversion Hpairs as [| a l Hfirst Hrest]; subst.
        inversion Hseen as [| a l _ Hseen']; subst.
        split; [exact Hrest |].
        rewrite Forall_forall in Hfirst, Hseen' |- *. intros o Ho.
        apply Forall_app. split; [now apply Hseen' |].
        constructor; [now apply Hfirst | constructor].
    + split; [discriminate |]. intros [_ Hseen].
      inversion Hseen as [| a l Hop' _]; subst.
      rewrite Forall_forall in Hop'.
      assert (forallb (fun hs_prev => space_isdisjoint op hs_prev) seen
              = true) by (apply forallb_forall; exact Hop').
      congruence.
Qed.

(** X7.  [disjunct_hs_zero] finishes with [ZeroOperator] exactly when
    every operand acts on a Hilbert space disjoint from that of every
    operand before it, and else hands on operands and [kwargs] as they
    are; with fewer than two operands it always finishes with
    [ZeroOperator]. *)
Theorem disjunct_hs_zero_pairwise (cls : OperationClass) (ops : list Expr)
  (kwargs : Kwargs) :
  let all_disjoint :=
    ForallOrdPairs (fun earlier later => space_isdisjoint later earlier = true)
      ops in
  (all_disjoint -> disjunct_hs_zero cls ops kwargs = Finished ZeroOperator_)
  /\ (~ all_disjoint -> disjunct_hs_zero cls ops kwargs = Continue ops kwargs)
  /\ (List.length ops <= 1 ->
      disjunct_hs_zero cls ops kwargs = Finished ZeroOperator_).
Proof.
  cbn zeta. unfold disjunct_hs_zero.
  pose proof (disjunct_hs_zero_loop_spec ops []) as Hspec.
  assert (Hnil : Forall (fun op : Expr =>
                           Forall (fun hs_prev =>
                                     space_isdisjoint op hs_prev = true) [])
                   ops)
    by (apply Forall_forall; intros; constructor).
  repeat split.
  - intros Hall.
    now rewrite (proj2 Hspec (conj Hall Hnil)).
  - intros Hnot.
    destruct (disjunct_hs_zero_loop [] ops) eqn:E; [| reflexivity].
    destruct Hnot. now apply Hspec.
  - intros Hlen.
    destruct ops as [| a [| b rest]]; [reflexivity | reflexivity |].
    cbn in Hlen. lia.
Qed.

End PassFacts.

(** ** The pipelines of [Commutator], [OperatorPlus] and [OperatorTimes] *)

Section PipelineEdgeFacts.
Context `{RT : Runtime}.

(** *** [commutator_order] re-enters [create] at most once *)

Lemma commutator_create_in_order (cls : OperationClass) (fuel : nat)
  (A B : Expr) (kwargs : Kwargs) :
  _simplifications cls = Commutator_simplifications ->
  is_scalar A = false -> is_scalar B = false ->
  order_key_lt cls B A = false ->
  create (S fuel) cls [A; B] kwargs = create 1 cls [A; B] kwargs.
Proof.
  intros Hp HA HB Hlt. cbn [create]. rewrite Hp.
  cbn [Commutator_simplifications run_simplifications simplification].
  unfold scalars_to_op. cbn [map]. rewrite HA, HB. cbn [bind].
  unfold disjunct_hs_zero.
  destruct (disjunct_hs_zero_loop [] [A; B]); cbn [bind]; [reflexivity |].
  unfold commutator_order. rewrite Hlt. reflexivity.
Qed.

Lemma commutator_create_swap (cls : OperationClass) (fuel : nat)
  (A B : Expr) (kwargs : Kwargs) :
  _simplifications cls = Commutator_simplifications ->
  is_scalar A = false -> is_scalar B = false ->
  order_key_lt cls B A = true ->
  create (S fuel) cls [A; B] kwargs =
  if disjunct_hs_zero_loop [] [A; B] then Return ZeroOperator_
  else (c <- create fuel cls [B; A] no_kwargs ;; Return (neg_one_times c)).
Proof.
  intros Hp HA HB Hlt. cbn [create]. rewrite Hp.
  cbn [Commutator_simplifications run_simplifications simplification].
  unfold scalars_to_op. cbn [map]. rewrite HA, HB. cbn [bind].
  unfold disjunct_hs_zero.
  destruct (disjunct_hs_zero_loop [] [A; B]); cbn [bind]; [reflexivity |].
  unfold commutator_order. rewrite Hlt.
  destruct (create fuel cls [B; A] no_kwargs); reflexivity.
Qed.

(** X8.  For a class with the pass sequence of [Commutator] and two
    operators: when the order key never puts two operands each before the
    other, [create] swaps the operands at most once, so two nested calls
    are all it needs and a deeper recursion limit gives the same result.
    When the order key does put [A] before [B] and [B] before [A], and
    their spaces are not disjoint, [create(A, B)] swaps for ever and ends
    in a [RecursionError] whatever the recursion limit. *)
Theorem commutator_create_swaps_at_most_once (cls : OperationClass)
  (A B : Expr) (kwargs : Kwargs) :
  _simplifications cls = Commutator_simplifications ->
  is_scalar A = false -> is_scalar B = false ->
  ((forall a b, order_key_lt cls a b = true -> order_key_lt cls b a = false) ->
   forall fuel,
     create (2 + fuel) cls [A; B] kwargs = create 2 cls [A; B] kwargs)
  /\ (order_key_lt cls A B = true -> order_key_lt cls B A = true ->
      space_isdisjoint B A = false -> space_isdisjoint A B = false ->
      forall fuel, create fuel cls [A; B] kwargs = Raise RecursionError).
Proof.
  intros Hp HA HB. split.
  - intros Hasym fuel. cbn [Nat.add].
    destruct (order_key_lt cls B A) eqn:Hlt.
    + rewrite (@commutator_create_swap cls (S fuel) A B kwargs Hp HA HB Hlt).
      rewrite (@commutator_create_swap cls 1 A B kwargs Hp HA HB Hlt).
      destruct (disjunct_hs_zero_loop [] [A; B]); [reflexivity |].
      now rewrite (@commutator_create_in_order cls fuel B A no_kwargs Hp HB HA
                     (Hasym _ _ Hlt)).
    + rewrite (@commutator_create_in_order cls (S fuel) A B kwargs Hp HA HB Hlt).
      now rewrite (@commutator_create_in_order cls 1 A B kwargs Hp HA HB Hlt).
  - intros HAB HBA HdBA HdAB fuel.
    revert A B kwargs HA HB HAB HBA HdBA HdAB.
    induction fuel as [| fuel IH]; intros A B kwargs HA HB HAB HBA HdBA HdAB;
      [reflexivity |].
    rewrite (@commutator_create_swap cls fuel A B kwargs Hp HA HB HBA).
    cbn [disjunct_hs_zero_loop forallb app]. rewrite HdBA. cbn [andb].
    now rewrite (IH B A no_kwargs HB HA HBA HAB HdAB HdBA).
Qed.

(** *** No pass touches [kwargs] *)

Lemma simplification_keeps_kwargs (fuel : nat)
  (create_ : OperationClass -> list Expr -> Kwargs -> Outcome Expr)
  (p : Pass.t) (cls : OperationClass) (ops : list Expr) (kwargs : Kwargs)
  (ops' : list Expr) (kwargs' : Kwargs) :
  simplification fuel create_ p cls ops kwargs
  = Return (Continue ops' kwargs') ->
  kwargs' = kwargs.
Proof.
  destruct p; cbn [simplification].
  - unfold assoc. now intros [= _ <-].
  - unfold orderby. now intros [= _ <-].
  - unfold filter_neutral.
    destruct (neutral_element cls); [| discriminate].
    destruct ops as [| op0 ops]; [discriminate |].
    destruct (filter _ _) as [| a [| b rest]]; try discriminate.
    now intros [= _ <-].
  - intros [= H]. unfold match_replace in H.
    now apply match_replace_rules_Continue in H.
  - unfold match_replace_binary.
    destruct (negb _); [discriminate |].
    destruct (neutral_element cls); [| discriminate].
    destruct (_match_replace_binary fuel cls e ops) as [[| a [| b rest]] |];
      try discriminate.
    now intros [= _ <-].
  - unfold scalars_to_op. now intros [= _ <-].
  - unfold disjunct_hs_zero.
    destruct (disjunct_hs_zero_loop [] ops); [discriminate |].
    now intros [= _ <-].
  - unfold commutator_order.
    destruct ops as [| a [| b [| c rest]]]; try discriminate.
    destruct (order_key_lt cls b a).
    + destruct (create_ cls [b; a] no_kwargs); discriminate.
    + now intros [= _ <-].
Qed.

Lemma simplifications_outcome_keeps_kwargs (fuel : nat)
  (create_ : OperationClass -> list Expr -> Kwargs -> Outcome Expr)
  (cls : OperationClass) (passes : list Pass.t) :
  forall args kwargs args' kwargs',
    simplifications_outcome (fun p => simplification fuel create_ p cls)
      passes args kwargs = Return (Continue args' kwargs') ->
    kwargs' = kwargs.
Proof.
  induction passes as [| p passes IH]; intros args kwargs args' kwargs'.
  - cbn. now intros [= _ <-].
  - cbn [simplifications_outcome].
    destruct (simplification fuel create_ p cls args kwargs)
      as [[a k | v] | e] eqn:E; cbn [bind]; try discriminate.
    intros H. apply IH in H. subst kwargs'.
    exact (@simplification_keeps_kwargs fuel create_ p cls args kwargs a k E).
Qed.

(** X9.  None of the passes [assoc], [orderby], [filter_neutral],
    [match_replace], [match_replace_binary], [scalars_to_op],
    [disjunct_hs_zero] and [commutator_order] changes [kwargs]: what one
    of them hands on, and what any sequence of them hands on when each
    pass receives what the one before handed on, comes with the [kwargs]
    the first pass was given. *)
Theorem passes_keep_kwargs (fuel : nat)
  (create_ : OperationClass -> list Expr -> Kwargs -> Outcome Expr)
  (cls : OperationClass) :
  (forall p ops kwargs ops' kwargs',
      simplification fuel create_ p cls ops kwargs
      = Return (Continue ops' kwargs') ->
      kwargs' = kwargs)
  /\ (forall passes args kwargs args' kwargs',
         simplifications_outcome (fun p => simplification fuel create_ p cls)
           passes args kwargs = Return (Continue args' kwargs') ->
         kwargs' = kwargs).
Proof.
  split.
  - intros p ops kwargs ops' kwargs'. apply simplification_keeps_kwargs.
  - intros passes args kwargs args' kwargs'.
    apply simplifications_outcome_keeps_kwargs.
Qed.

(** *** Sums and products of fewer than two operands *)

Lemma simplifications_outcome_last
  (apply : Pass.t -> list Expr -> Kwargs -> Outcome Simplified)
  (p : Pass.t) (passes : list Pass.t) :
  forall args kwargs args' kwargs',
    simplifications_outcome apply (passes ++ [p]) args kwargs
    = Return (Continue args' kwargs') ->
    exists a k, apply p a k = Return (Continue args' kwargs').
Proof.
  induction passes as [| q passes IH]; intros args kwargs args' kwargs'.
  - cbn [app simplifications_outcome].
    destruct (apply p args kwargs) as [[a k | v] | e] eqn:E; cbn [bind];
      try discriminate.
    intros [= <- <-]. now exists args, kwargs.
  - cbn [app simplifications_outcome].
    destruct (apply q args kwargs) as [[a k | v] | e]; cbn [bind];
      try discriminate.
    apply IH.
Qed.

(** X10.  For a class with a neutral element, the passes of
    [OperatorPlus] and of [OperatorTimes], run in sequence: without
    operands they finish with the neutral element; with one operand that
    is not of the class they finish with that operand, which the passes of
    a sum first turn into an operator if it is a scalar; and whatever they
    hand on for the constructor has at least two operands. *)
Theorem sum_passes_on_few_operands (cls : OperationClass) (c_n : Expr)
  (fuel : nat)
  (create_ : OperationClass -> list Expr -> Kwargs -> Outcome Expr) :
  neutral_element cls = Some c_n ->
  let run passes :=
    simplifications_outcome (fun p => simplification fuel create_ p cls)
      passes in
  (forall kwargs,
      run OperatorPlus_simplifications [] kwargs = Return (Finished c_n)
      /\ run OperatorTimes_simplifications [] kwargs
         = Return (Finished c_n))
  /\ (forall x kwargs,
         operands_of cls x = None ->
         run OperatorPlus_simplifications [x] kwargs
         = Return (Finished (if is_scalar x then scalar_times_identity x
                             else x))
         /\ run OperatorTimes_simplifications [x] kwargs
            = Return (Finished x))
  /\ (forall passes args kwargs args' kwargs',
         passes = OperatorPlus_simplifications
         \/ passes = OperatorTimes_simplifications ->
         run passes args kwargs = Return (Continue args' kwargs') ->
         2 <= List.length args').
Proof.
  intros Hn run. subst run. cbn beta. split; [| split].
  - intros kwargs. split.
    + cbn [OperatorPlus_simplifications simplifications_outcome
           simplification bind assoc scalars_to_op orderby sorted fold_right
           map List.concat].
      unfold filter_neutral. now rewrite Hn.
    + cbn [OperatorTimes_simplifications simplifications_outcome
           simplification bind assoc orderby sorted fold_right map
           List.concat].
      unfold filter_neutral. now rewrite Hn.
  - intros x kwargs Hx. split.
    + cbn [OperatorPlus_simplifications simplifications_outcome
           simplification bind assoc map List.concat app].
      rewrite Hx.
      cbn [scalars_to_op orderby sorted fold_right map List.concat app
           insert_sorted bind simplifications_outcome simplification].
      unfold filter_neutral. rewrite Hn. cbn [filter].
      now destruct (negb _).
    + cbn [OperatorTimes_simplifications simplifications_outcome
           simplification bind assoc map List.concat app].
      rewrite Hx.
      cbn [orderby sorted fold_right map List.concat app
           insert_sorted bind simplifications_outcome simplification].
      unfold filter_neutral. rewrite Hn. cbn [filter].
      now destruct (negb _).
  - intros passes args kwargs args' kwargs' Hp H.
    assert (Hlast : exists a k,
               simplification fuel create_ Pass.match_replace_binary cls a k
               = Return (Continue args' kwargs')).
    { destruct Hp as [-> | ->].
      - exact (@simplifications_outcome_last _ Pass.match_replace_binary
                 [Pass.assoc; Pass.scalars_to_op; Pass.orderby;
                  Pass.filter_neutral] args kwargs args' kwargs' H).
      - exact (@simplifications_outcome_last _ Pass.match_replace_binary
                 [Pass.assoc; Pass.orderby; Pass.filter_neutral]
                 args kwargs args' kwargs' H). }
    destruct Hlast as (a & k & Hlast). cbn [simplification] in Hlast.
    now apply (@match_replace_binary_Continue _ fuel cls c_n a args' k kwargs' Hn)
      in Hlast.
Qed.

(** *** [scalars_to_op] *)

(** X18.  [scalars_to_op] hands on as many operands as it was given, in
    the same places: each scalar as the operator
    [ScalarTimesOperator.create(scalar, IdentityOperator)], every other
    operand as it is, and [kwargs] unchanged.  When such an operator is no
    scalar, no scalar is left among the operands handed on and
    [scalars_to_op] does not change them again. *)
Theorem scalars_to_op_converts (cls : OperationClass) (ops : list Expr)
  (kwargs : Kwargs) :
  exists op_ops,
    scalars_to_op cls ops kwargs = Continue op_ops kwargs
    /\ List.length op_ops = List.length ops
    /\ (forall i op,
           nth_error ops i = Some op ->
           nth_error op_ops i
           = Some (if is_scalar op then scalar_times_identity op else op))
    /\ ((forall op, is_scalar op = true ->
                    is_scalar (scalar_times_identity op) = false) ->
        forallb (fun op => negb (is_scalar op)) op_ops = true
        /\ scalars_to_op cls op_ops kwargs = Continue op_ops kwargs).
Proof.
  eexists. split; [reflexivity |]. split; [apply length_map |]. split.
  - intros i op Hnth. now rewrite nth_error_map, Hnth.
  - intros Hconv.
    assert (Hnone : forallb (fun op => negb (is_scalar op))
                      (map (fun op => if is_scalar op
                                      then scalar_times_identity op else op)
                         ops) = true).
    { induction ops as [| op ops IH]; [reflexivity |].
      cbn [map forallb]. rewrite IH, andb_true_r.
      destruct (is_scalar op) eqn:E; [now rewrite Hconv | now rewrite E]. }
    split; [exact Hnone | now apply scalars_to_op_none].
Qed.

End PipelineEdgeFacts.

(** ** [check_cdims] *)

Section CircuitFacts.
Context `{RT : Runtime}.
Variable cdim : Expr -> nat.

Lemma nodup_one_value (l : list nat) :
  List.length (nodup Nat.eq_dec l) = 1 <->
  exists x l', l = x :: l' /\ Forall (fun y => y = x) l'.
Proof.
  split.
  - intros Hlen. destruct l as [| x l'].
    { cbn in Hlen. discriminate. }
    exists x, l'. split; [reflexivity |].
    destruct (nodup Nat.eq_dec (x :: l')) as [| y [| z rest]] eqn:E;
      try discriminate.
    assert (Hall : forall u, In u (x :: l') -> u = y).
    { intros u Hu. apply (nodup_In Nat.eq_dec) in Hu. rewrite E in Hu.
      now destruct Hu as [<- | []]. }
    apply Forall_forall. intros u Hu.
    rewrite (Hall u (or_intror Hu)). symmetry. apply Hall. now left.
  - intros (x & l' & -> & Hall).
    pose proof (NoDup_nodup Nat.eq_dec (x :: l')) as Hnd.
    assert (Hin : forall u, In u (nodup Nat.eq_dec (x :: l')) -> u = x).
    { intros u Hu. apply nodup_In in Hu. destruct Hu as [<- | Hu]; auto.
      rewrite Forall_forall in Hall. now apply Hall. }
    assert (Hx : In x (nodup Nat.eq_dec (x :: l')))
      by (apply nodup_In; now left).
    destruct (nodup Nat.eq_dec (x :: l')) as [| a [| b rest]].
    + destruct Hx.
    + reflexivity.
    + exfalso. inversion Hnd as [| ? ? Hnotin _]; subst. apply Hnotin.
      rewrite (Hin a (or_introl eq_refl)).
      rewrite <- (Hin b (or_intror (or_introl eq_refl))). now left.
Qed.

(** X11.  [check_cdims] hands on operands and [kwargs] as they are exactly
    when there is at least one operand and all operands have the channel
    dimension of the first; in every other case, that of no operand
    included, it raises [ValueError]. *)
Theorem check_cdims_equal_cdims (cls : OperationClass) (ops : list Expr)
  (kwargs : Kwargs) :
  (check_cdims cdim cls ops kwargs = Return (Continue ops kwargs) <->
   exists o rest,
     ops = o :: rest /\ Forall (fun o' => cdim o' = cdim o) rest)
  /\ (check_cdims cdim cls ops kwargs <> Return (Continue ops kwargs) ->
      check_cdims cdim cls ops kwargs = Raise ValueError)
  /\ check_cdims cdim cls [] kwargs = Raise ValueError.
Proof.
  unfold check_cdims. repeat split.
  - intros H.
    destruct (List.length (nodup Nat.eq_dec (map cdim ops)) =? 1) eqn:E;
      [| discriminate].
    apply Nat.eqb_eq, nodup_one_value in E as (x & l' & Hmap & Hall).
    destruct ops as [| o rest]; [discriminate |].
    cbn [map] in Hmap. injection Hmap as <- <-.
    exists o, rest. split; [reflexivity |].
    now apply Forall_map in Hall.
  - intros (o & rest & -> & Hall).
    assert (E : List.length (nodup Nat.eq_dec (map cdim (o :: rest))) = 1).
    { apply nodup_one_value. exists (cdim o), (map cdim rest).
      split; [reflexivity | now apply Forall_map]. }
    apply Nat.eqb_eq in E. now rewrite E.
  - intros H.
    destruct (List.length (nodup Nat.eq_dec (map cdim ops)) =? 1);
      [now destruct H | reflexivity].
Qed.

End CircuitFacts.

(** ** The passes on the classes of the docstrings *)


(** The symbols [B] and [A] of a sum are put in the order [A], [B]. *)
Lemma orderby_sorts_witness :
  exists ops',
    @orderby Py.PyRuntime Py.Plus
      [Py.OperatorSymbol "B" 1; Py.OperatorSymbol "A" 1] []
    = @Continue Py.PyRuntime ops' []
    /\ Permutation [Py.OperatorSymbol "B" 1; Py.OperatorSymbol "A" 1] ops'
    /\ @ordered_by Py.PyRuntime (order_key_lt Py.Plus) ops' = true.
Proof.
  destruct (@orderby_sorts Py.PyRuntime Py.Plus
              [Py.OperatorSymbol "B" 1; Py.OperatorSymbol "A" 1] []
              PlusFacts.Plus_strict_weak_order)
    as (ops' & H1 & H2 & H3 & _).
  exists ops'. auto.
Defined.

(** [X.create(2, 1, 3, 1)] of the docstring of [filter_neutral], with the
    neutral element [0] of [FilterDupes]. *)
Lemma filter_neutral_outcomes_witness :
  @filter_neutral Py.PyRuntime Py.FilterDupes
    [Py.PInt 2; Py.PInt 0; Py.PInt 3; Py.PInt 0] []
  = Return (@Continue Py.PyRuntime [Py.PInt 2; Py.PInt 3] []).
Proof.
  destruct (@filter_neutral_outcomes Py.PyRuntime Py.FilterDupes (Py.PInt 0)
              [Py.PInt 2; Py.PInt 0; Py.PInt 3; Py.PInt 0] [] eq_refl)
    as ([fops kwargs' | v] & H & Hs).
  - destruct Hs as (-> & -> & _). exact H.
  - destruct Hs as [Hlen _]. vm_compute in Hlen. lia.
Defined.

(** [FilterDupes.create(1, 2, 3, 2, 4)] of the docstring of
    [match_replace_binary]: no subsequent duplicates, nothing changes. *)
Lemma match_replace_binary_keeps_irreducible_witness :
  @match_replace_binary Py.PyRuntime 6 Py.FilterDupes
    [Py.PInt 1; Py.PInt 2; Py.PInt 3; Py.PInt 2; Py.PInt 4] []
  = Return (@Continue Py.PyRuntime
              [Py.PInt 1; Py.PInt 2; Py.PInt 3; Py.PInt 2; Py.PInt 4] []).
Proof.
  apply (@match_replace_binary_keeps_irreducible Py.PyRuntime Py.FilterDupes
           (Py.PInt 0)
           [Py.PInt 1; Py.PInt 2; Py.PInt 3; Py.PInt 2; Py.PInt 4] [] 6).
  - simpl. auto.
  - reflexivity.
  - reflexivity.
  - simpl. lia.
Defined.

(** The operands [1, 2, 4] of [Chain]: the result [1] is reached by
    cancelling the pair [2, 4]. *)
Lemma binary_reducer_sound_witness :
  @reduces_to Py.PyRuntime Py.Chain (Py.PInt 0)
    [Py.PInt 1; Py.PInt 2; Py.PInt 4] [Py.PInt 1].
Proof.
  exact (proj1 (@binary_reducer_sound Py.PyRuntime Py.Chain (Py.PInt 0) 5
                  [Py.PInt 1; Py.PInt 2; Py.PInt 4] [Py.PInt 1] eq_refl)).
Defined.

(** Rewriting the operands of [Cancel] always ends. *)
Lemma match_replace_binary_terminates_witness :
  exists fuel simplified,
    forall fuel', fuel <= fuel' ->
      @match_replace_binary Py.PyRuntime fuel' Py.Cancel
        [Py.PInt 1; Py.PInt 1; Py.PInt (-1); Py.PInt 2] []
      = Return simplified.
Proof.
  apply (@match_replace_binary_terminates Py.PyRuntime Py.Cancel (Py.PInt 0)).
  - simpl. auto.
  - reflexivity.
  - exact CancelFacts.Cancel_replacements_reduced.
  - apply CancelFacts.Cancel_terminating.
Defined.

(** The commutator of the symbols [B] and [A]: a recursion limit of seven
    nested calls gives what two give. *)
Lemma commutator_create_swaps_at_most_once_witness :
  @create Py.PyRuntime (2 + 5) Py.Commutator
    [Py.OperatorSymbol "B" 1; Py.OperatorSymbol "A" 1] []
  = @create Py.PyRuntime 2 Py.Commutator
      [Py.OperatorSymbol "B" 1; Py.OperatorSymbol "A" 1] [].
Proof.
  apply (proj1 (@commutator_create_swaps_at_most_once Py.PyRuntime
                  Py.Commutator (Py.OperatorSymbol "B" 1)
                  (Py.OperatorSymbol "A" 1) [] eq_refl eq_refl eq_refl)).
  exact (proj1 PlusFacts.Plus_strict_weak_order).
Defined.

(** The passes of [Plus] without operands finish with the zero operator,
    and with the scalar [3] alone finish with [3] as an operator. *)
Lemma sum_passes_on_few_operands_witness :
  @simplifications_outcome Py.PyRuntime
    (fun p => simplification 0 (create 0) p Py.Plus)
    OperatorPlus_simplifications [] []
  = Return (@Finished Py.PyRuntime (Py.PObj "ZeroOperator" [] []))
  /\ @simplifications_outcome Py.PyRuntime
       (fun p => simplification 0 (create 0) p Py.Plus)
       OperatorPlus_simplifications [Py.PInt 3] []
     = Return (@Finished Py.PyRuntime
                 (Py.PObj "ScalarTimesOperator"
                    [Py.PInt 3; Py.PObj "IdentityOperator" [] []] [])).
Proof.
  pose proof (@sum_passes_on_few_operands Py.PyRuntime Py.Plus
                (Py.PObj "ZeroOperator" [] []) 0 (create 0) eq_refl)
    as (Hnone & Hone & _).
  split.
  - exact (proj1 (Hnone [])).
  - exact (proj1 (Hone (Py.PInt 3) [] eq_refl)).
Defined.

(** The replacement of [Cancel] is the integer [0], no instance of
    [Cancel]: reduction of its operands always returns. *)
Lemma match_replace_binary_shrinks_witness :
  exists fuel res,
    List.length res <= 4
    /\ @irreducible Py.PyRuntime Py.Cancel res = true
    /\ forall fuel', fuel <= fuel' ->
         @match_replace_binary Py.PyRuntime fuel' Py.Cancel
           [Py.PInt 1; Py.PInt 1; Py.PInt (-1); Py.PInt 2] []
         = Return (match res with
                   | [] => @Finished Py.PyRuntime (Py.PInt 0)
                   | [fop] => Finished fop
                   | _ => Continue res []
                   end).
Proof.
  apply (@match_replace_binary_shrinks Py.PyRuntime Py.Cancel (Py.PInt 0)
           [Py.PInt 1; Py.PInt 1; Py.PInt (-1); Py.PInt 2] []).
  - simpl. auto.
  - reflexivity.
  - intros x y r Hr. rewrite CancelFacts.Cancel_replacement in Hr.
    destruct (CancelNF.redex x y); [| discriminate Hr].
    injection Hr as <-. reflexivity.
Defined.

(** ** More of the operator algebra *)

Module OperatorAlgebraFacts.
Import Operators.

Section MoreAlgebra.
Context `{R : Rules}.

(** *** Equal expressions are the same expression *)

Lemma hs_eqb_eq (a b : HilbertSpace) : hs_eqb a b = true -> a = b.
Proof.
  unfold hs_eqb. now destruct (list_eq_dec string_dec a b).
Qed.

Lemma scalar_eqb_eq (a b : Scalar) : scalar_eqb a b = true -> a = b.
Proof.
  destruct a as [ra ia], b as [rb ib]. unfold scalar_eqb. cbn [re im].
  intros H. apply andb_prop in H as [Hr Hi].
  apply Z.eqb_eq in Hr, Hi. now subst.
Qed.

Lemma list_Z_eqb_eq (a b : list Z) : list_Z_eqb a b = true -> a = b.
Proof.
  unfold list_Z_eqb. now destruct (list_eq_dec Z.eq_dec a b).
Qed.

Lemma arg_eqb_eq (a b : Arg) : arg_eqb a b = true -> a = b.
Proof.
  destruct a, b; cbn [arg_eqb]; intros H; try discriminate H.
  - apply Z.eqb_eq in H. now subst.
  - apply Bool.eqb_prop in H. now subst.
  - apply String.eqb_eq in H. now subst.
  - reflexivity.
  - apply String.eqb_eq in H. now subst.
  - apply hs_eqb_eq in H. now subst.
  - apply list_Z_eqb_eq in H. now subst.
  - apply list_Z_eqb_eq in H. now subst.
Qed.

Lemma range_eqb_eq (a b : IndexRange) : range_eqb a b = true -> a = b.
Proof.
  destruct a, b; cbn [range_eqb]; intros H; try discriminate H;
    repeat match goal with
           | H : _ && _ = true |- _ => apply andb_prop in H as [H ?]
           end;
    repeat match goal with
           | H : String.eqb _ _ = true |- _ => apply String.eqb_eq in H
           | H : arg_eqb _ _ = true |- _ => apply arg_eqb_eq in H
           end;
    now subst.
Qed.

Lemma ranges_eqb_eq (l1 : list IndexRange) :
  forall l2, list_eqb range_eqb l1 l2 = true -> l1 = l2.
Proof.
  induction l1 as [| r l1 IH]; intros [| r' l2] H; try discriminate H;
    [reflexivity |].
  cbn [list_eqb] in H. apply andb_prop in H as [Hr H].
  apply range_eqb_eq in Hr. apply IH in H. now subst.
Qed.

Lemma structurally_equal_eq :
  forall x y, structurally_equal x y = true -> x = y.
Proof.
  fix IH 1. intros x y H.
  destruct x, y; cbn [structurally_equal] in H; try discriminate H;
    try reflexivity;
    repeat match goal with
           | H : _ && _ = true |- _ => apply andb_prop in H as [H ?]
           end;
    repeat match goal with
           | H : String.eqb _ _ = true |- _ => apply String.eqb_eq in H
           | H : hs_eqb _ _ = true |- _ => apply hs_eqb_eq in H
           | H : scalar_eqb _ _ = true |- _ => apply scalar_eqb_eq in H
           | H : Z.eqb _ _ = true |- _ => apply Z.eqb_eq in H
           | H : list_eqb range_eqb _ _ = true |- _ => apply ranges_eqb_eq in H
           | H : structurally_equal _ _ = true |- _ => apply IH in H
           end;
    subst; try reflexivity.
  - f_equal. revert operands0 H.
    induction operands as [| o operands IHl]; intros [| o' operands'] H;
      try discriminate H; [reflexivity |].
    apply andb_prop in H as [Ho H].
    apply IH in Ho. apply IHl in H. now subst.
  - f_equal. revert operands0 H.
    induction operands as [| o operands IHl]; intros [| o' operands'] H;
      try discriminate H; [reflexivity |].
    apply andb_prop in H as [Ho H].
    apply IH in Ho. apply IHl in H. now subst.
Qed.

Lemma Operator_eq_VOp (x y : Operator) :
  Operator_eq x (VOp y) = structurally_equal x y.
Proof.
  unfold Operator_eq. destruct x; try reflexivity. now destruct x.
Qed.

(** *** The adjoint of the adjoint *)

Lemma scalar_conjugate_involutive (c : Scalar) :
  scalar_conjugate (scalar_conjugate c) = c.
Proof.
  destruct c as [r i]. unfold scalar_conjugate. cbn [re im].
  now rewrite Z.opp_involutive.
Qed.

Lemma scalar_neg_involutive (c : Scalar) : scalar_neg (scalar_neg c) = c.
Proof.
  destruct c as [r i]. unfold scalar_neg. cbn [re im].
  now rewrite !Z.opp_involutive.
Qed.

Lemma adjoint_adjoint :
  forall x, constructor_adjoint x = true -> adjoint (adjoint x) = x.
Proof.
  fix IH 1. intros x Hx.
  destruct x; cbn [constructor_adjoint] in Hx; try discriminate Hx;
    cbn [adjoint]; try reflexivity.
  - now rewrite scalar_neg_involutive.
  - f_equal.
    induction operands as [| o operands IHl]; [reflexivity |].
    cbn [forallb] in Hx. apply andb_prop in Hx as [Ho Hx].
    cbn [map]. now rewrite (IH o Ho), (IHl Hx).
  - now rewrite scalar_conjugate_involutive, (IH x Hx).
  - apply andb_prop in Hx as [HA HB].
    now rewrite (IH x1 HA), (IH x2 HB).
  - destruct x; try discriminate Hx; reflexivity.
  - now rewrite (IH x Hx).
Qed.

Lemma adjoint_constructor_adjoint :
  forall x,
    constructor_adjoint x = true -> constructor_adjoint (adjoint x) = true.
Proof.
  fix IH 1. intros x Hx.
  destruct x; cbn [constructor_adjoint] in Hx; try discriminate Hx;
    cbn [adjoint constructor_adjoint]; try reflexivity.
  - induction operands as [| o operands IHl]; [reflexivity |].
    cbn [forallb] in Hx. apply andb_prop in Hx as [Ho Hx].
    cbn [map forallb]. now rewrite (IH o Ho), (IHl Hx).
  - exact (IH x Hx).
  - apply andb_prop in Hx as [HA HB].
    now rewrite (IH x1 HA), (IH x2 HB).
  - destruct x; try discriminate Hx; reflexivity.
  - exact (IH x Hx).
Qed.

(** X12.  For an expression whose adjoint is formed by constructors alone
    (no product, phase, displacement or indexed sum, whose adjoints go
    through [create], and [Adjoint] only around a symbol, a trace, a
    pseudo-inverse or a null-space projector), the adjoint of the adjoint
    is the expression itself, and the adjoint is again such an
    expression. *)
Theorem adjoint_involution (x : Operator) :
  constructor_adjoint x = true ->
  adjoint (adjoint x) = x
  /\ constructor_adjoint (adjoint x) = true.
Proof.
  intros Hx. split.
  - now apply adjoint_adjoint.
  - now apply adjoint_constructor_adjoint.
Qed.

(** *** An operator plus or minus its complex conjugate *)

(** X16.  When the adjoint of [B] equals [A], [B] being an expression
    whose adjoint is formed by constructors alone, the rule [pmCC1]
    replaces the operands [A], [B] of a sum by [A + c.c.], which
    [pmCCexpand1] expands to [A + B] again; and [pmCC2] gives [A - c.c.],
    which [pmCCexpand2] expands to [A - B]. *)
Theorem operator_pm_cc_round_trip (A B : Operator) :
  constructor_adjoint B = true ->
  Operator_eq (adjoint B) (VOp A) = true ->
  _combine_operator_p_cc A B = Replaced (OperatorPlusMinusCC A 1)
  /\ pmCCexpand1 A = add (VOp A) (VOp B)
  /\ _combine_operator_m_cc A B = Replaced (OperatorPlusMinusCC A (-1))
  /\ pmCCexpand2 A = sub (VOp A) (VOp B).
Proof.
  intros HB Heq.
  unfold _combine_operator_p_cc, _combine_operator_m_cc, pmCCexpand1,
    pmCCexpand2.
  rewrite Heq. rewrite Operator_eq_VOp in Heq.
  apply structurally_equal_eq in Heq. subst A.
  now rewrite (adjoint_adjoint B HB).
Qed.

(** *** Arithmetic with one indexed sum *)

(** X14.  With an indexed sum [s] and an operator [x] that is none:
    [x + s] and [x - s] return the sum formed by [create], of [x] and [s]
    or of [x] and [-1] times [s], while [s + x] and [s - x] raise
    [NotImplementedError], as does the sum of [s] and a scalar on either
    side.  The sum of [x] and a scalar is the same whichever comes
    first. *)
Theorem indexed_sum_mixed_arithmetic (x term : Operator)
  (ranges : list IndexRange) :
  is_indexed_sum x = false ->
  let s := OperatorIndexedSum term ranges in
  add (VOp x) (VOp s) = Return (VOp (OperatorPlus_create [x; s]))
  /\ add (VOp s) (VOp x) = Raise NotImplementedError
  /\ sub (VOp x) (VOp s)
     = Return (VOp (OperatorPlus_create
                      [x; ScalarTimesOperator (complex (-1) 0) s]))
  /\ sub (VOp s) (VOp x) = Raise NotImplementedError
  /\ (forall c,
         add (VOp s) (VScalar c) = Raise NotImplementedError
         /\ add (VScalar c) (VOp s) = Raise NotImplementedError)
  /\ (forall c,
         add (VScalar c) (VOp x) = add (VOp x) (VScalar c)
         /\ add (VOp x) (VScalar c)
            = Return (VOp (OperatorPlus_create
                             [x; ScalarTimesOperator_create c _one]))).
Proof.
  intros Hx s.
  unfold add, sub, Operator___add__, Operator___radd__, Operator___sub__,
    Operator___rsub__, QuantumExpression___sub__, QuantumExpression___add__,
    minus_one_times_value, minus_one_times, add, Operator___add__,
    QuantumExpression___add__.
  cbn [bind s is_indexed_sum]. rewrite Hx.
  cbn [binary_operator as_method].
  repeat split.
Qed.

(** *** The keywords of [Sum] *)

Lemma getitem_Some {A : Type} (table : list (list PyType * A))
  (key : list PyType) :
  In key (map fst table) -> exists v, getitem table key = Some v.
Proof.
  induction table as [| [k v] table IH]; [intros [] |].
  cbn [map fst getitem]. intros Hin.
  destruct (list_eq_dec PyType_eq_dec k key) as [-> | Hne].
  - now exists v.
  - apply IH. destruct Hin as [-> | Hin]; [now destruct Hne | exact Hin].
Qed.

(** X15.  [Sum] looks at the types of the positional arguments only.  The
    Hilbert space may be given by position or as [hs], and without it the
    space of the term is used; the step may be given by position or as
    [step].  A keyword for a parameter that a positional argument already
    fills, a range given by keywords alone, and a keyword that names no
    parameter of the function dispatched to are a [TypeError]; these
    errors are raised when the instantiator is applied to a term, [Sum]
    itself returning for every listed shape of arguments. *)
Theorem Sum_keywords (idx : string) (term : Operator) :
  (forall label,
      space term = LocalSpace label ->
      Sum_of idx [] [] term = Sum_of idx [ALocalSpace label] [] term)
  /\ (forall label,
         Sum_of idx [] [("hs", ALocalSpace label)] term
         = Sum_of idx [ALocalSpace label] [] term)
  /\ (forall start stop step,
         Sum_of idx [AInt start; AInt stop] [("step", AInt step)] term
         = Sum_of idx [AInt start; AInt stop; AInt step] [] term)
  /\ (forall start stop v,
         Sum_of idx [AInt start; AInt stop] [("to", v)] term
         = Raise TypeError)
  /\ (forall start stop step v,
         Sum_of idx [AInt start; AInt stop; AInt step] [("step", v)] term
         = Raise TypeError)
  /\ (forall start stop,
         Sum_of idx [] [("start_from", start); ("to", stop)] term
         = Raise TypeError)
  /\ (forall args kwargs f name v,
         getitem dispatch_table (map type_of args) = Some f ->
         In (name, v) kwargs ->
         ~ In name (map fst (parameters f)) ->
         Sum_of idx args kwargs term = Raise TypeError)
  /\ (forall args kwargs,
         In (map type_of args) (map fst dispatch_table) ->
         exists sum, Sum idx args kwargs = Return sum).
Proof.
  split; [| split; [| split; [| split; [| split; [| split; [| split]]]]]];
    try (intros; reflexivity).
  - intros label Hspace. unfold Sum_of, Sum.
    cbn [map getitem dispatch_table]. cbn.
    now rewrite Hspace.
  - intros args kwargs f name v Hf Hin Hname. unfold Sum_of, Sum.
    rewrite Hf. cbn [bind]. unfold call.
    assert (Hall : forallb
                     (fun kv => existsb (fun p => String.eqb (fst p) (fst kv))
                                  (parameters f)) kwargs = false).
    { apply not_true_is_false. intros Hall.
      rewrite forallb_forall in Hall. specialize (Hall _ Hin).
      apply existsb_exists in Hall as (p & Hp & Heq).
      cbn [fst] in Heq. apply String.eqb_eq in Heq. subst name.
      apply Hname. now apply in_map. }
    now rewrite Hall.
  - intros args kwargs Hin. unfold Sum.
    destruct (getitem_Some dispatch_table _ Hin) as (f & ->).
    eexists. reflexivity.
Qed.

End MoreAlgebra.

End OperatorAlgebraFacts.

(** ** Series expansions of sums *)

Module SeriesFacts.
Import Operators.

Section Series.
Context `{R : Rules}.

Lemma heads_Some {A : Type} (tuples : list (list A)) :
  Forall (fun t => 1 <= List.length t) tuples ->
  exists xs, heads tuples = Some xs.
Proof.
  induction 1 as [| t tuples Ht _ IH]; [now exists [] |].
  destruct t as [| x t]; [cbn in Ht; lia |].
  destruct IH as (xs & E). exists (x :: xs). cbn [heads]. now rewrite E.
Qed.

Lemma zip_upto_length {A : Type} (n : nat) :
  forall tuples : list (list A),
    Forall (fun t => n <= List.length t) tuples ->
    List.length (zip_upto n tuples) = n.
Proof.
  induction n as [| n IH]; intros tuples H; [reflexivity |].
  cbn [zip_upto].
  destruct (heads_Some (tuples := tuples)) as (xs & ->).
  { eapply Forall_impl; [| exact H]. cbn. intros; lia. }
  cbn [List.length]. f_equal. apply IH.
  apply Forall_map. eapply Forall_impl; [| exact H].
  intros t Ht. destruct t; cbn in *; lia.
Qed.

Lemma zip_length {A : Type} (m : nat) (tuples : list (list A)) :
  tuples <> [] ->
  Forall (fun t => List.length t = m) tuples ->
  List.length (zip tuples) = m.
Proof.
  destruct tuples as [| t tuples]; [congruence |].
  intros _ H. unfold zip.
  assert (Ht : List.length t = m) by now inversion H.
  rewrite Ht. apply zip_upto_length.
  eapply Forall_impl; [| exact H]. cbn. intros; lia.
Qed.

Lemma type_stable_all_operators {A : Type} (f : A -> Operator)
  (l : list A) :
  exists coeffs,
    type_stable_all (map (fun a => COp (f a)) l) = Return coeffs
    /\ List.length coeffs = List.length l
    /\ Forall canonical coeffs.
Proof.
  destruct (OperatorFacts.type_stable_all_acceptable
              (map (fun a => COp (f a)) l)) as (coeffs & H & Hlen & Hcan).
  { induction l as [| a l IH]; cbn; auto. }
  exists coeffs. rewrite length_map in Hlen. auto.
Qed.

Lemma constant_expansion_stable (x : Operator) (N : nat) :
  exists coeffs,
    type_stable_all (constant_series_expand x N) = Return coeffs
    /\ List.length coeffs = N + 1
    /\ Forall canonical coeffs.
Proof.
  destruct (OperatorFacts.type_stable_all_acceptable
              (constant_series_expand x N)) as (coeffs & H & Hlen & Hcan).
  { unfold constant_series_expand. cbn [forallb acceptable].
    induction N as [| n IH]; cbn; auto. }
  exists coeffs. repeat split; [exact H | | exact Hcan].
  rewrite Hlen. unfold constant_series_expand. cbn [List.length].
  rewrite repeat_length. lia.
Qed.

Lemma constant_expansion_exact (x : Operator) (N : nat) :
  constant_by_default x = true ->
  type_stable_all (constant_series_expand x N)
  = Return (x :: repeat _zero N).
Proof.
  intros Hx. unfold constant_series_expand. cbn [type_stable_all].
  assert (Hhead : type_stable (COp x) = Return x)
    by (destruct x; try discriminate Hx; reflexivity).
  rewrite Hhead. cbn [bind].
  assert (Hrest : type_stable_all (repeat (CScalar Zero) N)
                  = Return (repeat _zero N)).
  { induction N as [| n IH]; [reflexivity |].
    cbn [repeat type_stable_all]. rewrite IH. reflexivity. }
  now rewrite Hrest.
Qed.

Lemma series_expand_each_cons
  (expand : Operator -> Outcome (list Operator)) (o : Operator)
  (l : list Operator) :
  series_expand_each expand (o :: l) =
  (t <- expand o ;; ts <- series_expand_each expand l ;; Return (t :: ts)).
Proof. reflexivity. Qed.

Lemma series_expand_Plus (operands : list Operator) (param : string)
  (about : Scalar) (order : nat) :
  series_expand (OperatorPlus operands) param about order =
  (tuples <- series_expand_each
               (fun o => series_expand o param about order) operands ;;
   type_stable_all
     (map (fun tels => COp (OperatorPlus_create tels)) (zip tuples))).
Proof.
  change (series_expand (OperatorPlus operands) param about order)
    with (expansion <-
            (tuples <- series_expand_each
                         (fun o => series_expand o param about order)
                         operands ;;
             Return (map (fun tels => COp (OperatorPlus_create tels))
                       (zip tuples))) ;;
          type_stable_all expansion).
  now destruct (series_expand_each _ operands).
Qed.

Lemma series_expand_single (x operand : Operator) (param : string)
  (about : Scalar) (order : nat) :
  x = Adjoint operand
  \/ (exists sign, x = OperatorPlusMinusCC operand sign)
  \/ x = PseudoInverse operand
  \/ x = NullSpaceProjector operand ->
  series_expand x param about order =
  (ope <- series_expand operand param about order ;;
   type_stable_all (map (fun opet => COp (adjoint opet)) ope)).
Proof.
  intros [-> | [[sign ->] | [-> | ->]]];
    rewrite OperatorFacts.series_expand_unfold; cbn [_series_expand];
    now destruct (series_expand operand param about order).
Qed.

Lemma series_expand_on_sums (param : string) (about : Scalar) (N : nat) :
  forall x,
    sum_of_constants x = true ->
    if has_indexed_sum x
    then series_expand x param about N = Raise NotImplementedError
    else exists coeffs,
           series_expand x param about N = Return coeffs
           /\ List.length coeffs = N + 1
           /\ Forall canonical coeffs.
Proof.
  fix IH 1. intros x Hx.
  assert (Hsingle :
            forall operand,
              x = Adjoint operand
              \/ (exists sign, x = OperatorPlusMinusCC operand sign)
              \/ x = PseudoInverse operand
              \/ x = NullSpaceProjector operand ->
              (if has_indexed_sum operand
               then series_expand operand param about N
                    = Raise NotImplementedError
               else exists coeffs,
                      series_expand operand param about N = Return coeffs
                      /\ List.length coeffs = N + 1
                      /\ Forall canonical coeffs) ->
              if has_indexed_sum operand
              then series_expand x param about N = Raise NotImplementedError
              else exists coeffs,
                     series_expand x param about N = Return coeffs
                     /\ List.length coeffs = N + 1
                     /\ Forall canonical coeffs).
  { intros operand Hshape Hop.
    rewrite (series_expand_single param about N Hshape).
    destruct (has_indexed_sum operand).
    - now rewrite Hop.
    - destruct Hop as (ope & -> & Hlen & _). cbn [bind].
      destruct (type_stable_all_operators adjoint ope)
        as (coeffs & Hc & Hl & Hcan).
      exists coeffs. repeat split; [exact Hc | congruence | exact Hcan]. }
  destruct x; cbn [sum_of_constants constant_by_default] in Hx;
    try discriminate Hx; cbn [has_indexed_sum];
    try (rewrite OperatorFacts.series_expand_unfold;
         cbn [_series_expand bind]; apply constant_expansion_stable).
  - (* a sum *)
    rewrite series_expand_Plus.
    apply andb_prop in Hx as [Hlen Hall]. apply Nat.leb_le in Hlen.
    assert (Heach :
              if existsb has_indexed_sum operands
              then series_expand_each
                     (fun o => series_expand o param about N) operands
                   = Raise NotImplementedError
              else exists tuples,
                     series_expand_each
                       (fun o => series_expand o param about N) operands
                     = Return tuples
                     /\ List.length tuples = List.length operands
                     /\ Forall (fun t => List.length t = N + 1) tuples).
    { clear Hlen Hsingle.
      induction operands as [| o operands IHl].
      - cbn. exists []. repeat split. constructor.
      - cbn [forallb] in Hall. apply andb_prop in Hall as [Ho Hall].
        pose proof (IH o Ho) as Hhead. specialize (IHl Hall).
        rewrite series_expand_each_cons. cbn [existsb].
        destruct (has_indexed_sum o); cbn [orb].
        + now rewrite Hhead.
        + destruct Hhead as (t & -> & Ht & _). cbn [bind].
          destruct (existsb has_indexed_sum operands).
          * now rewrite IHl.
          * destruct IHl as (ts & -> & Hts & Hlens). cbn [bind].
            exists (t :: ts). repeat split.
            -- cbn [List.length]. now rewrite Hts.
            -- now constructor. }
    destruct (existsb has_indexed_sum operands).
    + now rewrite Heach.
    + destruct Heach as (tuples & -> & Hts & Hlens). cbn [bind].
      destruct (type_stable_all_operators OperatorPlus_create (zip tuples))
        as (coeffs & Hc & Hl & Hcan).
      exists coeffs. repeat split; [exact Hc | | exact Hcan].
      rewrite Hl. apply zip_length; [| exact Hlens].
      destruct tuples; [cbn in Hts; lia | discriminate].
  - apply (Hsingle x); [now left | exact (IH x Hx)].
  - apply (Hsingle x); [right; left; now exists sign | exact (IH x Hx)].
  - apply (Hsingle x); [now right; right; left | exact (IH x Hx)].
  - apply (Hsingle x); [now right; right; right | exact (IH x Hx)].
  - reflexivity.
Qed.

(** X13.  For an expression built by sums of at least two operands and by
    single-operand operations from expressions that are constant by
    default and from indexed sums: if it has no indexed sum,
    [series_expand] to order [N] returns exactly [N + 1] coefficients,
    each type-stable; if it has one, [series_expand] raises
    [NotImplementedError].  An expression that is constant by default
    expands to itself followed by [N] zero operators. *)
Theorem series_expand_of_sums (x : Operator) (param : string)
  (about : Scalar) (N : nat) :
  sum_of_constants x = true ->
  (has_indexed_sum x = false ->
   exists coeffs,
     series_expand x param about N = Return coeffs
     /\ List.length coeffs = N + 1
     /\ Forall canonical coeffs)
  /\ (has_indexed_sum x = true ->
      series_expand x param about N = Raise NotImplementedError)
  /\ (constant_by_default x = true ->
      series_expand x param about N = Return (x :: repeat _zero N)).
Proof.
  intros Hx. pose proof (series_expand_on_sums param about N x Hx) as H.
  repeat split.
  - intros Hnone. now rewrite Hnone in H.
  - intros Hsome. now rewrite Hsome in H.
  - intros Hconst. rewrite OperatorFacts.series_expand_unfold.
    assert (Hexp : _series_expand x param about N
                   = Return (constant_series_expand x N))
      by (destruct x; try discriminate Hconst; reflexivity).
    rewrite Hexp. cbn [bind]. now apply constant_expansion_exact.
Qed.

End Series.

End SeriesFacts.

(** ** [series_expand] on the whole algebra *)

Module SeriesExpansionFacts.
Import Operators.

Section Expansion.
Context `{R : Rules}.

Lemma for_range_from_map {A : Type} (f : nat -> Outcome A) (g : nat -> A) :
  forall count start,
    (forall i, start <= i < start + count -> f i = Return (g i)) ->
    for_range_from start count f = Return (map g (seq start count)).
Proof.
  induction count as [| count IH]; intros start Hf; [reflexivity |].
  cbn [for_range_from seq map].
  rewrite (Hf start) by lia. cbn [bind].
  rewrite (IH (S start)) by (intros i Hi; apply Hf; lia).
  reflexivity.
Qed.

Lemma series_item_nth (series : list Operator) (i : nat) :
  i < List.length series ->
  series_item series i = Return (nth i series _zero).
Proof.
  intros Hi. unfold series_item.
  now rewrite (nth_error_nth' series _zero Hi).
Qed.

(** The entry of order [n] of the expansion of a commutator: the sum of
    the commutators of the entries of the orders [k] and [n - k]. *)
Lemma Commutator_series_entries (A_series B_series : list Operator)
  (N : nat) :
  List.length A_series = N + 1 ->
  List.length B_series = N + 1 ->
  Commutator_series A_series B_series N
  = Return
      (map (fun n =>
              COp (OperatorPlus_create
                     (map (fun k =>
                             Commutator_create (nth k A_series _zero)
                               (nth (n - k) B_series _zero))
                        (seq 0 (n + 1)))))
         (seq 0 (N + 1))).
Proof.
  intros HA HB. unfold Commutator_series, for_range.
  apply for_range_from_map. intros n Hn.
  rewrite (@for_range_from_map _ _
             (fun k => Commutator_create (nth k A_series _zero)
                         (nth (n - k) B_series _zero)) (n + 1) 0).
  - reflexivity.
  - intros k Hk.
    rewrite (@series_item_nth A_series k) by lia. cbn [bind].
    rewrite (@series_item_nth B_series (n - k)) by lia. reflexivity.
Qed.

Lemma series_expand_Commutator (A B : Operator) (param : string)
  (about : Scalar) (order : nat) :
  series_expand (Commutator A B) param about order =
  (A_series <- series_expand A param about order ;;
   B_series <- series_expand B param about order ;;
   expansion <- Commutator_series A_series B_series order ;;
   type_stable_all expansion).
Proof.
  rewrite OperatorFacts.series_expand_unfold. cbn [_series_expand].
  destruct (series_expand A param about order); [| reflexivity].
  cbn [bind].
  now destruct (series_expand B param about order).
Qed.

Lemma series_expand_Trace (operand : Operator) (over_space : HilbertSpace)
  (param : string) (about : Scalar) (order : nat) :
  series_expand (OperatorTrace operand over_space) param about order =
  (ope <- series_expand operand param about order ;;
   type_stable_all
     (map (fun opet => COp (OperatorTrace_create opet over_space)) ope)).
Proof.
  rewrite OperatorFacts.series_expand_unfold. cbn [_series_expand].
  now destruct (series_expand operand param about order).
Qed.

Lemma series_expand_backend (x : Operator) (param : string)
  (about : Scalar) (N : nat) :
  _series_expand x param about N = compound_series_expand x param about N ->
  backend_expands param about N x = true ->
  exists coeffs,
    series_expand x param about N = Return coeffs
    /\ List.length coeffs = N + 1
    /\ Forall canonical coeffs.
Proof.
  intros Hx Hb. rewrite OperatorFacts.series_expand_unfold, Hx.
  unfold backend_expands in Hb.
  destruct (compound_series_expand x param about N) as [expansion |];
    [| discriminate Hb].
  apply andb_prop in Hb as [Hlen Hall]. apply Nat.eqb_eq in Hlen.
  destruct (OperatorFacts.type_stable_all_acceptable expansion Hall)
    as (coeffs & Hc & Hl & Hcan).
  exists coeffs. cbn [bind].
  repeat split; [exact Hc | congruence | exact Hcan].
Qed.

Lemma series_expand_expandable (param : string) (about : Scalar) (N : nat) :
  forall x,
    expandable param about N x = true ->
    exists coeffs,
      series_expand x param about N = Return coeffs
      /\ List.length coeffs = N + 1
      /\ Forall canonical coeffs.
Proof.
  fix IH 1. intros x Hx.
  assert (Hsingle :
            forall operand,
              x = Adjoint operand
              \/ (exists sign, x = OperatorPlusMinusCC operand sign)
              \/ x = PseudoInverse operand
              \/ x = NullSpaceProjector operand ->
              (exists coeffs,
                  series_expand operand param about N = Return coeffs
                  /\ List.length coeffs = N + 1
                  /\ Forall canonical coeffs) ->
              exists coeffs,
                series_expand x param about N = Return coeffs
                /\ List.length coeffs = N + 1
                /\ Forall canonical coeffs).
  { intros operand Hshape (ope & Hope & Hlen & _).
    rewrite (SeriesFacts.series_expand_single param about N Hshape), Hope.
    cbn [bind].
    destruct (SeriesFacts.type_stable_all_operators adjoint ope)
      as (coeffs & Hc & Hl & Hcan).
    exists coeffs. repeat split; [exact Hc | congruence | exact Hcan]. }
  destruct x; cbn [expandable] in Hx; try discriminate Hx;
    try (rewrite OperatorFacts.series_expand_unfold;
         cbn [_series_expand bind];
         apply SeriesFacts.constant_expansion_stable).
  - (* a sum *)
    rewrite SeriesFacts.series_expand_Plus.
    apply andb_prop in Hx as [Hlen Hall]. apply Nat.leb_le in Hlen.
    assert (Heach :
              exists tuples,
                series_expand_each
                  (fun o => series_expand o param about N) operands
                = Return tuples
                /\ List.length tuples = List.length operands
                /\ Forall (fun t => List.length t = N + 1) tuples).
    { clear Hlen Hsingle.
      induction operands as [| o operands IHl].
      - cbn. exists []. repeat split. constructor.
      - cbn [forallb] in Hall. apply andb_prop in Hall as [Ho Hall].
        destruct (IH o Ho) as (t & Ht & Hlt & _).
        destruct (IHl Hall) as (ts & Hts & Hlts & Hlens).
        rewrite SeriesFacts.series_expand_each_cons, Ht. cbn [bind].
        rewrite Hts. cbn [bind].
        exists (t :: ts). repeat split.
        + cbn [List.length]. now rewrite Hlts.
        + now constructor. }
    destruct Heach as (tuples & -> & Hts & Hlens). cbn [bind].
    destruct (SeriesFacts.type_stable_all_operators OperatorPlus_create
                (zip tuples)) as (coeffs & Hc & Hl & Hcan).
    exists coeffs. repeat split; [exact Hc | | exact Hcan].
    rewrite Hl. apply SeriesFacts.zip_length; [| exact Hlens].
    destruct tuples; [cbn in Hts; lia | discriminate].
  - (* a product *)
    now apply series_expand_backend.
  - (* a scalar multiple *)
    now apply series_expand_backend.
  - (* a commutator *)
    apply andb_prop in Hx as [HA HB].
    destruct (IH x1 HA) as (A_series & EA & HlA & _).
    destruct (IH x2 HB) as (B_series & EB & HlB & _).
    rewrite series_expand_Commutator, EA. cbn [bind].
    rewrite EB. cbn [bind].
    rewrite (@Commutator_series_entries A_series B_series N HlA HlB).
    cbn [bind].
    destruct (SeriesFacts.type_stable_all_operators
                (fun n =>
                   OperatorPlus_create
                     (map (fun k =>
                             Commutator_create (nth k A_series _zero)
                               (nth (n - k) B_series _zero))
                        (seq 0 (n + 1))))
                (seq 0 (N + 1))) as (coeffs & Hc & Hl & Hcan).
    exists coeffs. repeat split; [exact Hc | | exact Hcan].
    now rewrite Hl, length_seq.
  - (* a trace *)
    destruct (IH x Hx) as (ope & Hope & Hlen & _).
    rewrite series_expand_Trace, Hope. cbn [bind].
    destruct (SeriesFacts.type_stable_all_operators
                (fun opet => OperatorTrace_create opet over_space) ope)
      as (coeffs & Hc & Hl & Hcan).
    exists coeffs. repeat split; [exact Hc | congruence | exact Hcan].
  - apply (Hsingle x); [now left | exact (IH x Hx)].
  - apply (Hsingle x); [right; left; now exists sign | exact (IH x Hx)].
  - apply (Hsingle x); [now right; right; left | exact (IH x Hx)].
  - apply (Hsingle x); [now right; right; right | exact (IH x Hx)].
Qed.


End Expansion.

End SeriesExpansionFacts.


(** ** The labels of [LocalSigma] *)

Module SigmaFacts.
Import Sigma.

Lemma index_subscript (labels : list string) :
  NoDup labels ->
  forall i label,
    nth_error labels i = Some label -> index labels label = Ok (Z.of_nat i).
Proof.
  induction 1 as [| l labels Hnotin _ IH]; intros i label Hnth.
  - destruct i; discriminate Hnth.
  - destruct i as [| i]; cbn [nth_error] in Hnth.
    + injection Hnth as ->. cbn [index]. now rewrite String.eqb_refl.
    + cbn [index]. destruct (String.eqb l label) eqn:E.
      * apply String.eqb_eq in E. subst label.
        apply nth_error_In in Hnth. contradiction.
      * rewrite (IH _ _ Hnth). cbn [and_then]. f_equal. lia.
Qed.

Lemma index_missing (labels : list string) (label : string) :
  ~ In label labels -> index labels label = Error ValueError.
Proof.
  induction labels as [| l labels IH]; [reflexivity |].
  intros Hnotin. cbn [index].
  destruct (String.eqb l label) eqn:E.
  - apply String.eqb_eq in E. subst. destruct Hnotin. now left.
  - rewrite IH; [reflexivity |]. intros Hin. apply Hnotin. now right.
Qed.

Lemma checked_label_of_index (hs : LocalSpaceObject) (z : Z) :
  (forall jk, _check_basis_label_type hs jk = None) ->
  has_basis hs = true ->
  dimension hs = Z.of_nat (List.length (basis_labels hs)) ->
  NoDup (basis_labels hs) ->
  (0 <= z < dimension hs)%Z ->
  exists label,
    checked_label hs (LInt z) = Ok (LStr label)
    /\ index_of hs (LStr label) = Ok (LInt z).
Proof.
  intros Hacc Hb Hdim Hnd Hz. unfold checked_label. rewrite Hacc, Hb.
  destruct (Z.ltb_spec z 0) as [Hneg | _]; [lia |].
  destruct (Z.leb_spec (dimension hs) z) as [Hbig | _]; [lia |].
  unfold subscript.
  destruct (nth_error (basis_labels hs) (Z.to_nat z)) as [label |] eqn:E.
  - exists label. split; [reflexivity |]. cbn [index_of].
    rewrite (index_subscript Hnd _ E). cbn [and_then].
    do 2 f_equal. lia.
  - apply nth_error_None in E. lia.
Qed.

(** X17.  [LocalSigma(j, k, hs=hs)] for a [LocalSpace] that accepts the
    types of the labels.  With a basis of distinct labels, as many as the
    dimension, indices within the dimension are stored as the labels at
    these positions and [index_j], [index_k] give the indices back;
    without a basis, indices that are not negative are stored as they
    are.  A negative index, an index not below the dimension of a space
    with a basis, and a string label for a space without a basis raise
    [ValueError].  A string label for a space with a basis is stored
    unchecked: if it is not a label of the basis, [index_j] raises
    [ValueError]. *)
Theorem LocalSigma_labels (hs : LocalSpaceObject) :
  (forall jk, _check_basis_label_type hs jk = None) ->
  (has_basis hs = true ->
   dimension hs = Z.of_nat (List.length (basis_labels hs)) ->
   NoDup (basis_labels hs) ->
   forall jz kz,
     (0 <= jz < dimension hs)%Z -> (0 <= kz < dimension hs)%Z ->
     exists sigma,
       __init__ (LInt jz) (LInt kz) hs = Ok sigma
       /\ space sigma = hs
       /\ index_j sigma = Ok (LInt jz)
       /\ index_k sigma = Ok (LInt kz))
  /\ (has_basis hs = false ->
      forall jz kz,
        (0 <= jz)%Z -> (0 <= kz)%Z ->
        __init__ (LInt jz) (LInt kz) hs
        = Ok {| j := LInt jz; k := LInt kz; space := hs |})
  /\ (forall jz k0, (jz < 0)%Z -> __init__ (LInt jz) k0 hs = Error ValueError)
  /\ (has_basis hs = true ->
      forall jz k0,
        (dimension hs <= jz)%Z -> __init__ (LInt jz) k0 hs = Error ValueError)
  /\ (has_basis hs = false ->
      forall s k0, __init__ (LStr s) k0 hs = Error ValueError)
  /\ (forall j0 j' kz,
         checked_label hs j0 = Ok j' -> (kz < 0)%Z ->
         __init__ j0 (LInt kz) hs = Error ValueError)
  /\ (has_basis hs = true ->
      forall s t,
        __init__ (LStr s) (LStr t) hs
        = Ok {| j := LStr s; k := LStr t; space := hs |}
        /\ (~ In s (basis_labels hs) ->
            index_j {| j := LStr s; k := LStr t; space := hs |}
            = Error ValueError)).
Proof.
  intros Hacc.
  split; [| split; [| split; [| split; [| split; [| split]]]]].
  - intros Hb Hdim Hnd jz kz Hj Hk.
    destruct (@checked_label_of_index hs jz Hacc Hb Hdim Hnd Hj)
      as (lj & Hcj & Hij).
    destruct (@checked_label_of_index hs kz Hacc Hb Hdim Hnd Hk)
      as (lk & Hck & Hik).
    exists {| j := LStr lj; k := LStr lk; space := hs |}.
    unfold __init__. rewrite Hcj, Hck. cbn [and_then].
    repeat split; assumption.
  - intros Hb jz kz Hj Hk. unfold __init__, checked_label.
    rewrite !Hacc, Hb.
    destruct (Z.ltb_spec jz 0); [lia |].
    destruct (Z.ltb_spec kz 0); [lia |]. reflexivity.
  - intros jz k0 Hj. unfold __init__, checked_label. rewrite Hacc.
    destruct (Z.ltb_spec jz 0); [reflexivity | lia].
  - intros Hb jz k0 Hj. unfold __init__, checked_label. rewrite Hacc, Hb.
    destruct (Z.ltb_spec jz 0); [reflexivity |].
    destruct (Z.leb_spec (dimension hs) jz); [reflexivity | lia].
  - intros Hb s k0. unfold __init__, checked_label. now rewrite Hacc, Hb.
  - intros j0 j' kz Hj Hk. unfold __init__. rewrite Hj. cbn [and_then].
    unfold checked_label. rewrite Hacc.
    destruct (Z.ltb_spec kz 0); [reflexivity | lia].
  - intros Hb s t. split.
    + unfold __init__, checked_label. now rewrite !Hacc, Hb.
    + intros Hnotin. unfold index_j. cbn [j space index_of].
      now rewrite (@index_missing (basis_labels hs) s Hnotin).
Qed.

End SigmaFacts.

(** ** The operator algebra on concrete expressions *)

Module OperatorExamples.
Import Operators.

(** The sum of a lowering operator and a scaled level flip: its adjoint
    is the sum of the raising operator and the scaled reversed flip, and
    the adjoint of that is the sum again. *)
Lemma adjoint_involution_witness :
  @adjoint NoRules
    (@adjoint NoRules
       (OperatorPlus
          [Destroy (LocalSpace "1");
           ScalarTimesOperator (complex 0 2)
             (LocalSigma "g" "e" (LocalSpace "2"))]))
  = OperatorPlus
      [Destroy (LocalSpace "1");
       ScalarTimesOperator (complex 0 2)
         (LocalSigma "g" "e" (LocalSpace "2"))].
Proof.
  exact (proj1 (@OperatorAlgebraFacts.adjoint_involution NoRules
                  (OperatorPlus
                     [Destroy (LocalSpace "1");
                      ScalarTimesOperator (complex 0 2)
                        (LocalSigma "g" "e" (LocalSpace "2"))])
                  eq_refl)).
Defined.

(** The sum of a symbol and the adjoint of another expands to three
    coefficients at second order. *)
Lemma series_expand_of_sums_witness :
  exists coeffs,
    @series_expand NoRules
      (OperatorPlus
         [OperatorSymbol "A" (LocalSpace "1");
          Adjoint (OperatorSymbol "B" (LocalSpace "1"))])
      "t" Zero 2
    = Return coeffs
    /\ List.length coeffs = 2 + 1
    /\ Forall canonical coeffs.
Proof.
  exact (proj1 (@SeriesFacts.series_expand_of_sums NoRules
                  (OperatorPlus
                     [OperatorSymbol "A" (LocalSpace "1");
                      Adjoint (OperatorSymbol "B" (LocalSpace "1"))])
                  "t" Zero 2 eq_refl) eq_refl).
Defined.

(** A symbol plus an indexed sum is a sum; the indexed sum plus the symbol
    raises. *)
Lemma indexed_sum_mixed_arithmetic_witness :
  @add NoRules (VOp (OperatorSymbol "A" (LocalSpace "1")))
    (VOp (OperatorIndexedSum (OperatorSymbol "B" (LocalSpace "1"))
            [IndexOverRange "i" (AInt 1) (AInt 10) (AInt 1)]))
  = Return (VOp (OperatorPlus
                   [OperatorSymbol "A" (LocalSpace "1");
                    OperatorIndexedSum (OperatorSymbol "B" (LocalSpace "1"))
                      [IndexOverRange "i" (AInt 1) (AInt 10) (AInt 1)]]))
  /\ @add NoRules
       (VOp (OperatorIndexedSum (OperatorSymbol "B" (LocalSpace "1"))
               [IndexOverRange "i" (AInt 1) (AInt 10) (AInt 1)]))
       (VOp (OperatorSymbol "A" (LocalSpace "1")))
     = Raise NotImplementedError.
Proof.
  destruct (@OperatorAlgebraFacts.indexed_sum_mixed_arithmetic NoRules
              (OperatorSymbol "A" (LocalSpace "1"))
              (OperatorSymbol "B" (LocalSpace "1"))
              [IndexOverRange "i" (AInt 1) (AInt 10) (AInt 1)] eq_refl)
    as (H1 & H2 & _).
  split; [exact H1 | exact H2].
Defined.

(** [A + A.dag()] of the docstring of [create_operator_pm_cc]: the symbol
    [A] and its adjoint combine, and the combination expands to their sum
    again. *)
Lemma operator_pm_cc_round_trip_witness :
  @_combine_operator_p_cc NoRules (OperatorSymbol "A" (LocalSpace "1"))
    (Adjoint (OperatorSymbol "A" (LocalSpace "1")))
  = Replaced (OperatorPlusMinusCC (OperatorSymbol "A" (LocalSpace "1")) 1)
  /\ @pmCCexpand1 NoRules (OperatorSymbol "A" (LocalSpace "1"))
     = Return (VOp (OperatorPlus
                      [OperatorSymbol "A" (LocalSpace "1");
                       Adjoint (OperatorSymbol "A" (LocalSpace "1"))])).
Proof.
  destruct (@OperatorAlgebraFacts.operator_pm_cc_round_trip NoRules
              (OperatorSymbol "A" (LocalSpace "1"))
              (Adjoint (OperatorSymbol "A" (LocalSpace "1")))
              eq_refl eq_refl) as (H1 & H2 & _).
  split; [exact H1 |]. rewrite H2. reflexivity.
Defined.

End OperatorExamples.

Module SigmaExamples.
Import Sigma.

(** [LocalSigma(0, 1, hs=two_level)] stores the labels [g] and [e], and
    its indices are [0] and [1]. *)
Lemma LocalSigma_labels_witness :
  exists sigma,
    __init__ (LInt 0) (LInt 1) two_level = Ok sigma
    /\ space sigma = two_level
    /\ index_j sigma = Ok (LInt 0)
    /\ index_k sigma = Ok (LInt 1).
Proof.
  assert (Hnd : NoDup (basis_labels two_level)).
  { repeat constructor; simpl; intuition discriminate. }
  apply (proj1 (@SigmaFacts.LocalSigma_labels two_level
                  (fun _ => eq_refl)) eq_refl eq_refl Hnd); simpl; lia.
Defined.

End SigmaExamples.
